(** * blogger2hugo: the comment tree, identifier resolution and rendering

    A shallow embedding of [main.go].  The program reads a Blogger export
    (a flat list of entries), registers entries under the number that
    follows "post-" in their id, attaches every comment to the entry its
    parent number is registered for, flattens the comment tree of every
    post and renders posts and comments through one text template.

    Layout of the development:
    - [Go]: models of the Go standard library functions the program calls
      (strings, strconv, path, time); these are not code of the repository
      and are written after the library's documented behaviour, on byte
      strings, for a Unix file system;
    - the data model ([Entry] and its parts) and the template;
    - [treeSort], over any sorting routine that meets the contract of
      [sort.Sort];
    - the three passes of [main] as state-passing functions in a small
      result monad;
    - the theorems: facts about the sorting routines, the flattening and
      the passes, the claims of the specification one by one, and further
      properties of the program. *)

From Stdlib Require Import ZArith NArith Lia Ascii String Permutation.
From stdpp Require Import base option list gmap strings relations sorting.

(** ** Results of fallible code *)

(** [log.Fatal] and [panic] both end the run; [OutOfFuel] stands for a
    recursion that has not returned within the fuel it was given. *)
Inductive result (A : Type) : Type :=
| Ret (a : A)
| Panic (msg : string)
| Fatal (msg : string)
| OutOfFuel.
Arguments Ret {A} a.
Arguments Panic {A} msg.
Arguments Fatal {A} msg.
Arguments OutOfFuel {A}.

#[global] Instance result_ret : MRet result := fun A a => Ret a.

#[global] Instance result_bind : MBind result := fun A B f m =>
  match m with
  | Ret a => f a
  | Panic msg => Panic msg
  | Fatal msg => Fatal msg
  | OutOfFuel => OutOfFuel
  end.

(** ** The Go standard library, as far as the program uses it *)

Module Go.

(** *** strings *)

Fixpoint drop_bytes (n : nat) (s : string) : string :=
  match n, s with
  | O, _ => s
  | S n', String _ s' => drop_bytes n' s'
  | S _, EmptyString => EmptyString
  end.

Fixpoint take_bytes (n : nat) (s : string) : string :=
  match n, s with
  | S n', String c s' => String c (take_bytes n' s')
  | _, _ => EmptyString
  end.

Fixpoint last_index_from (sep s : string) (pos found : Z) : Z :=
  let found' := if String.prefix sep s then pos else found in
  match s with
  | EmptyString => found'
  | String _ s' => last_index_from sep s' (pos + 1) found'
  end.

(** [strings.LastIndex(s, sep)]: the byte offset of the last occurrence of
    [sep] in [s], or -1. *)
Definition strings_LastIndex (s sep : string) : Z :=
  last_index_from sep s 0 (-1).

Fixpoint replace_all (old new : string) (skip : nat) (s : string) : string :=
  match s with
  | EmptyString => EmptyString
  | String c s' =>
      match skip with
      | S k => replace_all old new k s'
      | O =>
          if String.prefix old s
          then new +:+ replace_all old new (String.length old - 1) s'
          else String c (replace_all old new 0 s')
      end
  end.

Fixpoint intersperse_before (new s : string) : string :=
  match s with
  | EmptyString => new
  | String c s' => new +:+ String c (intersperse_before new s')
  end.

(** [strings.Replace(s, old, new, -1)]: every non-overlapping occurrence,
    left to right; an empty [old] matches before every byte and at the
    end. *)
Definition strings_ReplaceAll (s old new : string) : string :=
  match old with
  | EmptyString => intersperse_before new s
  | _ => replace_all old new 0 s
  end.

Definition is_upper (c : ascii) : bool :=
  let n := nat_of_ascii c in (65 <=? n)%nat && (n <=? 90)%nat.
Definition is_lower (c : ascii) : bool :=
  let n := nat_of_ascii c in (97 <=? n)%nat && (n <=? 122)%nat.
Definition is_digit (c : ascii) : bool :=
  let n := nat_of_ascii c in (48 <=? n)%nat && (n <=? 57)%nat.

Definition to_lower (c : ascii) : ascii :=
  if is_upper c then ascii_of_nat (nat_of_ascii c + 32) else c.

Fixpoint map_bytes (f : ascii -> ascii) (s : string) : string :=
  match s with
  | EmptyString => EmptyString
  | String c s' => String (f c) (map_bytes f s')
  end.

Fixpoint filter_bytes (f : ascii -> bool) (s : string) : string :=
  match s with
  | EmptyString => EmptyString
  | String c s' => if f c then String c (filter_bytes f s') else filter_bytes f s'
  end.

(** [strings.Contains(s, substr)] *)
Fixpoint strings_Contains (s substr : string) : bool :=
  if String.prefix substr s then true
  else match s with
       | EmptyString => false
       | String _ s' => strings_Contains s' substr
       end.

(** [strings.ToLower], on the ASCII range. *)
Definition strings_ToLower (s : string) : string := map_bytes to_lower s.

Fixpoint trim_left (s : string) : string :=
  match s with
  | String c s' => if Ascii.is_space c then trim_left s' else s
  | EmptyString => EmptyString
  end.

Fixpoint rev_bytes (s acc : string) : string :=
  match s with
  | EmptyString => acc
  | String c s' => rev_bytes s' (String c acc)
  end.

(** [strings.TrimSpace], on the ASCII white space. *)
Definition strings_TrimSpace (s : string) : string :=
  rev_bytes (trim_left (rev_bytes (trim_left s) EmptyString)) EmptyString.

Fixpoint join (sep : string) (l : list string) : string :=
  match l with
  | [] => EmptyString
  | [x] => x
  | x :: l' => x +:+ sep +:+ join sep l'
  end.

(** *** strconv *)

Definition maxUint64 : N := 18446744073709551615%N.

Definition digit_of (c : ascii) : option N :=
  if is_digit c then Some (N.of_nat (nat_of_ascii c - 48)) else None.

(** The digit loop of [strconv.ParseUint(s, 10, 64)]: a byte that is not a
    digit is a syntax error with value 0; a value that leaves the 64 bit
    range is a range error with value [maxUint64], reported as soon as it
    is met. *)
Fixpoint parse_digits (s : string) (n : N) : N * bool :=
  match s with
  | EmptyString => (n, true)
  | String c s' =>
      match digit_of c with
      | None => (0%N, false)
      | Some d =>
          let n1 := (n * 10 + d)%N in
          if (maxUint64 <? n1)%N then (maxUint64, false) else parse_digits s' n1
      end
  end.

(** [strconv.ParseUint(s, 10, 64)] as the pair (value, err == nil). *)
Definition strconv_ParseUint (s : string) : N * bool :=
  match s with
  | EmptyString => (0%N, false)
  | _ => parse_digits s 0
  end.

Definition digit_char (d : nat) : ascii := ascii_of_nat (48 + d).

Fixpoint decimal_fuel (fuel : nat) (n : N) (acc : string) : string :=
  match fuel with
  | O => acc
  | S f =>
      let acc' := String (digit_char (N.to_nat (n mod 10))) acc in
      if (n <? 10)%N then acc' else decimal_fuel f (n / 10) acc'
  end.

(** Decimal rendering of a non-negative number ([strconv.Itoa] on an index,
    the template's printing of an unsigned number). *)
Definition decimal (n : N) : string :=
  decimal_fuel (S (N.to_nat (N.log2 n))) n EmptyString.

Definition strconv_Itoa (k : nat) : string := decimal (N.of_nat k).

(** Left-padded decimal of a fixed width, as the time formatter prints
    years, months, days, hours, minutes and seconds. *)
Fixpoint pad_left (width : nat) (s : string) : string :=
  if (width <=? String.length s)%nat then s
  else match width with
       | O => s
       | S w => String "0" (pad_left w s)
       end.

Definition decimal_pad (width : nat) (z : Z) : string :=
  pad_left width (decimal (Z.to_N z)).

(** *** path and path/filepath (Unix) *)

Fixpoint split_slash (s cur : string) : list string :=
  match s with
  | EmptyString => [rev_bytes cur EmptyString]
  | String c s' =>
      if Ascii.eqb c "/" then rev_bytes cur EmptyString :: split_slash s' EmptyString
      else split_slash s' (String c cur)
  end.

(** The elements of a path, first to last, with "" and "." dropped and ".."
    cancelling the element before it; [stack] holds the kept elements, last
    first. *)
Fixpoint clean_elems (rooted : bool) (elems stack : list string) : list string :=
  match elems with
  | [] => rev stack
  | e :: rest =>
      if String.eqb e "" || String.eqb e "." then clean_elems rooted rest stack
      else if String.eqb e ".." then
        match stack with
        | top :: stack' =>
            if String.eqb top ".." then clean_elems rooted rest (e :: stack)
            else clean_elems rooted rest stack'
        | [] =>
            if rooted then clean_elems rooted rest []
            else clean_elems rooted rest [e]
        end
      else clean_elems rooted rest (e :: stack)
  end.

(** [path.Clean]: the shortest path equivalent to [p] by lexical
    processing. *)
Definition path_Clean (p : string) : string :=
  let rooted := String.prefix "/" p in
  let body := join "/" (clean_elems rooted (split_slash p EmptyString) []) in
  if rooted then "/" +:+ body
  else if String.eqb body "" then "." else body.

(** [path.Join] and, on Unix, [filepath.Join]: the elements from the first
    non-empty one on, separated by slashes and cleaned; "" when all are
    empty. *)
Fixpoint path_Join (elem : list string) : string :=
  match elem with
  | [] => EmptyString
  | e :: rest =>
      if String.eqb e "" then path_Join rest else path_Clean (join "/" elem)
  end.

Definition filepath_Join (elem : list string) : string := path_Join elem.

Fixpoint strip_trailing_slashes_rev (r : string) : string :=
  match r with
  | String c r' => if Ascii.eqb c "/" then strip_trailing_slashes_rev r' else r
  | EmptyString => EmptyString
  end.

Fixpoint take_until_slash (r : string) : string :=
  match r with
  | String c r' => if Ascii.eqb c "/" then EmptyString else String c (take_until_slash r')
  | EmptyString => EmptyString
  end.

(** [path.Base]: the last element of the path; "." for the empty path, "/"
    for a path of slashes only. *)
Definition path_Base (p : string) : string :=
  match p with
  | EmptyString => "."
  | _ =>
      let r := strip_trailing_slashes_rev (rev_bytes p EmptyString) in
      let last := rev_bytes (take_until_slash r) EmptyString in
      if String.eqb last "" then "/" else last
  end.

(** The reversed extension: scanning from the end, up to and including the
    first dot, unless a slash comes first. *)
Fixpoint ext_rev (r : string) : option string :=
  match r with
  | EmptyString => None
  | String c r' =>
      if Ascii.eqb c "/" then None
      else if Ascii.eqb c "." then Some (String c EmptyString)
      else option_map (String c) (ext_rev r')
  end.

(** [path.Ext]: the suffix beginning at the final dot in the final element
    of the path; empty if there is no dot. *)
Definition path_Ext (p : string) : string :=
  match ext_rev (rev_bytes p EmptyString) with
  | Some r => rev_bytes r EmptyString
  | None => EmptyString
  end.

(** [strconv.Quote], the [%q] verb on a string: Go escape sequences inside
    double quotes.  Bytes above the ASCII range are kept as they are. *)
Definition dquote : ascii := ascii_of_nat 34.
Definition backslash : ascii := ascii_of_nat 92.

Definition hex_digit (d : nat) : ascii :=
  if (d <? 10)%nat then ascii_of_nat (48 + d) else ascii_of_nat (87 + d).

Definition quote_byte (c : ascii) : string :=
  let n := nat_of_ascii c in
  let esc x := String backslash (String x EmptyString) in
  if (n =? 34)%nat then esc dquote
  else if (n =? 92)%nat then esc backslash
  else if (n =? 7)%nat then esc "a"%char
  else if (n =? 8)%nat then esc "b"%char
  else if (n =? 12)%nat then esc "f"%char
  else if (n =? 10)%nat then esc "n"%char
  else if (n =? 13)%nat then esc "r"%char
  else if (n =? 9)%nat then esc "t"%char
  else if (n =? 11)%nat then esc "v"%char
  else if (n <? 32)%nat || (n =? 127)%nat
  then String backslash
         (String "x"%char (String (hex_digit (n / 16)) (String (hex_digit (n mod 16)) EmptyString)))
  else String c EmptyString.

Fixpoint quote_bytes (s : string) : string :=
  match s with
  | EmptyString => EmptyString
  | String c s' => quote_byte c +:+ quote_bytes s'
  end.

Definition strconv_Quote (s : string) : string :=
  String dquote (quote_bytes s +:+ String dquote EmptyString).

(** *** time *)

(** A [time.Time] as the reader of a time stamp leaves it: the wall clock
    fields as written, and the zone the stamp names, in seconds east of
    UTC. *)
Record Time : Type := mkTime {
  year : Z; month : Z; day : Z;
  hour : Z; minute : Z; second : Z;
  nsec : Z;
  zone : Z
}.

(** The zero [time.Time]: January 1, year 1, 00:00:00 UTC. *)
Definition zeroTime : Time := mkTime 1 1 1 0 0 0 0 0.

Definition is_leap (y : Z) : bool :=
  ((y mod 4 =? 0) && (negb (y mod 100 =? 0) || (y mod 400 =? 0)))%Z.

Definition daysIn (m y : Z) : Z :=
  (if m =? 2 then (if is_leap y then 29 else 28)
   else if (m =? 4) || (m =? 6) || (m =? 9) || (m =? 11) then 30
   else 31)%Z.

(** Days between 1970-01-01 and a date of the proleptic Gregorian
    calendar. *)
Definition days_from_civil (y m d : Z) : Z :=
  (let y' := if m <=? 2 then y - 1 else y in
   let era := y' / 400 in
   let yoe := y' - era * 400 in
   let mp := (m + 9) mod 12 in
   let doy := (153 * mp + 2) / 5 + d - 1 in
   let doe := yoe * 365 + yoe / 4 - yoe / 100 + doy in
   era * 146097 + doe - 719468)%Z.

(** The instant of a time, in nanoseconds since the Unix epoch. *)
Definition unix_nano (t : Time) : Z :=
  ((days_from_civil (year t) (month t) (day t) * 86400
    + hour t * 3600 + minute t * 60 + second t - zone t) * 1000000000
   + nsec t)%Z.

(** [t.Before(u)]: the instant of [t] is earlier than that of [u]. *)
Definition Before (t u : Time) : bool := (unix_nano t <? unix_nano u)%Z.

Fixpoint read_digits (n : nat) (s : string) (acc : Z) : option (Z * string) :=
  match n with
  | O => Some (acc, s)
  | S n' =>
      match s with
      | String c s' =>
          match digit_of c with
          | Some d => read_digits n' s' (acc * 10 + Z.of_N d)%Z
          | None => None
          end
      | EmptyString => None
      end
  end.

Definition expect (c : ascii) (s : string) : option string :=
  match s with
  | String c' s' => if Ascii.eqb c c' then Some s' else None
  | EmptyString => None
  end.

Definition read_sign (s : string) : option (Z * string) :=
  match s with
  | String c s' =>
      if Ascii.eqb c "+" then Some (1%Z, s')
      else if Ascii.eqb c "-" then Some ((-1)%Z, s')
      else None
  | EmptyString => None
  end.

(** [time.Parse("2006-01-02T15:04:05.000-07:00", v)] on stamps written with
    the layout's field widths: four digit year, two digit month, day,
    hour, minute and second, three digit fraction, signed zone offset, and
    nothing after it.  The result keeps the wall clock of the stamp and
    its offset. *)
Definition time_Parse (v : string) : option Time :=
  '(y, v) ← read_digits 4 v 0%Z;
  v ← expect "-" v;
  '(mo, v) ← read_digits 2 v 0%Z;
  v ← expect "-" v;
  '(d, v) ← read_digits 2 v 0%Z;
  v ← expect "T" v;
  '(h, v) ← read_digits 2 v 0%Z;
  v ← expect ":" v;
  '(mi, v) ← read_digits 2 v 0%Z;
  v ← expect ":" v;
  '(sec, v) ← read_digits 2 v 0%Z;
  v ← expect "." v;
  '(ms, v) ← read_digits 3 v 0%Z;
  '(sign, v) ← read_sign v;
  '(zh, v) ← read_digits 2 v 0%Z;
  v ← expect ":" v;
  '(zm, v) ← read_digits 2 v 0%Z;
  if negb (String.eqb v "") then None
  else if ((1 <=? mo) && (mo <=? 12) && (1 <=? d) && (d <=? daysIn mo y)
           && (h <? 24) && (mi <? 60) && (sec <? 60))%Z
  then Some (mkTime y mo d h mi sec (ms * 1000000) (sign * (zh * 3600 + zm * 60)))
  else None.

(** [t.Format("2006-01-02T15:04:05Z")]: the layout has no zone element (a
    "Z" not followed by an offset pattern is literal text), so the wall
    clock fields of [t] are printed in the zone [t] carries, followed by
    the letter Z. *)
Definition time_Format (t : Time) : string :=
  decimal_pad 4 (year t) +:+ "-" +:+ decimal_pad 2 (month t) +:+ "-"
  +:+ decimal_pad 2 (day t) +:+ "T" +:+ decimal_pad 2 (hour t) +:+ ":"
  +:+ decimal_pad 2 (minute t) +:+ ":" +:+ decimal_pad 2 (second t) +:+ "Z".

End Go.

Import Go.

(** ** The data model *)

Definition nl : string := String (ascii_of_nat 10) EmptyString.
Definition cr : string := String (ascii_of_nat 13) EmptyString.
Definition dq : string := String dquote EmptyString.

(** [type Date time.Time] *)
Definition Date : Type := Time.

Definition Date_String (d : Date) : string := time_Format d.

(** [Date.UnmarshalXML]: [None] is the error the decoder returns. *)
Definition Date_UnmarshalXML (v : string) : option Date := time_Parse v.

(** [Draft.UnmarshalXML] *)
Definition Draft_UnmarshalXML (v : string) : option bool :=
  if String.eqb v "yes" then Some true
  else if String.eqb v "no" then Some false
  else None.

Module Reply.
Record t : Type := mk { Rel : string; Link : string; Source : string }.
End Reply.

Module Image.
Record t : Type := mk { Width : Z; Height : Z; Source : string }.
End Image.

Module Author.
Record t : Type := mk { Name : string; Uri : string; Image : Image.t }.
End Author.

Module Tag.
Record t : Type := mk { Name : string; Scheme : string }.
End Tag.

Module Entry.
Record t : Type := mk {
  ID : string;
  Published : Date;
  Updated : Date;
  Draft : bool;
  Title : string;
  Content : string;
  Tags : list Tag.t;
  Author : Author.t;
  Source : Reply.t;
  Links : list Reply.t;
  Reply : N;
  Children : list nat;
  Comments : list N;
  Slug : string;
  Extra : string
}.

Definition with_ID (e : t) (x : string) : t :=
  mk x (Published e) (Updated e) (Draft e) (Title e) (Content e) (Tags e)
     (Author e) (Source e) (Links e) (Reply e) (Children e) (Comments e)
     (Slug e) (Extra e).

Definition with_Title (e : t) (x : string) : t :=
  mk (ID e) (Published e) (Updated e) (Draft e) x (Content e) (Tags e)
     (Author e) (Source e) (Links e) (Reply e) (Children e) (Comments e)
     (Slug e) (Extra e).

Definition with_Reply (e : t) (x : N) : t :=
  mk (ID e) (Published e) (Updated e) (Draft e) (Title e) (Content e) (Tags e)
     (Author e) (Source e) (Links e) x (Children e) (Comments e)
     (Slug e) (Extra e).

Definition with_Children (e : t) (x : list nat) : t :=
  mk (ID e) (Published e) (Updated e) (Draft e) (Title e) (Content e) (Tags e)
     (Author e) (Source e) (Links e) (Reply e) x (Comments e)
     (Slug e) (Extra e).

Definition with_Comments (e : t) (x : list N) : t :=
  mk (ID e) (Published e) (Updated e) (Draft e) (Title e) (Content e) (Tags e)
     (Author e) (Source e) (Links e) (Reply e) (Children e) x
     (Slug e) (Extra e).

Definition with_Slug (e : t) (x : string) : t :=
  mk (ID e) (Published e) (Updated e) (Draft e) (Title e) (Content e) (Tags e)
     (Author e) (Source e) (Links e) (Reply e) (Children e) (Comments e)
     x (Extra e).

Definition with_Extra (e : t) (x : string) : t :=
  mk (ID e) (Published e) (Updated e) (Draft e) (Title e) (Content e) (Tags e)
     (Author e) (Source e) (Links e) (Reply e) (Children e) (Comments e)
     (Slug e) x.
End Entry.

Definition kindScheme : string := "http://schemas.google.com/g/2005#kind".
Definition kindComment : string :=
  "http://schemas.google.com/blogger/2008/kind#comment".
Definition kindPost : string :=
  "http://schemas.google.com/blogger/2008/kind#post".
Definition labelScheme : string := "http://www.blogger.com/atom/ns#".

(** [Tags.TomlString]: the quoted names of the label tags, comma
    separated. *)
Definition Tags_TomlString (tags : list Tag.t) : string :=
  join ", "
    (map (fun tg => strconv_Quote (Tag.Name tg))
       (filter (fun tg => Tag.Scheme tg = labelScheme) tags)).

(** ** The templates *)

Definition with_nonempty (s : string) (body : string -> string) : string :=
  if String.eqb s "" then "" else body s.

(** [yamlTempl] executed on an entry.  This is the template the program
    parses into [t] and the only one it executes. *)
Definition yamlTempl (e : Entry.t) : string :=
  "---" +:+ nl
  +:+ "title: " +:+ dq +:+ Entry.Title e +:+ dq +:+ nl
  +:+ "date: " +:+ Date_String (Entry.Published e) +:+ nl
  +:+ "updated: " +:+ Date_String (Entry.Updated e)
  +:+ with_nonempty (Tags_TomlString (Entry.Tags e))
       (fun s => nl +:+ "tags: [" +:+ s +:+ "]")
  +:+ (if Entry.Draft e then nl +:+ "draft: true" else "")
  +:+ nl +:+ "blogimport: true "
  +:+ with_nonempty (Entry.Extra e) (fun s => nl +:+ s)
  +:+ nl +:+ "author: " +:+ dq +:+ Author.Name (Entry.Author e) +:+ dq +:+ nl
  +:+ "---" +:+ nl
  +:+ nl
  +:+ Entry.Content e +:+ nl.

(** [tomlTempl] executed on an entry.  The program declares this template
    and never parses or executes it; it is kept to compare the two
    front matters. *)
Definition tomlTempl (e : Entry.t) : string :=
  "+++" +:+ nl
  +:+ "title = " +:+ dq +:+ Entry.Title e +:+ dq
  +:+ (if String.eqb (Entry.Title e) (Entry.Slug e) then ""
      else nl +:+ "slug = " +:+ dq +:+ Entry.Slug e +:+ dq)
  +:+ nl +:+ "date = " +:+ Date_String (Entry.Published e) +:+ nl
  +:+ "updated = " +:+ Date_String (Entry.Updated e)
  +:+ with_nonempty (Tags_TomlString (Entry.Tags e))
       (fun s => nl +:+ "tags = [" +:+ s +:+ "]")
  +:+ (if Entry.Draft e then nl +:+ "draft = true" else "")
  +:+ match Entry.Comments e with
     | [] => ""
     | ids => nl +:+ "comments = [ " +:+ join ", " (map decimal ids) +:+ " ]"
     end
  +:+ nl +:+ "blogimport = true "
  +:+ with_nonempty (Entry.Extra e) (fun s => nl +:+ s)
  +:+ nl +:+ "[author]" +:+ nl
  +:+ String (ascii_of_nat 9) "name = " +:+ dq +:+ Author.Name (Entry.Author e) +:+ dq +:+ nl
  +:+ String (ascii_of_nat 9) "uri = " +:+ dq +:+ Author.Uri (Entry.Author e) +:+ dq +:+ nl
  +:+ "[author.image]" +:+ nl
  +:+ String (ascii_of_nat 9) "source = " +:+ dq
       +:+ Image.Source (Author.Image (Entry.Author e)) +:+ dq +:+ nl
  +:+ String (ascii_of_nat 9) "width = " +:+ dq
       +:+ decimal (Z.to_N (Image.Width (Author.Image (Entry.Author e)))) +:+ dq +:+ nl
  +:+ String (ascii_of_nat 9) "height = " +:+ dq
       +:+ decimal (Z.to_N (Image.Height (Author.Image (Entry.Author e)))) +:+ dq +:+ nl
  +:+ nl
  +:+ "+++" +:+ nl
  +:+ Entry.Content e +:+ nl.

(** [var t = template.Must(template.New("").Parse(yamlTempl))] *)
Definition t_Execute (e : Entry.t) : string := yamlTempl e.

(** ** Paths of the output files *)

(** [unicodeSanitize], on the ASCII range: letters, digits, dot, underscore
    and hyphen are kept. *)
Definition unicodeSanitize (s : string) : string :=
  filter_bytes
    (fun r => is_upper r || is_lower r || is_digit r
              || Ascii.eqb r "." || Ascii.eqb r "_" || Ascii.eqb r "-") s.

Definition makePath (d : Date) (s : string) : string :=
  take_bytes 10 (Date_String d) +:+ "-"
  +:+ unicodeSanitize
       (strings_ToLower (strings_ReplaceAll (strings_TrimSpace s) " " "-")).

Definition entryFilename (e : Entry.t) (dir : string) : string :=
  filepath_Join [dir; makePath (Entry.Published e) (Entry.Title e) +:+ ".md"].

Definition commentFilename (e : Entry.t) (dir : string) : string :=
  filepath_Join [path_Join [dir; "comments"]; "c" +:+ Entry.ID e +:+ ".toml"].

(** The entry [writeComment] renders: the title loses its line breaks. *)
Definition commentRecord (e : Entry.t) : Entry.t :=
  Entry.with_Title e
    (strings_ReplaceAll (strings_ReplaceAll (Entry.Title e) nl "") cr "").

(** ** Effects *)

(** What a run leaves behind, in order: lines on the standard output
    ([fmt.Println]), lines of the logger ([log.Printf]) and files created
    or truncated and filled with a rendered entry. *)
Inductive event : Type :=
| Println (line : string)
| LogPrintf (line : string)
| WriteFile (filename content : string).

(** [for _, v := range l { s = body(s, v) }] with early exit on failure. *)
Fixpoint for_each {S A : Type} (body : S -> A -> result S) (l : list A) (s : S)
  : result S :=
  match l with
  | [] => Ret s
  | v :: l' => s' ← body s v; for_each body l' s'
  end.

(** ** Pass 1: the table of identifiers *)

(** The scan for the first tag of the kind scheme: the entry is a template
    unless that tag names a comment or a post. *)
Fixpoint isTemplate (tags : list Tag.t) : bool :=
  match tags with
  | [] => false
  | tag :: rest =>
      if String.eqb (Tag.Scheme tag) kindScheme
      then negb (String.eqb (Tag.Name tag) kindComment
                 || String.eqb (Tag.Name tag) kindPost)
      else isTemplate rest
  end.

(** The id is cut down to what follows the last "post-"; the entry is
    registered under that text when it is a decimal [uint64]. *)
Definition resolveID (e : Entry.t) : Entry.t * option N * list event :=
  let index := strings_LastIndex (Entry.ID e) "post-" in
  if (0 <=? index)%Z then
    let id' := drop_bytes (Z.to_nat (index + 5)) (Entry.ID e) in
    let e' := Entry.with_ID e id' in
    match strconv_ParseUint id' with
    | (id, true) => (e', Some id, [])
    | (_, false) => (e', None, [Println ("Can't parse " +:+ id')])
    end
  else (e, None, []).

Definition resolveLink (e : Entry.t) (link : Reply.t) : Entry.t :=
  let rel := strings_ToLower (Reply.Rel link) in
  if String.eqb rel "related" then
    Entry.with_Reply e (fst (strconv_ParseUint (path_Base (Reply.Link link))))
  else if String.eqb rel "alternate" then e
  else if String.eqb rel "replies" then
    Entry.with_Slug e
      (strings_ReplaceAll (path_Base (Reply.Link link)) (path_Ext (Reply.Link link)) "")
  else e.

(** The body of the first loop of [main] for one entry: the entry as it is
    left in the table, the key it is registered under, if any, and what is
    printed. *)
Definition resolveEntry (e : Entry.t) : Entry.t * option N * list event :=
  if isTemplate (Entry.Tags e) then (e, None, [])
  else
    let '(e1, key, out) := resolveID e in
    (fold_left resolveLink (Entry.Links e) e1, key, out).

Definition register (k : nat) (key : option N) (postmap : gmap N nat) : gmap N nat :=
  match key with
  | Some id => <[id := k]> postmap
  | None => postmap
  end.

(** The first loop of [main] over the entries from index [k] on. *)
Fixpoint resolveFrom (k : nat) (es : list Entry.t) (postmap : gmap N nat)
  : list Entry.t * gmap N nat * list event :=
  match es with
  | [] => ([], postmap, [])
  | e :: rest =>
      let '(e', key, out) := resolveEntry e in
      let '(rest', postmap', out') := resolveFrom (S k) rest (register k key postmap) in
      (e' :: rest', postmap', out ++ out')
  end.

Definition resolveAll (es : list Entry.t) : list Entry.t * gmap N nat * list event :=
  resolveFrom 0 es ∅.

(** ** The three classifications the loops use *)

Definition isCommentTag (tag : Tag.t) : bool :=
  String.eqb (Tag.Name tag) kindComment && String.eqb (Tag.Scheme tag) kindScheme.

Definition isPostTag (tag : Tag.t) : bool :=
  String.eqb (Tag.Name tag) kindPost && String.eqb (Tag.Scheme tag) kindScheme.

(** The second loop treats an entry as a comment when some tag is the
    comment kind tag, the third as a post when some tag is the post kind
    tag. *)
Definition isComment (e : Entry.t) : bool := existsb isCommentTag (Entry.Tags e).
Definition isPost (e : Entry.t) : bool := existsb isPostTag (Entry.Tags e).

Section Program.

(** [sort.Sort] on a slice of indices under a comparison of elements. *)
Variable sort_Sort : (nat -> nat -> bool) -> list nat -> list nat.

(** Whether [os.OpenFile(filename, O_CREATE|O_TRUNC|O_WRONLY, 0644)] and the
    writes that follow succeed. *)
Variable os_OpenFile : string -> bool.

(** The [-extra] flag and the target directory. *)
Variable extra : string.
Variable dir : string.

(** *** Writing files *)

(** [writeEntry]: [None] is a returned error. *)
Definition writeEntry (e : Entry.t) : option event :=
  let filename := entryFilename e dir in
  if os_OpenFile filename then Some (WriteFile filename (t_Execute e)) else None.

(** [writeComment]: [None] is a returned error. *)
Definition writeComment (e : Entry.t) : option event :=
  let e' := commentRecord e in
  let filename := commentFilename e' dir in
  if os_OpenFile filename then Some (WriteFile filename (t_Execute e')) else None.

(** *** Pass 2: the comment tree *)

(** The parent number of a comment: the [Reply] field, else the last
    element of the in-reply-to source. *)
Definition parentOf (entry : Entry.t) : N :=
  if (Entry.Reply entry =? 0)%N
  then fst (strconv_ParseUint (path_Base (Reply.Source (Entry.Source entry))))
  else Entry.Reply entry.

Definition appendChild (k : nat) (e : Entry.t) : Entry.t :=
  Entry.with_Children e (Entry.Children e ++ [k]).

(** The body of the second loop for index [k].  The call of [writeComment]
    drops the error it returns. *)
Definition buildStep (postmap : gmap N nat) (st : list Entry.t * list event) (k : nat)
  : result (list Entry.t * list event) :=
  let '(tbl, trace) := st in
  match tbl !! k with
  | None => Panic "index out of range"
  | Some entry =>
      if isComment entry then
        let parent := parentOf entry in
        if (parent =? 0)%N then
          Ret (tbl, trace ++ [Println ("Skipping deleted comment " +:+ Entry.ID entry)])
        else
          match postmap !! parent with
          | Some i =>
              Ret (alter (appendChild k) i tbl,
                   trace ++ match writeComment entry with
                            | Some ev => [ev]
                            | None => []
                            end)
          | None => Panic (strconv_Itoa k +:+ " entry did not exist")
          end
      else Ret st
  end.

Definition build (postmap : gmap N nat) (st : list Entry.t * list event)
  : result (list Entry.t * list event) :=
  for_each (buildStep postmap) (seq 0 (length st.1)) st.

(** *** The flattening *)

Definition publishedOf (tbl : list Entry.t) (i : nat) : Date :=
  default zeroTime (Entry.Published <$> tbl !! i).

(** [EntrySet.Less], on the indices held at the two positions. *)
Definition EntrySet_Less (tbl : list Entry.t) (a b : nat) : bool :=
  Before (publishedOf tbl a) (publishedOf tbl b).

Definition childrenOf (tbl : list Entry.t) (i : nat) : list nat :=
  default [] (Entry.Children <$> tbl !! i).

(** [treeSort(i)]: the children of entry [i] are sorted in place, then each
    child is emitted, followed by its own flattening.  The table is
    threaded through, since every call sorts a list of the shared table.
    An index outside the table makes the program panic, in the comparison
    or in the recursive call. *)
Fixpoint treeSort (fuel : nat) (tbl : list Entry.t) (i : nat)
  : result (list Entry.t * list nat) :=
  match fuel with
  | O => OutOfFuel
  | S fuel' =>
      match tbl !! i with
      | None => Panic "index out of range"
      | Some e =>
          if forallb (fun v => v <? length tbl) (Entry.Children e) then
            let sorted := sort_Sort (EntrySet_Less tbl) (Entry.Children e) in
            for_each
              (fun '(tbl', list) v =>
                 '(tbl'', sub) ← treeSort fuel' tbl' v;
                 Ret (tbl'', list ++ v :: sub))
              sorted
              (<[i := Entry.with_Children e sorted]> tbl, [])
          else Panic "index out of range"
      end
  end.

(** *** Pass 3: the posts *)

(** The numbers of the flattened comments: the ids that are decimal
    numbers. *)
Definition commentIDs (tbl : list Entry.t) (flat : list nat) : list N :=
  omap (fun v =>
          match strconv_ParseUint (default "" (Entry.ID <$> tbl !! v)) with
          | (id, true) => Some id
          | (_, false) => None
          end) flat.

Record counters : Type := mkCounters { count : nat; drafts : nat }.

(** The entry handed to [writeEntry] for the post at index [k]. *)
Definition postRecord (entry : Entry.t) (tbl' : list Entry.t) (flat : list nat)
  : Entry.t :=
  Entry.with_Extra
    (Entry.with_Comments (Entry.with_Children entry flat)
       (Entry.Comments entry ++ commentIDs tbl' flat))
    extra.

Definition postStep (fuel : nat) (st : list Entry.t * list event * counters) (k : nat)
  : result (list Entry.t * list event * counters) :=
  let '(tbl, trace, c) := st in
  match tbl !! k with
  | None => Panic "index out of range"
  | Some entry =>
      if isPost entry then
        '(tbl', flat) ← treeSort fuel tbl k;
        let entry' := postRecord entry tbl' flat in
        match writeEntry entry' with
        | None =>
            Fatal ("Failed writing post " +:+ strconv_Quote (Entry.Title entry')
                   +:+ " to disk:")
        | Some ev =>
            Ret (tbl', trace ++ [ev],
                 if Entry.Draft entry' then mkCounters (count c) (S (drafts c))
                 else mkCounters (S (count c)) (drafts c))
        end
      else Ret st
  end.

Definition posts (fuel : nat) (st : list Entry.t * list event)
  : result (list Entry.t * list event * counters) :=
  for_each (postStep fuel) (seq 0 (length st.1)) (st, mkCounters 0 0).

(** *** The run *)

(** [main] from the decoded feed on: the final table and what the run left
    behind. *)
Definition main (fuel : nat) (feed : list Entry.t)
  : result (list Entry.t * list event) :=
  if (length feed <? 1)%nat then Fatal "No blog entries found!"
  else
    let '(tbl1, postmap, out1) := resolveAll feed in
    '(tbl2, trace2) ← build postmap (tbl1, out1);
    '(tbl3, trace3, c) ← posts fuel (tbl2, trace2);
    Ret (tbl3,
         trace3 ++
         [LogPrintf ("Wrote " +:+ strconv_Itoa (count c) +:+ " published posts to disk.");
          LogPrintf ("Wrote " +:+ strconv_Itoa (drafts c) +:+ " drafts to disk.")]).

End Program.

(** ** [EntrySet] as a [sort.Interface] *)

(** [EntrySet.Len] and [EntrySet.Swap]: the two elements change places; an
    index outside the slice makes the program panic. *)
Definition EntrySet_Len (s : list nat) : nat := length s.

Definition EntrySet_Swap (s : list nat) (i j : nat) : result (list nat) :=
  match s !! i, s !! j with
  | Some x, Some y => Ret (<[j := x]> (<[i := y]> s))
  | _, _ => Panic "index out of range"
  end.

(** ** Sorting routines *)

(** [insertionSort] of Go's [sort] package, on the list that the examined
    prefix of the slice holds, last element first: the new element moves
    towards the front while it is less than its neighbour. *)
Fixpoint sink (less : nat -> nat -> bool) (x : nat) (rprefix : list nat) : list nat :=
  match rprefix with
  | [] => [x]
  | y :: rest => if less x y then y :: sink less x rest else x :: rprefix
  end.

Definition insertionSort (less : nat -> nat -> bool) (l : list nat) : list nat :=
  reverse (fold_left (fun rprefix x => sink less x rprefix) l []).

(** [if data.Less(i, j) { data.Swap(i, j) }] *)
Definition swapIfLess (less : nat -> nat -> bool) (l : list nat) (i j : nat) : list nat :=
  match l !! i, l !! j with
  | Some x, Some y => if less x y then <[j := x]> (<[i := y]> l) else l
  | _, _ => l
  end.

(** One pass of Shell sort with gap 6 followed by insertion sort: the way
    Go's [sort.Sort] handled slices of at most twelve elements before it
    moved to pattern-defeating quicksort.  On longer lists it still sorts,
    by the insertion sort alone. *)
Definition gapSort (less : nat -> nat -> bool) (l : list nat) : list nat :=
  insertionSort less
    (fold_left (fun l' i => swapIfLess less l' i (i - 6)) (seq 6 (length l - 6)) l).

(** The contract of [sort.Sort]: the result holds the elements of the
    argument, in ascending order of the comparison; nothing is promised
    about elements that compare equal.  It is stated for comparisons of a
    key, which the comparison of publication times is. *)
Definition sort_contract (srt : (nat -> nat -> bool) -> list nat -> list nat) : Prop :=
  forall (key : nat -> Z) (l : list nat),
    srt (fun a b => (key a <? key b)%Z) l ≡ₚ l /\
    StronglySorted (fun a b => (key a <= key b)%Z) (srt (fun a b => (key a <? key b)%Z) l).

(** ** The comment tree as a graph *)

(** [j] is a child of [i]. *)
Definition child (tbl : list Entry.t) (i j : nat) : Prop := j ∈ childrenOf tbl i.

(** Every child index lies in the table. *)
Definition valid (tbl : list Entry.t) : Prop :=
  forall i j, child tbl i j -> j < length tbl.

(** No entry is its own descendant. *)
Definition acyclic (tbl : list Entry.t) : Prop :=
  forall i, ~ tc (child tbl) i i.

(** No index is listed twice, be it in one list of children or in two. *)
Definition single_parent (tbl : list Entry.t) : Prop :=
  (forall i, NoDup (childrenOf tbl i)) /\
  (forall i i' j, child tbl i j -> child tbl i' j -> i = i').

(** The publication instant of entry [a]. *)
Definition instant (tbl : list Entry.t) (a : nat) : Z := unix_nano (publishedOf tbl a).

(** No two children of one entry were published at the same instant. *)
Definition distinct_instants (tbl : list Entry.t) : Prop :=
  forall i a b, child tbl i a -> child tbl i b -> instant tbl a = instant tbl b -> a = b.

(** [out] is a pre-order, depth-first listing of the descendants of [i] in
    which the children of every entry come in ascending order of
    publication: the children [cs] of [i] in some ascending order, each
    followed by such a listing of its own descendants. *)
#[warnings="-register-all"]
Inductive flattens (tbl : list Entry.t) : nat -> list nat -> Prop :=
| flattens_node (i : nat) (cs : list nat) (subs : list (list nat)) :
    cs ≡ₚ childrenOf tbl i ->
    StronglySorted (fun a b => (instant tbl a <= instant tbl b)%Z) cs ->
    Forall2 (flattens tbl) cs subs ->
    flattens tbl i (concat (zip_with cons cs subs)).

(** The flattening in the words of the specification: the children are
    sorted by a stable sort, so that children published at the same
    instant keep the order in which they were attached. *)
Fixpoint specFlatten (fuel : nat) (tbl : list Entry.t) (i : nat) : option (list nat) :=
  match fuel with
  | O => None
  | S fuel' =>
      subs ← mapM (fun c => sub ← specFlatten fuel' tbl c; Some (c :: sub))
                  (insertionSort (EntrySet_Less tbl) (childrenOf tbl i));
      Some (concat subs)
  end.

(** Two tables that differ only in the order of the lists of children. *)
Definition same_tree (tbl' tbl : list Entry.t) : Prop :=
  Forall2 (fun e' e =>
             Entry.Children e' ≡ₚ Entry.Children e /\
             Entry.with_Children e' [] = Entry.with_Children e []) tbl' tbl.

(** ** Derived notions: the bytes of a string *)

Fixpoint all_bytes (f : ascii -> bool) (s : string) : bool :=
  match s with
  | EmptyString => true
  | String c s' => f c && all_bytes f s'
  end.

(** The range on which the byte-wise models of [strings.ToLower],
    [strings.TrimSpace] and [unicodeSanitize] are the functions. *)
Definition asciiByte (c : ascii) : bool := (nat_of_ascii c <? 128)%nat.

(** The bytes [unicodeSanitize] keeps, and those of them that are left
    once capitals are gone. *)
Definition keptByte (r : ascii) : bool :=
  is_upper r || is_lower r || is_digit r
  || Ascii.eqb r "." || Ascii.eqb r "_" || Ascii.eqb r "-".

Definition slugByte (r : ascii) : bool :=
  is_lower r || is_digit r || Ascii.eqb r "." || Ascii.eqb r "_" || Ascii.eqb r "-".

(** Neither a control character nor DEL. *)
Definition printableByte (c : ascii) : bool :=
  (32 <=? nat_of_ascii c)%nat && negb (nat_of_ascii c =? 127)%nat.

(** A line feed or a carriage return. *)
Definition lineBreak (c : ascii) : bool :=
  (nat_of_ascii c =? 10)%nat || (nat_of_ascii c =? 13)%nat.

Definition noSlash (c : ascii) : bool := negb (Ascii.eqb c "/").

(** A file name: not empty, not "." or "..", and without a slash. *)
Definition plainName (name : string) : Prop :=
  name <> "" /\ name <> "." /\ name <> ".." /\ all_bytes noSlash name = true.

Fixpoint zeros (k : nat) : string :=
  match k with
  | O => ""
  | S k' => String "0" (zeros k')
  end.


(** ** Derived notions: the first loop *)

(** The entry as the first loop leaves it, and the key it registers. *)
Definition resolved (e : Entry.t) : Entry.t := (resolveEntry e).1.1.
Definition keyOf (e : Entry.t) : option N := (resolveEntry e).1.2.

(** The id after the first loop: the text after the last "post-" of an
    entry that is not a template and has that marker, else the id of the
    feed. *)
Definition resolvedID (e : Entry.t) : string :=
  if isTemplate (Entry.Tags e) then Entry.ID e
  else
    let index := strings_LastIndex (Entry.ID e) "post-" in
    if (0 <=? index)%Z then drop_bytes (Z.to_nat (index + 5)) (Entry.ID e)
    else Entry.ID e.

(** An entry the first loop cannot register although its id has the
    marker: what follows the last "post-" is no decimal [uint64]. *)
Definition unparsable (e : Entry.t) : bool :=
  negb (isTemplate (Entry.Tags e))
  && (0 <=? strings_LastIndex (Entry.ID e) "post-")%Z
  && negb (snd (strconv_ParseUint (resolvedID e))).

(** Two entries that differ in their lists of children at most. *)
Definition same_fields (e' e : Entry.t) : Prop :=
  Entry.with_Children e' [] = Entry.with_Children e [].

Definition postmapOf (feed : list Entry.t) : gmap N nat := (resolveAll feed).1.2.
Definition notesOf (feed : list Entry.t) : list event := (resolveAll feed).2.

(** The parent number a link leaves, if it is a "related" link, and the
    slug it leaves, if it is a "replies" link. *)
Definition relatedNumber (link : Reply.t) : option N :=
  if String.eqb (strings_ToLower (Reply.Rel link)) "related"
  then Some (fst (strconv_ParseUint (path_Base (Reply.Link link))))
  else None.

Definition repliesSlug (link : Reply.t) : option string :=
  if String.eqb (strings_ToLower (Reply.Rel link)) "replies"
  then Some (strings_ReplaceAll (path_Base (Reply.Link link))
               (path_Ext (Reply.Link link)) "")
  else None.

(** ** Derived notions: the second loop *)

(** The four ways the second loop treats an entry. *)
Inductive verdict : Type :=
| NotComment
| Orphan
| Attach (i : nat)
| Dangling.

#[global] Instance verdict_eq_dec : EqDecision verdict.
Proof. solve_decision. Defined.

Definition verdictOf (postmap : gmap N nat) (e : Entry.t) : verdict :=
  if isComment e then
    if (parentOf e =? 0)%N then Orphan
    else match postmap !! parentOf e with
         | Some i => Attach i
         | None => Dangling
         end
  else NotComment.

Definition commentEvents (os_OpenFile : string -> bool) (dir : string) (e : Entry.t)
  : list event :=
  match writeComment os_OpenFile dir e with
  | Some ev => [ev]
  | None => []
  end.

(** What the second loop adds to the trace for one entry. *)
Definition stepEvents (os_OpenFile : string -> bool) (dir : string)
    (postmap : gmap N nat) (e : Entry.t) : list event :=
  match verdictOf postmap e with
  | NotComment => []
  | Orphan => [Println ("Skipping deleted comment " +:+ Entry.ID e)]
  | Attach _ => commentEvents os_OpenFile dir e
  | Dangling => []
  end.

(** The children an entry gains from the comments among [ks]. *)
Definition attached (postmap : gmap N nat) (tbl1 : list Entry.t) (i : nat)
    (ks : list nat) : list nat :=
  filter (fun k => (verdictOf postmap <$> tbl1 !! k) = Some (Attach i)) ks.

(** What the second loop adds to the trace for the entries [ks]. *)
Definition eventsOf (os_OpenFile : string -> bool) (dir : string)
    (postmap : gmap N nat) (tbl1 : list Entry.t) (ks : list nat) : list event :=
  concat (map (fun k => default [] (stepEvents os_OpenFile dir postmap <$> tbl1 !! k)) ks).

(** ** Derived notions: the third loop and the run *)

(** The file the third loop writes for a post: path and content are those
    of the entry with the text of the flag for its extra front matter. *)
Definition postEvent (extra dir : string) (e : Entry.t) : event :=
  WriteFile (entryFilename e dir) (t_Execute (Entry.with_Extra e extra)).

(** The posts among the entries at the indices [ks]. *)
Definition postsAmong (tbl : list Entry.t) (ks : list nat) : list Entry.t :=
  List.filter isPost (omap (fun k => tbl !! k) ks).

(** A post whose file cannot be opened. *)
Definition unwritable (os_OpenFile : string -> bool) (dir : string) (e : Entry.t) : bool :=
  isPost e && negb (os_OpenFile (entryFilename e dir)).

Definition isPublished (e : Entry.t) : bool := negb (Entry.Draft e).

(** No comment of the feed has a parent number that is not registered. *)
Definition no_dangling (feed : list Entry.t) : Prop :=
  forall k e, feed !! k = Some e ->
    verdictOf (postmapOf feed) (resolved e) <> Dangling.

(** Every attached comment stands after its parent in the feed. *)
Definition parents_first (feed : list Entry.t) : Prop :=
  forall k e i, feed !! k = Some e ->
    verdictOf (postmapOf feed) (resolved e) = Attach i -> i < k.

(** ** Derived notions: calls of [treeSort] *)

(** The three ways a call of [treeSort] on a table with the tree of [tbl0]
    can end: it returns a listing, it runs out of fuel along a descending
    path as long as the fuel, or it panics on an index outside the
    table. *)
Definition outcome (tbl0 : list Entry.t) (fuel i : nat)
    (r : result (list Entry.t * list nat)) : Prop :=
  (exists tbl' out, r = Ret (tbl', out) /\ same_tree tbl' tbl0 /\ flattens tbl0 i out)
  \/ (r = OutOfFuel /\
      exists path, length path = fuel /\ Sorted (child tbl0) (i :: path))
  \/ ((exists msg, r = Panic msg) /\ ~ (valid tbl0 /\ i < length tbl0)).

Definition validb (tbl : list Entry.t) : bool :=
  forallb (fun e => forallb (fun j => j <? length tbl) (Entry.Children e)) tbl.

(** [rank] puts every child strictly below its parent. *)
Definition rankedb (rank : list nat) (tbl : list Entry.t) : bool :=
  forallb (fun i => forallb (fun j => default 0 (rank !! j) <? default 0 (rank !! i))
                            (childrenOf tbl i))
          (seq 0 (length tbl)).

(** A table some of whose lists of children have been sorted by insertion
    sort. *)
Definition presorted (t tbl : list Entry.t) : Prop :=
  Forall2 (fun e' e =>
             same_fields e' e /\
             (Entry.Children e' = Entry.Children e \/
              Entry.Children e' = insertionSort (EntrySet_Less tbl) (Entry.Children e)))
          t tbl.

(** ** Concrete tables and feeds *)

(** A file system on which every file can be written. *)
Definition alwaysOpen (filename : string) : bool := true.

Definition mkEntry (id : string) (published : Date) (tags : list Tag.t)
    (links : list Reply.t) (children : list nat) : Entry.t :=
  Entry.mk id published zeroTime false "" "" tags
    (Author.mk "" "" (Image.mk 0 0 "")) (Reply.mk "" "" "") links 0 children [] "" "".

Definition at_second (s : Z) : Date := mkTime 2020 1 1 0 0 s 0 0.

Definition commentTag : Tag.t := Tag.mk kindComment kindScheme.
Definition postTag : Tag.t := Tag.mk kindPost kindScheme.
Definition templateTag : Tag.t :=
  Tag.mk "http://schemas.google.com/blogger/2008/kind#template" kindScheme.

(** An entry with seven children: the first six were published at the same
    second, the seventh before them. *)
Definition sevenChildren : list Entry.t :=
  [ mkEntry "p" (at_second 0) [] [] [1; 2; 3; 4; 5; 6; 7];
    mkEntry "a" (at_second 5) [] [] [];
    mkEntry "b" (at_second 5) [] [] [];
    mkEntry "c" (at_second 5) [] [] [];
    mkEntry "d" (at_second 5) [] [] [];
    mkEntry "e" (at_second 5) [] [] [];
    mkEntry "f" (at_second 5) [] [] [];
    mkEntry "g" (at_second 1) [] [] [] ].

(** An acyclic table in which entry 2 is a child of entry 0 and of
    entry 1. *)
Definition sharedChild : list Entry.t :=
  [ mkEntry "p" (at_second 0) [] [] [1; 2];
    mkEntry "a" (at_second 5) [] [] [2];
    mkEntry "b" (at_second 6) [] [] [] ].

(** An entry with three children, published at three instants and attached
    in another order. *)
Definition threeReplies : list Entry.t :=
  [ mkEntry "p" (at_second 0) [] [] [1; 2; 3];
    mkEntry "a" (at_second 7) [] [] [];
    mkEntry "b" (at_second 5) [] [] [];
    mkEntry "c" (at_second 6) [] [] [] ].

(** A comment whose id ends in "post-7" and whose "related" link names
    entry 7: it is registered under 7 and is its own parent. *)
Definition selfReply : list Entry.t :=
  [ mkEntry "tag:blogger.com,1999:blog-1.post-7" (at_second 0)
      [Tag.mk kindComment kindScheme]
      [Reply.mk "related" "http://example.blogspot.com/feeds/7" ""] [] ].

(** A comment on entry 9 in a feed that registers no entry 9. *)
Definition danglingReply : list Entry.t :=
  [ mkEntry "tag:blogger.com,1999:blog-1.c1" (at_second 0) [commentTag]
      [Reply.mk "related" "http://example.blogspot.com/feeds/9" ""] [] ].

(** A comment with neither a "related" link nor an in-reply-to source. *)
Definition orphanReply : list Entry.t :=
  [ mkEntry "tag:blogger.com,1999:blog-1.c1" (at_second 0) [commentTag] [] [] ].

(** A feed that holds a template and nothing else. *)
Definition templateOnly : list Entry.t :=
  [ mkEntry "tag:blogger.com,1999:blog-1.layout" (at_second 0) [templateTag] [] [] ].

Definition stamp (v : string) : Date := default zeroTime (Date_UnmarshalXML v).

Definition nobody : Author.t := Author.mk "Ann" "" (Image.mk 0 0 "").

(** The post of the scenarios of the specification. *)
Definition scenarioPost : Entry.t :=
  Entry.mk "tag:blogger.com,1999:blog-1.post-42"
    (stamp "2020-01-01T10:00:00.000-08:00") (stamp "2020-01-01T10:00:00.000-08:00")
    false "Hello World" "<p>First post</p>" [postTag] nobody
    (Reply.mk "" "" "") [] 0 [] [] "" "".

(** A comment on it whose id ends in ".c5". *)
Definition scenarioComment : Entry.t :=
  Entry.mk "tag:blogger.com,1999:blog-1.c5"
    (stamp "2020-01-02T09:30:00.000-08:00") (stamp "2020-01-02T09:30:00.000-08:00")
    false "Nice" "<p>Nice post</p>" [commentTag] nobody
    (Reply.mk "" "" "")
    [Reply.mk "related" "http://example.blogspot.com/feeds/1/posts/default/42" ""]
    0 [] [] "" "".

(** A comment on it with an id of the form Blogger gives to comments. *)
Definition bloggerComment : Entry.t :=
  Entry.mk "tag:blogger.com,1999:blog-1.post-77"
    (stamp "2020-01-02T09:30:00.000-08:00") (stamp "2020-01-02T09:30:00.000-08:00")
    false "Nice" "<p>Nice post</p>" [commentTag] nobody
    (Reply.mk "" "" "")
    [Reply.mk "related" "http://example.blogspot.com/feeds/1/posts/default/42" ""]
    0 [] [] "" "".

Definition scenarioFeed : list Entry.t := [scenarioPost; scenarioComment].
Definition bloggerFeed : list Entry.t := [scenarioPost; bloggerComment].

(** ** The library models on the examples of the Go documentation *)

(** [path.Clean]: the shortest equivalent path. *)
Example path_Clean_examples :
  map path_Clean ["a/c"; "a//c"; "a/c/."; "a/c/b/.."; "/../a/c";
                  "/../a/b/../././/c"; ""]
  = ["a/c"; "a/c"; "a/c"; "a/c"; "/a/c"; "/a/c"; "."].
Proof. reflexivity. Qed.

(** [path.Base] and [path.Ext]: the last element and its suffix. *)
Example path_Base_examples :
  map path_Base ["/a/b"; "/"; ""; "a/b/"] = ["b"; "/"; "."; "b"].
Proof. reflexivity. Qed.

Example path_Ext_examples :
  map path_Ext ["/a/b/c/bar.css"; "/"; ""; "a.b/c"] = [".css"; ""; ""; ""].
Proof. reflexivity. Qed.

(** [path.Join]: empty elements are dropped and the result is cleaned. *)
Example path_Join_examples :
  map path_Join [["a"; "b"; "c"]; ["a"; "b/c"]; ["a/b"; "c"];
                 ["a/b"; "../../../xyz"]; [""; ""]; ["a"; ""]; [""; "a"]]
  = ["a/b/c"; "a/b/c"; "a/b/c"; "../xyz"; ""; "a"; "a"].
Proof. reflexivity. Qed.

(** [strings.LastIndex], [strings.Replace] with n = -1, [strings.TrimSpace],
    [strings.ToLower] and [strings.Contains]. *)
Example strings_examples :
  strings_LastIndex "go gopher" "go" = 3%Z /\
  strings_LastIndex "go gopher" "rodent" = (-1)%Z /\
  strings_ReplaceAll "oink oink oink" "oink" "moo" = "moo moo moo" /\
  strings_TrimSpace "  Hello, Gophers  " = "Hello, Gophers" /\
  strings_ToLower "Gopher" = "gopher" /\
  strings_Contains "seafood" "foo" = true /\
  strings_Contains "seafood" "bar" = false /\
  strings_Contains "seafood" "" = true.
Proof. repeat split; reflexivity. Qed.

(** [strconv.ParseUint] in base 10 and 64 bits: no sign, no empty string; a
    value out of range is an error that carries the largest uint64. *)
Example strconv_ParseUint_examples :
  map strconv_ParseUint
    ["42"; "000"; ""; "-1"; "+1"; "4x"; "18446744073709551615";
     "18446744073709551616"]
  = [(42%N, true); (0%N, true); (0%N, false); (0%N, false); (0%N, false);
     (0%N, false); (maxUint64, true); (maxUint64, false)].
Proof. reflexivity. Qed.

(** [time.Parse] keeps the offset of the stamp, and the instant is the wall
    clock minus the offset: ten o'clock at -08:00 is 1577901600 seconds after
    the epoch. *)
Example time_Parse_example :
  time_Parse "2020-01-01T10:00:00.000-08:00"
  = Some (mkTime 2020 1 1 10 0 0 0 (-28800)) /\
  unix_nano (mkTime 2020 1 1 10 0 0 0 (-28800)) = 1577901600000000000%Z /\
  unix_nano (mkTime 1970 1 1 0 0 0 0 0) = 0%Z.
Proof. repeat split; reflexivity. Qed.

(** ** Facts about the sorting routines *)

Section SortingFacts.

Variable key : nat -> Z.

Let less (a b : nat) : bool := (key a <? key b)%Z.
Let descending (a b : nat) : Prop := (key b <= key a)%Z.
Let ascending (a b : nat) : Prop := (key a <= key b)%Z.

Lemma sink_perm (x : nat) (rprefix : list nat) :
  sink less x rprefix ≡ₚ x :: rprefix.
Proof.
  induction rprefix as [|y rest IH]; simpl; [done|].
  destruct (less x y); [|done].
  rewrite IH. apply Permutation_swap.
Qed.

Lemma sink_sorted (x : nat) (rprefix : list nat) :
  StronglySorted descending rprefix ->
  StronglySorted descending (sink less x rprefix).
Proof.
  induction rprefix as [|y rest IH]; simpl; intros Hs.
  - repeat constructor.
  - apply StronglySorted_inv in Hs as [Hrest Hy].
    destruct (less x y) eqn:Hxy; unfold less in Hxy.
    + constructor; [by apply IH|].
      rewrite sink_perm. constructor; [unfold descending; lia|done].
    + constructor; [by constructor|].
      constructor; [unfold descending; lia|].
      eapply Forall_impl; [exact Hy|]. unfold descending. intros; lia.
Qed.

Lemma sink_all_perm (l acc : list nat) :
  fold_left (fun rprefix x => sink less x rprefix) l acc ≡ₚ l ++ acc.
Proof.
  revert acc. induction l as [|x l IH]; intros acc; simpl; [done|].
  rewrite IH, sink_perm. by rewrite Permutation_middle.
Qed.

Lemma sink_all_sorted (l acc : list nat) :
  StronglySorted descending acc ->
  StronglySorted descending (fold_left (fun rprefix x => sink less x rprefix) l acc).
Proof.
  revert acc. induction l as [|x l IH]; intros acc Hacc; simpl; [done|].
  apply IH. by apply sink_sorted.
Qed.

Lemma descending_rev (l : list nat) :
  StronglySorted descending l -> StronglySorted ascending (reverse l).
Proof.
  induction 1 as [|a l Hl IH Ha]; [constructor|].
  rewrite reverse_cons.
  apply StronglySorted_app_2; [|done|repeat constructor].
  intros x1 x2 Hx1 Hx2. apply list_elem_of_singleton in Hx2 as ->.
  rewrite elem_of_reverse in Hx1.
  rewrite Forall_forall in Ha. by apply Ha.
Qed.

Lemma insertionSort_perm (l : list nat) : insertionSort less l ≡ₚ l.
Proof.
  unfold insertionSort. rewrite reverse_Permutation, sink_all_perm.
  by rewrite app_nil_r.
Qed.

Lemma insertionSort_sorted (l : list nat) :
  StronglySorted ascending (insertionSort less l).
Proof. apply descending_rev, sink_all_sorted. constructor. Qed.

Lemma swapIfLess_perm (l : list nat) (i j : nat) : swapIfLess less l i j ≡ₚ l.
Proof.
  unfold swapIfLess.
  destruct (l !! i) as [x|] eqn:Hi; [|done].
  destruct (l !! j) as [y|] eqn:Hj; [|done].
  destruct (less x y); [|done].
  by apply Permutation_insert_swap.
Qed.

Lemma gap_pass_perm (js : list nat) (l : list nat) :
  fold_left (fun l' i => swapIfLess less l' i (i - 6)) js l ≡ₚ l.
Proof.
  revert l. induction js as [|j js IH]; intros l; simpl; [done|].
  by rewrite IH, swapIfLess_perm.
Qed.

End SortingFacts.

(** Insertion sort meets the contract of [sort.Sort]. *)
Lemma insertionSort_contract : sort_contract insertionSort.
Proof.
  intros key l. split; [apply insertionSort_perm|apply insertionSort_sorted].
Qed.

(** So does the gap pass followed by insertion sort. *)
Lemma gapSort_contract : sort_contract gapSort.
Proof.
  intros key l. unfold gapSort. split.
  - by rewrite insertionSort_perm, gap_pass_perm.
  - apply insertionSort_sorted.
Qed.

(** ** Facts about tables that differ in the order of children *)

Lemma same_tree_refl (tbl : list Entry.t) : same_tree tbl tbl.
Proof. apply Forall_Forall2_diag, Forall_forall. intros e _. by split. Qed.

Lemma same_tree_length (tbl tbl0 : list Entry.t) :
  same_tree tbl tbl0 -> length tbl = length tbl0.
Proof. apply Forall2_length. Qed.

Lemma same_tree_lookup (tbl tbl0 : list Entry.t) (i : nat) (e : Entry.t) :
  same_tree tbl tbl0 -> tbl !! i = Some e ->
  exists e0, tbl0 !! i = Some e0 /\ Entry.Children e ≡ₚ Entry.Children e0 /\
             Entry.with_Children e [] = Entry.with_Children e0 [].
Proof.
  intros Hs He. destruct (Forall2_lookup_l _ _ _ _ _ Hs He) as (e0 & He0 & HP).
  by exists e0.
Qed.

Lemma same_tree_children (tbl tbl0 : list Entry.t) (i : nat) :
  same_tree tbl tbl0 -> childrenOf tbl i ≡ₚ childrenOf tbl0 i.
Proof.
  intros Hs. unfold childrenOf.
  destruct (tbl !! i) as [e|] eqn:He.
  - destruct (same_tree_lookup _ _ _ _ Hs He) as (e0 & -> & Hp & _). done.
  - apply lookup_ge_None in He. rewrite (same_tree_length _ _ Hs) in He.
    apply lookup_ge_None in He. by rewrite He.
Qed.

Lemma same_tree_published (tbl tbl0 : list Entry.t) (i : nat) :
  same_tree tbl tbl0 -> publishedOf tbl i = publishedOf tbl0 i.
Proof.
  intros Hs. unfold publishedOf.
  destruct (tbl !! i) as [e|] eqn:He.
  - destruct (same_tree_lookup _ _ _ _ Hs He) as (e0 & -> & _ & Heq).
    simpl. by apply (f_equal Entry.Published) in Heq.
  - apply lookup_ge_None in He. rewrite (same_tree_length _ _ Hs) in He.
    apply lookup_ge_None in He. by rewrite He.
Qed.

Lemma same_tree_instant (tbl tbl0 : list Entry.t) (i : nat) :
  same_tree tbl tbl0 -> instant tbl i = instant tbl0 i.
Proof. intros Hs. unfold instant. by rewrite (same_tree_published _ _ _ Hs). Qed.

Lemma same_tree_insert (tbl tbl0 : list Entry.t) (i : nat) (e : Entry.t) (cs : list nat) :
  same_tree tbl tbl0 -> tbl !! i = Some e -> cs ≡ₚ Entry.Children e ->
  same_tree (<[i := Entry.with_Children e cs]> tbl) tbl0.
Proof.
  intros Hs He Hcs.
  destruct (same_tree_lookup _ _ _ _ Hs He) as (e0 & He0 & Hp & Heq).
  rewrite <- (list_insert_id tbl0 i e0 He0).
  apply Forall2_insert; [done|]. split; simpl; [by rewrite Hcs|done].
Qed.

Lemma StronglySorted_weaken {A : Type} (R R' : A -> A -> Prop) (l : list A) :
  (forall a b, R a b -> R' a b) -> StronglySorted R l -> StronglySorted R' l.
Proof.
  intros HR. induction 1 as [|a l Hl IH Ha]; constructor; [done|].
  eapply Forall_impl; [exact Ha|]. auto.
Qed.

(** ** Descending paths *)

Lemma path_tc {A : Type} (R : relation A) (l : list A) (x y : A) :
  Sorted R (x :: l) -> y ∈ l -> tc R x y.
Proof.
  revert x. induction l as [|z l IH]; intros x Hs Hy; [by apply elem_of_nil in Hy|].
  apply Sorted_inv in Hs as [Hs Hhd]. apply HdRel_inv in Hhd.
  apply elem_of_cons in Hy as [->|Hy]; [by apply tc_once|].
  eapply tc_l; [exact Hhd|]. by apply IH.
Qed.

Lemma path_NoDup {A : Type} (R : relation A) (l : list A) :
  (forall x, ~ tc R x x) -> Sorted R l -> NoDup l.
Proof.
  intros Hirr. induction l as [|x l IH]; intros Hs; [constructor|].
  constructor.
  - intros Hx. apply (Hirr x). by eapply path_tc.
  - apply IH. by apply Sorted_inv in Hs as [Hs _].
Qed.

Lemma path_in_table (tbl : list Entry.t) (l : list nat) (x : nat) :
  valid tbl -> Sorted (child tbl) (x :: l) -> Forall (fun y => y < length tbl) l.
Proof.
  intros Hv. revert x. induction l as [|z l IH]; intros x Hs; [constructor|].
  apply Sorted_inv in Hs as [Hs Hhd]. apply HdRel_inv in Hhd.
  constructor; [by eapply Hv|by eapply IH].
Qed.

(** A descending path of an acyclic table visits fewer entries than the
    table holds. *)
Lemma path_short (tbl : list Entry.t) (l : list nat) (x : nat) :
  valid tbl -> acyclic tbl -> x < length tbl ->
  Sorted (child tbl) (x :: l) -> length l < length tbl.
Proof.
  intros Hv Ha Hx Hs.
  assert (Hnd : NoDup (x :: l)) by (by eapply path_NoDup).
  assert (Hin : Forall (fun y => y < length tbl) (x :: l)).
  { constructor; [done|by eapply path_in_table]. }
  assert (Hsub : (x :: l) ⊆+ seq 0 (length tbl)).
  { apply NoDup_submseteq; [done|]. intros y Hy.
    rewrite Forall_forall in Hin. apply elem_of_seq. specialize (Hin y Hy). lia. }
  apply submseteq_length in Hsub. rewrite length_seq in Hsub. simpl in Hsub. lia.
Qed.

(** ** What a call of [treeSort] can do *)

Section TreeSortFacts.

Variable srt : (nat -> nat -> bool) -> list nat -> list nat.
Hypothesis srt_ok : sort_contract srt.
Variable tbl0 : list Entry.t.

Lemma treeSort_loop (fuel : nat) (rec : list Entry.t -> nat -> result (list Entry.t * list nat)) :
  (forall tbl v, same_tree tbl tbl0 -> outcome tbl0 fuel v (rec tbl v)) ->
  forall (cs : list nat) (tbl : list Entry.t) (acc : list nat),
    same_tree tbl tbl0 ->
    Forall (fun v => v < length tbl0) cs ->
    let r := for_each (fun '(tbl', list) v =>
                         '(tbl'', sub) ← rec tbl' v; Ret (tbl'', list ++ v :: sub))
                      cs (tbl, acc) in
    (exists tbl' subs, r = Ret (tbl', acc ++ concat (zip_with cons cs subs)) /\
                       same_tree tbl' tbl0 /\ Forall2 (flattens tbl0) cs subs)
    \/ (r = OutOfFuel /\
        exists v path, v ∈ cs /\ length path = fuel /\ Sorted (child tbl0) (v :: path))
    \/ ((exists msg, r = Panic msg) /\ ~ valid tbl0).
Proof.
  intros Hrec. induction cs as [|v cs IH]; intros tbl acc Hs Hcs; simpl.
  - left. exists tbl, []. simpl. rewrite app_nil_r. by repeat split.
  - apply Forall_cons in Hcs as [Hv Hcs].
    destruct (Hrec tbl v Hs) as [(tbl' & sub & -> & Hs' & Hfl)|[[-> Hpath]|[[msg ->] Hbad]]];
      simpl.
    + destruct (IH tbl' (acc ++ v :: sub) Hs' Hcs)
        as [(tbl'' & subs & -> & Hs'' & Hfls)|[[-> Hpath]|[[msg ->] Hbad]]].
      * left. exists tbl'', (sub :: subs). simpl. rewrite <- app_assoc.
        split; [done|]. split; [done|]. by constructor.
      * right; left. split; [done|].
        destruct Hpath as (v' & path & Hv' & Hlen & Hp).
        exists v', path. split; [by apply elem_of_cons; right|done].
      * right; right. split; [by exists msg|done].
    + right; left. split; [done|].
      destruct Hpath as (path & Hlen & Hp).
      exists v, path. split; [by apply elem_of_cons; left|done].
    + right; right. split; [by exists msg|]. intros Hvalid. by apply Hbad.
Qed.

Lemma treeSort_outcome (fuel : nat) :
  forall (tbl : list Entry.t) (i : nat),
    same_tree tbl tbl0 -> outcome tbl0 fuel i (treeSort srt fuel tbl i).
Proof.
  induction fuel as [|fuel IH]; intros tbl i Hs.
  - right; left. split; [done|]. exists []. split; [done|]. repeat constructor.
  - simpl. pose proof (same_tree_length _ _ Hs) as Hlen.
    destruct (tbl !! i) as [e|] eqn:He.
    2:{ right; right. split; [by eexists|]. intros [_ Hi].
        apply lookup_ge_None in He. lia. }
    assert (Hch : Entry.Children e ≡ₚ childrenOf tbl0 i).
    { rewrite <- (same_tree_children _ _ i Hs). unfold childrenOf. by rewrite He. }
    destruct (forallb _ (Entry.Children e)) eqn:Hall.
    2:{ right; right. split; [by eexists|]. intros [Hvalid _].
        apply not_true_iff_false in Hall. apply Hall.
        apply forallb_forall. intros v Hv. apply Nat.ltb_lt. rewrite Hlen.
        apply (Hvalid i). unfold child. rewrite <- Hch. by apply list_elem_of_In. }
    destruct (srt_ok (instant tbl) (Entry.Children e)) as [Hperm Hsorted].
    change (fun a b => (instant tbl a <? instant tbl b)%Z) with (EntrySet_Less tbl)
      in Hperm, Hsorted.
    set (sorted := srt (EntrySet_Less tbl) (Entry.Children e)) in *.
    assert (Hin : Forall (fun v => v < length tbl0) sorted).
    { apply Forall_forall. intros v Hv. rewrite Hperm in Hv.
      rewrite forallb_forall in Hall. rewrite <- Hlen. apply Nat.ltb_lt.
      apply Hall. by apply list_elem_of_In. }
    destruct (treeSort_loop fuel (treeSort srt fuel) IH sorted
                (<[i := Entry.with_Children e sorted]> tbl) []
                (same_tree_insert _ _ _ _ _ Hs He Hperm) Hin)
      as [(tbl' & subs & Hr & Hs' & Hfls)|[[Hr Hpath]|[[msg Hr] Hbad]]].
    + left. exists tbl', (concat (zip_with cons sorted subs)).
      split; [exact Hr|]. split; [done|].
      constructor; [by rewrite Hperm| |done].
      eapply StronglySorted_weaken; [|exact Hsorted].
      intros a b Hab. by rewrite <- !(same_tree_instant _ _ _ Hs).
    + right; left. split; [exact Hr|].
      destruct Hpath as (v & path & Hv & Hplen & Hp).
      exists (v :: path). split; [simpl; by rewrite Hplen|].
      constructor; [done|]. constructor. unfold child. by rewrite <- Hch, <- Hperm.
    + right; right. split; [by exists msg|]. intros [Hvalid _]. by apply Hbad.
Qed.

(** A returned listing is a sorted pre-order flattening, and the table is
    left with the same tree. *)
Lemma treeSort_returns (fuel : nat) (i : nat) (tbl' : list Entry.t) (out : list nat) :
  treeSort srt fuel tbl0 i = Ret (tbl', out) ->
  same_tree tbl' tbl0 /\ flattens tbl0 i out.
Proof.
  intros Hr.
  destruct (treeSort_outcome fuel tbl0 i (same_tree_refl tbl0))
    as [(t & o & Hr' & Hs & Hfl)|[[Hr' _]|[[msg Hr'] _]]]; rewrite Hr in Hr'; [|done..].
  by injection Hr' as -> ->.
Qed.

(** On a valid, acyclic table the fuel [length tbl0] is enough. *)
Lemma treeSort_terminates (i : nat) :
  valid tbl0 -> acyclic tbl0 -> i < length tbl0 ->
  exists tbl' out, treeSort srt (length tbl0) tbl0 i = Ret (tbl', out).
Proof.
  intros Hv Ha Hi.
  destruct (treeSort_outcome (length tbl0) tbl0 i (same_tree_refl tbl0))
    as [(t & o & Hr' & _)|[[_ Hpath]|[_ Hbad]]].
  - by exists t, o.
  - destruct Hpath as (path & Hlen & Hp).
    pose proof (path_short _ _ _ Hv Ha Hi Hp). lia.
  - by destruct Hbad.
Qed.

End TreeSortFacts.

(** ** Facts about listings *)

(** Induction on a listing, with the induction hypothesis for the listings
    of the children. *)
Lemma flattens_ind_strong (tbl : list Entry.t) (P : nat -> list nat -> Prop) :
  (forall i cs subs,
      cs ≡ₚ childrenOf tbl i ->
      StronglySorted (fun a b => (instant tbl a <= instant tbl b)%Z) cs ->
      Forall2 (flattens tbl) cs subs ->
      Forall2 P cs subs ->
      P i (concat (zip_with cons cs subs))) ->
  forall i out, flattens tbl i out -> P i out.
Proof.
  intros Hstep. fix IH 3. intros i out [i' cs subs Hp Hs Hf].
  apply Hstep; [done..|]. clear Hp Hs.
  induction Hf as [|c sub cs' subs' Hc _ IHf]; [constructor|].
  constructor; [by apply IH|done].
Qed.

(** An element of the listing lies in the block of some child. *)
Lemma elem_of_blocks {P : nat -> list nat -> Prop} (cs : list nat)
    (subs : list (list nat)) (j : nat) :
  Forall2 P cs subs ->
  j ∈ concat (zip_with cons cs subs) ->
  exists c sub, c ∈ cs /\ P c sub /\ j ∈ c :: sub.
Proof.
  induction 1 as [|c sub cs' subs' Hc _ IH]; simpl; intros Hj.
  - by apply elem_of_nil in Hj.
  - change (j ∈ (c :: sub) ++ concat (zip_with cons cs' subs')) in Hj.
    apply elem_of_app in Hj as [Hj|Hj].
    + exists c, sub. split; [by left|done].
    + destruct (IH Hj) as (c' & sub' & Hc' & HP & Hj').
      exists c', sub'. split; [by right|done].
Qed.

(** The block of every child lies in the listing. *)
Lemma blocks_elem_of {P : nat -> list nat -> Prop} (cs : list nat)
    (subs : list (list nat)) (c : nat) :
  Forall2 P cs subs -> c ∈ cs ->
  exists sub, P c sub /\ forall j, j ∈ c :: sub -> j ∈ concat (zip_with cons cs subs).
Proof.
  induction 1 as [|c' sub cs' subs' Hc _ IH]; intros Hin.
  - by apply elem_of_nil in Hin.
  - apply elem_of_cons in Hin as [->|Hin].
    + exists sub. split; [done|]. intros j Hj.
      change (j ∈ (c' :: sub) ++ concat (zip_with cons cs' subs')).
      apply elem_of_app. by left.
    + destruct (IH Hin) as (sub' & HP & Hsub). exists sub'. split; [done|].
      intros j Hj.
      change (j ∈ (c' :: sub) ++ concat (zip_with cons cs' subs')).
      apply elem_of_app. right. by apply Hsub.
Qed.

(** Every listed index is a descendant. *)
Lemma flattens_descendant (tbl : list Entry.t) (i : nat) (out : list nat) :
  flattens tbl i out -> forall j, j ∈ out -> tc (child tbl) i j.
Proof.
  induction 1 as [i cs subs Hp Hs Hf IH] using flattens_ind_strong.
  intros j Hj.
  destruct (elem_of_blocks _ _ _ IH Hj) as (c & sub & Hc & HP & Hjc).
  assert (Hic : child tbl i c) by (unfold child; by rewrite <- Hp).
  apply elem_of_cons in Hjc as [->|Hjc]; [by apply tc_once|].
  eapply tc_l; [exact Hic|]. by apply HP.
Qed.

(** Every descendant is listed. *)
Lemma flattens_complete (tbl : list Entry.t) (i j : nat) :
  tc (child tbl) i j -> forall out, flattens tbl i out -> j ∈ out.
Proof.
  induction 1 as [i j Hij|i y j Hiy Hyj IH]; intros out Hfl;
    destruct Hfl as [i cs subs Hp Hs Hf].
  - assert (Hc : j ∈ cs) by (by rewrite Hp).
    destruct (blocks_elem_of _ _ _ Hf Hc) as (sub & _ & Hsub).
    apply Hsub. by left.
  - assert (Hc : y ∈ cs) by (by rewrite Hp).
    destruct (blocks_elem_of _ _ _ Hf Hc) as (sub & Hy & Hsub).
    apply Hsub. right. by apply IH.
Qed.

(** In a table where every index has one parent at most, two ancestors of
    an entry lie on one line of descent. *)
Lemma ancestors_comparable (tbl : list Entry.t) (c x : nat) :
  single_parent tbl ->
  rtc (child tbl) c x ->
  forall c', rtc (child tbl) c' x -> rtc (child tbl) c c' \/ rtc (child tbl) c' c.
Proof.
  intros [_ Hsp] Hcx. revert x Hcx.
  apply (rtc_ind_r (fun x => forall c', rtc (child tbl) c' x ->
                               rtc (child tbl) c c' \/ rtc (child tbl) c' c)).
  - intros c' Hc'. by right.
  - intros y z Hcy Hyz IH c' Hc'.
    apply rtc_inv_r in Hc' as [->|(y' & Hc'y & Hy'z)].
    + left. by eapply rtc_r.
    + rewrite (Hsp _ _ _ Hy'z Hyz) in Hc'y. by apply IH.
Qed.

(** The families of two different children of one entry are disjoint. *)
Lemma siblings_disjoint (tbl : list Entry.t) (i c c' x : nat) :
  single_parent tbl -> acyclic tbl ->
  child tbl i c -> child tbl i c' -> c <> c' ->
  rtc (child tbl) c x -> rtc (child tbl) c' x -> False.
Proof.
  intros Hsp Ha Hic Hic' Hne Hcx Hc'x.
  assert (Hone : forall a b, child tbl i a -> child tbl i b -> a <> b ->
                             rtc (child tbl) a b -> False).
  { intros a b Hia Hib Hab Hr.
    apply rtc_inv_r in Hr as [->|(p & Hap & Hpb)]; [done|].
    destruct Hsp as [_ Hsp]. rewrite (Hsp _ _ _ Hpb Hib) in Hap.
    apply (Ha i). apply (tc_rtc_r i a i); [by apply tc_once|done]. }
  destruct (ancestors_comparable _ _ _ Hsp Hcx c' Hc'x) as [Hr|Hr].
  - by apply (Hone c c').
  - by apply (Hone c' c).
Qed.

(** In an acyclic table where every index has one parent at most, no index
    is listed twice. *)
Lemma flattens_NoDup (tbl : list Entry.t) (i : nat) (out : list nat) :
  single_parent tbl -> acyclic tbl -> flattens tbl i out -> NoDup out.
Proof.
  intros Hsp Ha.
  induction 1 as [i cs subs Hp Hs Hf IH] using flattens_ind_strong.
  assert (Hcs : NoDup cs) by (rewrite Hp; apply Hsp).
  assert (Hch : forall c, c ∈ cs -> child tbl i c).
  { intros c Hc. unfold child. by rewrite <- Hp. }
  clear Hp Hs. revert Hcs Hch.
  induction IH as [|c sub cs' subs' Hsub Hrest IHrest]; intros Hcs Hch; [constructor|].
  apply Forall2_cons in Hf as [Hfc Hf].
  apply NoDup_cons in Hcs as [Hc Hcs].
  change (NoDup ((c :: sub) ++ concat (zip_with cons cs' subs'))).
  apply NoDup_app. split; [|split].
  - constructor; [|done].
    intros Hin. apply (Ha c). by eapply flattens_descendant.
  - intros x Hx Hx'.
    destruct (elem_of_blocks _ _ _ Hf Hx') as (c' & sub' & Hc' & Hfc' & Hxc').
    apply (siblings_disjoint tbl i c c' x Hsp Ha).
    + apply Hch. by left.
    + apply Hch. by right.
    + intros ->. done.
    + apply elem_of_cons in Hx as [->|Hx]; [done|].
      apply tc_rtc. by eapply flattens_descendant.
    + apply elem_of_cons in Hxc' as [->|Hxc']; [done|].
      apply tc_rtc. by eapply flattens_descendant.
  - apply IHrest; [done..|]. intros c' Hc'. apply Hch. by right.
Qed.

(** More fuel does not change a returned listing. *)
Lemma for_each_ext {S A : Type} (f g : S -> A -> result S) (l : list A) (s s' : S) :
  (forall s0 v r, f s0 v = Ret r -> g s0 v = Ret r) ->
  for_each f l s = Ret s' -> for_each g l s = Ret s'.
Proof.
  intros Hfg. revert s. induction l as [|v l IH]; intros s; simpl; [done|].
  destruct (f s v) as [s1| | |] eqn:Hf; simpl; try done.
  rewrite (Hfg _ _ _ Hf). simpl. apply IH.
Qed.

Lemma treeSort_fuel_mono (srt : (nat -> nat -> bool) -> list nat -> list nat)
    (fuel fuel' : nat) (tbl : list Entry.t) (i : nat) (r : list Entry.t * list nat) :
  fuel <= fuel' ->
  treeSort srt fuel tbl i = Ret r -> treeSort srt fuel' tbl i = Ret r.
Proof.
  revert fuel' tbl i r. induction fuel as [|fuel IH]; intros fuel' tbl i r Hle; [done|].
  destruct fuel' as [|fuel']; [lia|]. simpl.
  destruct (tbl !! i) as [e|]; [|done].
  destruct (forallb _ _); [|done].
  apply for_each_ext. intros [t acc] v r'.
  destruct (treeSort srt fuel t v) as [[t' sub]| | |] eqn:Hc; simpl; try done.
  rewrite (IH fuel' t v (t', sub)); [done|lia|done].
Qed.

(** A listing from [i] shows that [i] lies on no cycle. *)
Lemma flattens_no_cycle (tbl : list Entry.t) (i : nat) (out : list nat) :
  flattens tbl i out -> ~ tc (child tbl) i i.
Proof.
  induction 1 as [i cs subs Hp Hs Hf IH] using flattens_ind_strong.
  intros Hcyc.
  assert (Hstep : exists c, child tbl i c /\ rtc (child tbl) c i).
  { inversion Hcyc as [? ? Hc|? c ? Hc Hci]; subst.
    - exists i. split; [done|]. apply rtc_refl.
    - exists c. split; [done|]. by apply tc_rtc. }
  destruct Hstep as (c & Hic & Hci).
  assert (Hc : c ∈ cs) by (by rewrite Hp).
  destruct (blocks_elem_of _ _ _ IH Hc) as (sub & Hno & _).
  apply Hno. eapply tc_rtc_l; [exact Hci|]. by apply tc_once.
Qed.

(** On a cycle of a valid table [treeSort] never returns. *)
Lemma treeSort_diverges (srt : (nat -> nat -> bool) -> list nat -> list nat)
    (tbl : list Entry.t) (i : nat) :
  sort_contract srt -> valid tbl -> i < length tbl -> tc (child tbl) i i ->
  forall fuel, treeSort srt fuel tbl i = OutOfFuel.
Proof.
  intros Hsrt Hv Hi Hcyc fuel.
  destruct (treeSort_outcome srt Hsrt tbl fuel tbl i (same_tree_refl tbl))
    as [(t & o & _ & _ & Hfl)|[[Hr _]|[_ Hbad]]].
  - by apply flattens_no_cycle in Hfl.
  - done.
  - by destruct Hbad.
Qed.

(** ** Checking a concrete table *)

Lemma child_inv (tbl : list Entry.t) (i j : nat) :
  child tbl i j -> exists e, tbl !! i = Some e /\ j ∈ Entry.Children e.
Proof.
  unfold child, childrenOf. destruct (tbl !! i) as [e|]; simpl; intros Hj.
  - by exists e.
  - by apply elem_of_nil in Hj.
Qed.

Lemma validb_valid (tbl : list Entry.t) : validb tbl = true -> valid tbl.
Proof.
  unfold validb. rewrite forallb_forall. intros Hall i j Hij.
  destruct (child_inv _ _ _ Hij) as (e & He & Hj).
  apply list_elem_of_lookup_2, list_elem_of_In in He. specialize (Hall e He).
  rewrite forallb_forall in Hall. apply Nat.ltb_lt, Hall. by apply list_elem_of_In.
Qed.

Lemma rankedb_acyclic (rank : list nat) (tbl : list Entry.t) :
  rankedb rank tbl = true -> acyclic tbl.
Proof.
  unfold rankedb. rewrite forallb_forall. intros Hall.
  assert (Hstep : forall i j, child tbl i j ->
                              default 0 (rank !! j) < default 0 (rank !! i)).
  { intros i j Hij. destruct (child_inv _ _ _ Hij) as (e & He & Hj).
    assert (Hi : In i (seq 0 (length tbl))).
    { apply in_seq. apply lookup_lt_Some in He. lia. }
    specialize (Hall i Hi). rewrite forallb_forall in Hall.
    apply Nat.ltb_lt, Hall. by apply list_elem_of_In. }
  assert (Htc : forall i j, tc (child tbl) i j ->
                            default 0 (rank !! j) < default 0 (rank !! i)).
  { induction 1 as [i j Hij|i y j Hiy _ IH]; [by apply Hstep|].
    specialize (Hstep _ _ Hiy). lia. }
  intros i Hi. specialize (Htc _ _ Hi). lia.
Qed.

(** ** With a stable sorting routine

    Insertion sort is stable, and with it [treeSort] returns the
    flattening of the specification. *)

Section Stable.
Variable key : nat -> Z.
Let less (a b : nat) : bool := (key a <? key b)%Z.

Lemma sink_stable (z : Z) (x : nat) (rprefix : list nat) :
  filter (fun a => key a = z) (sink less x rprefix)
  = filter (fun a => key a = z) (x :: rprefix).
Proof.
  induction rprefix as [|y rest IH]; simpl; [done|].
  destruct (less x y) eqn:Hxy; [|done]. unfold less in Hxy. apply Z.ltb_lt in Hxy.
  rewrite filter_cons, IH, !filter_cons.
  destruct (decide (key y = z)) as [Hy|Hy]; destruct (decide (key x = z)) as [Hx|Hx];
    try done. lia.
Qed.

Lemma sink_all_stable (z : Z) (l acc : list nat) :
  filter (fun a => key a = z) (fold_left (fun rprefix x => sink less x rprefix) l acc)
  = filter (fun a => key a = z) (reverse l ++ acc).
Proof.
  revert acc. induction l as [|x l IH]; intros acc; simpl; [done|].
  rewrite IH, reverse_cons, <- app_assoc. simpl.
  by rewrite !filter_app, sink_stable.
Qed.

(** The elements of one key keep their order. *)
Lemma insertionSort_stable (z : Z) (l : list nat) :
  filter (fun a => key a = z) (insertionSort less l) = filter (fun a => key a = z) l.
Proof.
  unfold insertionSort.
  rewrite filter_reverse, sink_all_stable, app_nil_r, <- filter_reverse.
  by rewrite reverse_involutive.
Qed.
End Stable.

Lemma sink_ext (f g : nat -> nat -> bool) (x : nat) (rprefix : list nat) :
  (forall a b, f a b = g a b) -> sink f x rprefix = sink g x rprefix.
Proof.
  intros Hfg. induction rprefix as [|y rest IH]; simpl; [done|].
  by rewrite Hfg, IH.
Qed.

Lemma insertionSort_ext (f g : nat -> nat -> bool) (l : list nat) :
  (forall a b, f a b = g a b) -> insertionSort f l = insertionSort g l.
Proof.
  intros Hfg. unfold insertionSort. f_equal. generalize (@nil nat).
  induction l as [|x l IH]; intros acc; simpl; [done|].
  by rewrite (sink_ext f g _ _ Hfg), IH.
Qed.

Lemma sink_all_sorted_id (key : nat -> Z) (l acc : list nat) :
  StronglySorted (fun a b => (key a <= key b)%Z) (reverse acc ++ l) ->
  fold_left (fun rprefix x => sink (fun a b => (key a <? key b)%Z) x rprefix) l acc
  = reverse l ++ acc.
Proof.
  revert acc. induction l as [|x l IH]; intros acc Hs; simpl; [done|].
  assert (Hsink : sink (fun a b => (key a <? key b)%Z) x acc = x :: acc).
  { destruct acc as [|y acc]; simpl; [done|].
    assert (Hyx : (key y <= key x)%Z).
    { eapply (StronglySorted_app_1_elem_of _ _ _ y x Hs).
      - apply elem_of_reverse. by left.
      - by left. }
    destruct (Z.ltb_spec (key x) (key y)); [lia|done]. }
  rewrite Hsink, IH.
  - by rewrite reverse_cons, <- app_assoc.
  - by rewrite reverse_cons, <- app_assoc.
Qed.

(** Insertion sort leaves a sorted list as it is. *)
Lemma insertionSort_sorted_id (key : nat -> Z) (l : list nat) :
  StronglySorted (fun a b => (key a <= key b)%Z) l ->
  insertionSort (fun a b => (key a <? key b)%Z) l = l.
Proof.
  intros Hs. unfold insertionSort. rewrite sink_all_sorted_id by done.
  by rewrite app_nil_r, reverse_involutive.
Qed.

Lemma Forall2_insert_left {A B : Type} (P : A -> B -> Prop) (l : list A) (k : list B)
    (i : nat) (x : A) (y : B) :
  Forall2 P l k -> k !! i = Some y -> P x y -> Forall2 P (<[i := x]> l) k.
Proof.
  intros H Hk HP. rewrite <- (list_insert_id k i y Hk). by apply Forall2_insert.
Qed.

Lemma presorted_Less (t tbl : list Entry.t) (a b : nat) :
  presorted t tbl -> EntrySet_Less t a b = EntrySet_Less tbl a b.
Proof.
  intros Hp. unfold EntrySet_Less, publishedOf.
  assert (Hpub : forall i, (Entry.Published <$> t !! i) = (Entry.Published <$> tbl !! i)).
  { intros i. destruct (t !! i) as [e'|] eqn:He'.
    - destruct (Forall2_lookup_l _ _ _ _ _ Hp He') as (e & -> & Hsf & _). simpl.
      unfold same_fields in Hsf. apply (f_equal Entry.Published) in Hsf. simpl in Hsf.
      by rewrite Hsf.
    - apply lookup_ge_None in He'. rewrite (Forall2_length _ _ _ Hp) in He'.
      apply lookup_ge_None in He'. by rewrite He'. }
  by rewrite !Hpub.
Qed.

Lemma treeSort_stable_spec (fuel : nat) :
  forall (tbl t : list Entry.t) (i : nat) (t' : list Entry.t) (out : list nat),
    presorted t tbl ->
    treeSort insertionSort fuel t i = Ret (t', out) ->
    presorted t' tbl /\ specFlatten fuel tbl i = Some out.
Proof.
  induction fuel as [|fuel IH]; intros tbl t i t' out Hp; [done|].
  cbn [treeSort specFlatten].
  destruct (t !! i) as [e'|] eqn:He'; [|done].
  destruct (forallb _ _); [|done].
  destruct (Forall2_lookup_l _ _ _ _ _ Hp He') as (e & He & Hsf & Hch).
  assert (Hsorted : insertionSort (EntrySet_Less t) (Entry.Children e')
                    = insertionSort (EntrySet_Less tbl) (childrenOf tbl i)).
  { unfold childrenOf. rewrite He. simpl.
    rewrite (insertionSort_ext _ (EntrySet_Less tbl)) by (intros; by apply presorted_Less).
    destruct Hch as [->| ->]; [done|].
    apply (insertionSort_sorted_id (instant tbl)).
    apply (insertionSort_sorted (instant tbl)). }
  rewrite Hsorted.
  set (cs := insertionSort (EntrySet_Less tbl) (childrenOf tbl i)).
  assert (Hp1 : presorted (<[i := Entry.with_Children e' cs]> t) tbl).
  { apply (Forall2_insert_left _ _ _ _ _ e); [done..|].
    split; [unfold same_fields in *; destruct e', e; exact Hsf|].
    right. simpl. unfold cs, childrenOf. by rewrite He. }
  clearbody cs. clear Hsorted He' He Hsf Hch.
  assert (Hgen : forall t0 acc,
             presorted t0 tbl ->
             for_each
               (fun '(tbl', list) v =>
                  '(tbl'', sub) ← treeSort insertionSort fuel tbl' v;
                  Ret (tbl'', list ++ v :: sub)) cs (t0, acc) = Ret (t', out) ->
             exists subs,
               mapM (fun c => sub ← specFlatten fuel tbl c; Some (c :: sub)) cs
               = Some subs /\
               out = acc ++ concat subs /\ presorted t' tbl).
  { clear Hp1. induction cs as [|v cs IHcs]; intros t0 acc Hp0 Hloop.
    - cbn in Hloop. injection Hloop as <- <-. exists []. split; [reflexivity|].
      split; [by rewrite app_nil_r|done].
    - cbn [for_each] in Hloop.
      destruct (treeSort insertionSort fuel t0 v) as [[t1 sub]| | |] eqn:Hcall;
        simpl in Hloop; try done.
      destruct (IH tbl t0 v t1 sub Hp0 Hcall) as [Hp1 Hspec].
      destruct (IHcs t1 (acc ++ v :: sub) Hp1 Hloop) as (subs & Hm & Hout & Hp').
      exists ((v :: sub) :: subs). cbn [mapM]. rewrite Hspec. simpl. rewrite Hm. simpl.
      split; [reflexivity|]. split; [by rewrite Hout, <- app_assoc|done]. }
  intros Hloop. destruct (Hgen _ _ Hp1 Hloop) as (subs & Hm & -> & Hp').
  split; [done|]. rewrite Hm. reflexivity.
Qed.

(** With insertion sort for [sort.Sort], a listing [treeSort] returns is
    the flattening of the specification. *)
Lemma treeSort_stable_refines_spec (fuel : nat) (tbl tbl' : list Entry.t) (i : nat)
    (out : list nat) :
  treeSort insertionSort fuel tbl i = Ret (tbl', out) ->
  specFlatten fuel tbl i = Some out.
Proof.
  intros Hr. eapply (treeSort_stable_spec fuel tbl tbl); [|exact Hr].
  apply Forall_Forall2_diag, Forall_forall. intros e _. split; [done|by left].
Qed.

(** ** Pass 1: what is registered *)

Lemma resolveLink_shape (e : Entry.t) (link : Reply.t) :
  exists reply slug,
    resolveLink e link = Entry.with_Slug (Entry.with_Reply e reply) slug.
Proof.
  unfold resolveLink.
  destruct (String.eqb _ "related").
  { exists (strconv_ParseUint (path_Base (Reply.Link link))).1, (Entry.Slug e).
    by destruct e. }
  destruct (String.eqb _ "alternate"); [by exists (Entry.Reply e), (Entry.Slug e); destruct e|].
  destruct (String.eqb _ "replies").
  { exists (Entry.Reply e),
      (strings_ReplaceAll (path_Base (Reply.Link link)) (path_Ext (Reply.Link link)) "").
    by destruct e. }
  by exists (Entry.Reply e), (Entry.Slug e); destruct e.
Qed.

Lemma resolveLinks_shape (links : list Reply.t) (e : Entry.t) :
  exists reply slug,
    fold_left resolveLink links e = Entry.with_Slug (Entry.with_Reply e reply) slug.
Proof.
  revert e. induction links as [|l links IH]; intros e; simpl.
  - by exists (Entry.Reply e), (Entry.Slug e); destruct e.
  - destruct (resolveLink_shape e l) as (r & s & ->).
    destruct (IH (Entry.with_Slug (Entry.with_Reply e r) s)) as (r' & s' & ->).
    by exists r', s'.
Qed.

(** The first loop changes the id, the parent number and the slug of an
    entry, and nothing else. *)
Lemma resolved_shape (e : Entry.t) :
  exists reply slug,
    resolved e =
    Entry.with_Slug (Entry.with_Reply (Entry.with_ID e (resolvedID e)) reply) slug.
Proof.
  unfold resolved, resolveEntry, resolvedID, resolveID.
  destruct (isTemplate (Entry.Tags e)); simpl.
  { by exists (Entry.Reply e), (Entry.Slug e); destruct e. }
  destruct (0 <=? strings_LastIndex (Entry.ID e) "post-")%Z; simpl.
  - destruct (strconv_ParseUint _) as [id []]; simpl;
      destruct (resolveLinks_shape (Entry.Links e)
                  (Entry.with_ID e (drop_bytes
                     (Z.to_nat (strings_LastIndex (Entry.ID e) "post-" + 5)) (Entry.ID e))))
        as (r & s & ->); by exists r, s.
  - destruct (resolveLinks_shape (Entry.Links e) e) as (r & s & ->).
    by exists r, s; destruct e.
Qed.

Lemma resolved_ID (e : Entry.t) : Entry.ID (resolved e) = resolvedID e.
Proof. by destruct (resolved_shape e) as (r & s & ->). Qed.

Lemma resolved_Tags (e : Entry.t) : Entry.Tags (resolved e) = Entry.Tags e.
Proof. by destruct (resolved_shape e) as (r & s & ->). Qed.

Lemma resolved_Children (e : Entry.t) : Entry.Children (resolved e) = Entry.Children e.
Proof. by destruct (resolved_shape e) as (r & s & ->). Qed.

Lemma resolved_isPost (e : Entry.t) : isPost (resolved e) = isPost e.
Proof. unfold isPost. by rewrite resolved_Tags. Qed.

Lemma resolved_isComment (e : Entry.t) : isComment (resolved e) = isComment e.
Proof. unfold isComment. by rewrite resolved_Tags. Qed.

(** An entry registers a key only if it is no template and the text after
    the last "post-" of its id is that number. *)
Lemma keyOf_Some (e : Entry.t) (id : N) :
  keyOf e = Some id ->
  isTemplate (Entry.Tags e) = false /\
  (0 <= strings_LastIndex (Entry.ID e) "post-")%Z /\
  strconv_ParseUint (resolvedID e) = (id, true).
Proof.
  unfold keyOf, resolveEntry, resolvedID, resolveID.
  destruct (isTemplate (Entry.Tags e)); simpl; [done|].
  destruct (0 <=? strings_LastIndex (Entry.ID e) "post-")%Z eqn:Hidx; simpl; [|done].
  destruct (strconv_ParseUint _) as [id' []] eqn:Hp; simpl; [|done].
  intros [= ->]. split; [done|]. split; [by apply Z.leb_le|done].
Qed.

Lemma resolveFrom_table (es : list Entry.t) (k : nat) (postmap : gmap N nat) :
  (resolveFrom k es postmap).1.1 = resolved <$> es.
Proof.
  revert k postmap. induction es as [|e es IH]; intros k postmap; simpl; [done|].
  unfold resolved at 1.
  destruct (resolveEntry e) as [[e' key] out]. simpl.
  specialize (IH (S k) (register k key postmap)).
  destruct (resolveFrom (S k) es (register k key postmap)) as [[rest' pm'] out'].
  simpl in *. by rewrite IH.
Qed.

(** Every value of the table of identifiers is the index of an entry that
    registered the key. *)
Lemma resolveFrom_postmap (es : list Entry.t) (k0 : nat) (postmap : gmap N nat)
    (id : N) (k : nat) :
  (resolveFrom k0 es postmap).1.2 !! id = Some k ->
  postmap !! id = Some k \/
  (k0 <= k /\ exists e, es !! (k - k0) = Some e /\ keyOf e = Some id).
Proof.
  revert k0 postmap. induction es as [|e es IH]; intros k0 postmap; simpl; [by left|].
  unfold keyOf.
  destruct (resolveEntry e) as [[e' key] out] eqn:He. simpl.
  specialize (IH (S k0) (register k0 key postmap)).
  destruct (resolveFrom (S k0) es (register k0 key postmap)) as [[rest' pm'] out'].
  simpl in *. intros Hk. destruct (IH Hk) as [Hreg|(Hle & e0 & He0 & Hkey)].
  - destruct key as [id'|]; simpl in Hreg; [|by left].
    destruct (decide (id' = id)) as [->|Hne].
    + rewrite lookup_insert_eq in Hreg. injection Hreg as <-.
      right. split; [lia|]. exists e. rewrite Nat.sub_diag. simpl.
      split; [done|]. by rewrite He.
    + rewrite lookup_insert_ne in Hreg by done. by left.
  - right. split; [lia|]. exists e0. split; [|done].
    replace (k - k0) with (S (k - S k0)) by lia. done.
Qed.

(** ** Pass 2: what happens to a comment *)

Section BuildFacts.

Variable os_OpenFile : string -> bool.
Variable dir : string.
Variable postmap : gmap N nat.

Lemma same_fields_verdictOf (e' e : Entry.t) :
  same_fields e' e -> verdictOf postmap e' = verdictOf postmap e.
Proof.
  unfold same_fields. destruct e', e. simpl. intros [= -> -> -> -> -> -> -> -> -> -> -> -> -> ->].
  done.
Qed.

Lemma same_fields_stepEvents (e' e : Entry.t) :
  same_fields e' e ->
  stepEvents os_OpenFile dir postmap e' = stepEvents os_OpenFile dir postmap e.
Proof.
  unfold same_fields. destruct e', e. simpl. intros [= -> -> -> -> -> -> -> -> -> -> -> -> -> ->].
  done.
Qed.

Lemma same_fields_appendChild (k : nat) (e' e : Entry.t) :
  same_fields e' e -> same_fields (appendChild k e') e.
Proof. unfold same_fields. by destruct e', e. Qed.

(** The step of the second loop, by the verdict on the entry. *)
Lemma buildStep_verdict (tbl : list Entry.t) (trace : list event) (k : nat) (e : Entry.t) :
  tbl !! k = Some e ->
  buildStep os_OpenFile dir postmap (tbl, trace) k =
  match verdictOf postmap e with
  | NotComment => Ret (tbl, trace)
  | Orphan => Ret (tbl, trace ++ [Println ("Skipping deleted comment " +:+ Entry.ID e)])
  | Attach i => Ret (alter (appendChild k) i tbl, trace ++ commentEvents os_OpenFile dir e)
  | Dangling => Panic (strconv_Itoa k +:+ " entry did not exist")
  end.
Proof.
  intros He. unfold buildStep, verdictOf, commentEvents. rewrite He.
  destruct (isComment e); [|done].
  destruct (parentOf e =? 0)%N; [done|].
  by destruct (postmap !! parentOf e).
Qed.

Lemma childrenOf_alter (tbl : list Entry.t) (k i j : nat) :
  j < length tbl ->
  childrenOf (alter (appendChild k) j tbl) i =
  childrenOf tbl i ++ (if decide (i = j) then [k] else []).
Proof.
  intros Hj. unfold childrenOf. destruct (decide (i = j)) as [->|Hne].
  - rewrite list_lookup_alter_eq.
    destruct (lookup_lt_is_Some_2 tbl j Hj) as [e He]. by rewrite He.
  - rewrite list_lookup_alter_ne by done. by rewrite app_nil_r.
Qed.

(** The second loop over the indices [ks], when it returns: the table keeps
    its entries and gains the attached comments as children, the trace
    gains the events of the entries in order, and no entry of [ks] has a
    parent number that is not registered. *)
Lemma build_loop_returns (tbl1 : list Entry.t) (ks : list nat) :
  (forall id i, postmap !! id = Some i -> i < length tbl1) ->
  Forall (fun k => k < length tbl1) ks ->
  forall tbl trace tbl' trace',
    Forall2 same_fields tbl tbl1 ->
    for_each (buildStep os_OpenFile dir postmap) ks (tbl, trace) = Ret (tbl', trace') ->
    Forall2 same_fields tbl' tbl1 /\
    trace' = trace ++ eventsOf os_OpenFile dir postmap tbl1 ks /\
    (forall i, childrenOf tbl' i = childrenOf tbl i ++ attached postmap tbl1 i ks) /\
    Forall (fun k => (verdictOf postmap <$> tbl1 !! k) <> Some Dangling) ks.
Proof.
  intros Hpm. induction ks as [|k ks IH]; intros Hks tbl trace tbl' trace' Hsf;
    cbn [for_each].
  - intros [= <- <-]. unfold eventsOf, attached. simpl.
    rewrite app_nil_r. split; [done|]. split; [done|].
    split; [|done]. intros i. by rewrite app_nil_r.
  - apply Forall_cons in Hks as [Hk Hks].
    pose proof (Forall2_length _ _ _ Hsf) as Hlen.
    destruct (lookup_lt_is_Some_2 tbl1 k Hk) as [e1 He1].
    destruct (Forall2_lookup_r _ _ _ _ _ Hsf He1) as (e & He & Hee1).
    rewrite (buildStep_verdict _ _ _ _ He).
    assert (Hev : eventsOf os_OpenFile dir postmap tbl1 (k :: ks)
                  = stepEvents os_OpenFile dir postmap e
                    ++ eventsOf os_OpenFile dir postmap tbl1 ks).
    { unfold eventsOf. cbn [map concat]. rewrite He1. simpl.
      by rewrite (same_fields_stepEvents _ _ Hee1). }
    assert (Hat : forall i, attached postmap tbl1 i (k :: ks)
                  = (if decide (verdictOf postmap e = Attach i) then [k] else [])
                    ++ attached postmap tbl1 i ks).
    { intros i. unfold attached. rewrite filter_cons, He1. simpl.
      rewrite (same_fields_verdictOf _ _ Hee1).
      destruct (decide (verdictOf postmap e1 = Attach i)) as [Hv|Hv].
      - rewrite decide_True; [done|]. by rewrite Hv.
      - rewrite decide_False; [done|]. intros [= Hv']. done. }
    assert (Hdg : (verdictOf postmap <$> tbl1 !! k) = Some (verdictOf postmap e)).
    { rewrite He1. simpl. by rewrite (same_fields_verdictOf _ _ Hee1). }
    rewrite Hev. unfold stepEvents.
    destruct (verdictOf postmap e) as [| |j|] eqn:Hv; simpl; [| | |done].
    + intros Hrest. destruct (IH Hks _ _ _ _ Hsf Hrest) as (H1 & H2 & H3 & H4).
      split; [done|]. split; [done|]. split.
      * intros i. rewrite H3, Hat. by rewrite decide_False by done.
      * constructor; [by rewrite Hdg|done].
    + intros Hrest. destruct (IH Hks _ _ _ _ Hsf Hrest) as (H1 & H2 & H3 & H4).
      split; [done|]. split; [by rewrite H2, <- app_assoc|]. split.
      * intros i. rewrite H3, Hat. by rewrite decide_False by done.
      * constructor; [by rewrite Hdg|done].
    + intros Hrest.
      assert (Hj : j < length tbl).
      { rewrite Hlen. unfold verdictOf in Hv.
        destruct (isComment e); [|done]. destruct (parentOf e =? 0)%N; [done|].
        destruct (postmap !! parentOf e) as [j'|] eqn:Hpj; [|done].
        injection Hv as ->. by eapply Hpm. }
      assert (Hsf' : Forall2 same_fields (alter (appendChild k) j tbl) tbl1).
      { apply Forall2_alter_l; [done|]. intros x y _ _ Hxy.
        by apply same_fields_appendChild. }
      destruct (IH Hks _ _ _ _ Hsf' Hrest) as (H1 & H2 & H3 & H4).
      split; [done|]. split; [by rewrite H2, <- app_assoc|]. split.
      * intros i. rewrite H3, Hat, childrenOf_alter by done. rewrite <- app_assoc.
        f_equal. f_equal. destruct (decide (i = j)) as [->|Hne].
        -- by rewrite decide_True by done.
        -- rewrite decide_False; [done|]. intros [= ->]. done.
      * constructor; [by rewrite Hdg|done].
Qed.

(** The second loop panics on the first entry of [ks] whose parent number
    is not registered, whenever there is one. *)
Lemma build_loop_panics (tbl1 : list Entry.t) (ks : list nat) (k : nat) :
  Forall (fun k => k < length tbl1) ks ->
  k ∈ ks -> (verdictOf postmap <$> tbl1 !! k) = Some Dangling ->
  forall tbl trace,
    Forall2 same_fields tbl tbl1 ->
    exists k', k' ∈ ks /\ (verdictOf postmap <$> tbl1 !! k') = Some Dangling /\
      for_each (buildStep os_OpenFile dir postmap) ks (tbl, trace)
      = Panic (strconv_Itoa k' +:+ " entry did not exist").
Proof.
  induction ks as [|v ks IH]; intros Hks Hk Hdang tbl trace Hsf.
  { by apply elem_of_nil in Hk. }
  apply Forall_cons in Hks as [Hv Hks]. cbn [for_each].
  destruct (lookup_lt_is_Some_2 tbl1 v Hv) as [e1 He1].
  destruct (Forall2_lookup_r _ _ _ _ _ Hsf He1) as (e & He & Hee1).
  rewrite (buildStep_verdict _ _ _ _ He).
  assert (Hve : (verdictOf postmap <$> tbl1 !! v) = Some (verdictOf postmap e)).
  { rewrite He1. simpl. by rewrite (same_fields_verdictOf _ _ Hee1). }
  assert (Hnext : verdictOf postmap e <> Dangling -> k ∈ ks).
  { intros Hne. apply elem_of_cons in Hk as [->|Hk]; [|done].
    rewrite Hve in Hdang. by injection Hdang. }
  destruct (verdictOf postmap e) as [| |j|] eqn:Hverd; simpl.
  - destruct (IH Hks (Hnext ltac:(done)) Hdang tbl trace Hsf) as (k' & Hk' & Hd & ->).
    exists k'. split; [by right|done].
  - destruct (IH Hks (Hnext ltac:(done)) Hdang tbl
                (trace ++ [Println ("Skipping deleted comment " +:+ Entry.ID e)]) Hsf)
      as (k' & Hk' & Hd & ->).
    exists k'. split; [by right|done].
  - assert (Hsf' : Forall2 same_fields (alter (appendChild v) j tbl) tbl1).
    { apply Forall2_alter_l; [done|]. intros x y _ _ Hxy.
      by apply same_fields_appendChild. }
    destruct (IH Hks (Hnext ltac:(done)) Hdang _
                (trace ++ commentEvents os_OpenFile dir e) Hsf')
      as (k' & Hk' & Hd & ->).
    exists k'. split; [by right|done].
  - exists v. split; [by left|done].
Qed.

End BuildFacts.

(** ** The run, pass by pass *)

Lemma for_each_app {S A : Type} (f : S -> A -> result S) (l1 l2 : list A) (s : S) :
  for_each f (l1 ++ l2) s = s' ← for_each f l1 s; for_each f l2 s'.
Proof.
  revert s. induction l1 as [|v l1 IH]; intros s; simpl; [done|].
  destruct (f s v); simpl; [apply IH|done..].
Qed.

Lemma postmapOf_registered (feed : list Entry.t) (id : N) (k : nat) :
  postmapOf feed !! id = Some k ->
  exists e, feed !! k = Some e /\ keyOf e = Some id.
Proof.
  unfold postmapOf, resolveAll. intros Hk.
  destruct (resolveFrom_postmap _ _ _ _ _ Hk) as [Hempty|(_ & e & He & Hkey)].
  - by rewrite lookup_empty in Hempty.
  - rewrite Nat.sub_0_r in He. by exists e.
Qed.

Lemma postmapOf_range (feed : list Entry.t) (id : N) (k : nat) :
  postmapOf feed !! id = Some k -> k < length (resolved <$> feed).
Proof.
  intros Hk. destruct (postmapOf_registered _ _ _ Hk) as (e & He & _).
  rewrite length_fmap. by eapply lookup_lt_Some.
Qed.

Section RunFacts.

Variable sort_Sort : (nat -> nat -> bool) -> list nat -> list nat.
Variable os_OpenFile : string -> bool.
Variable extra : string.
Variable dir : string.

Lemma main_passes (fuel : nat) (feed : list Entry.t) :
  feed <> [] ->
  main sort_Sort os_OpenFile extra dir fuel feed =
  '(tbl2, trace2) ← build os_OpenFile dir (postmapOf feed) (resolved <$> feed, notesOf feed);
  '(tbl3, trace3, c) ← posts sort_Sort os_OpenFile extra dir fuel (tbl2, trace2);
  Ret (tbl3,
       trace3 ++
       [LogPrintf ("Wrote " +:+ strconv_Itoa (count c) +:+ " published posts to disk.");
        LogPrintf ("Wrote " +:+ strconv_Itoa (drafts c) +:+ " drafts to disk.")]).
Proof.
  intros Hne. unfold main, postmapOf, notesOf.
  destruct feed as [|e feed]; [done|]. cbn [length Nat.ltb Nat.leb].
  pose proof (resolveFrom_table (e :: feed) 0 ∅) as Htbl. unfold resolveAll.
  destruct (resolveFrom 0 (e :: feed) ∅) as [[tbl1 pm] out1]. simpl in Htbl.
  by rewrite Htbl.
Qed.

(** The second loop either returns or panics on an entry whose parent
    number is not registered. *)
Lemma build_loop_cases (postmap : gmap N nat) (tbl1 : list Entry.t) (ks : list nat) :
  Forall (fun k => k < length tbl1) ks ->
  forall tbl trace,
    Forall2 same_fields tbl tbl1 ->
    (exists tbl' trace',
        for_each (buildStep os_OpenFile dir postmap) ks (tbl, trace) = Ret (tbl', trace'))
    \/ (exists k', k' ∈ ks /\ (verdictOf postmap <$> tbl1 !! k') = Some Dangling /\
          for_each (buildStep os_OpenFile dir postmap) ks (tbl, trace)
          = Panic (strconv_Itoa k' +:+ " entry did not exist")).
Proof.
  intros Hks tbl trace Hsf.
  destruct (decide (Exists (fun k => (verdictOf postmap <$> tbl1 !! k) = Some Dangling) ks))
    as [Hex|Hno].
  - right. apply Exists_exists in Hex as (k & Hk & Hd).
    by eapply build_loop_panics.
  - left. apply not_Exists_Forall in Hno; [|intros k; apply _].
    revert tbl trace Hsf. induction ks as [|k ks IH]; intros tbl trace Hsf.
    { by exists tbl, trace. }
    apply Forall_cons in Hks as [Hk Hks]. apply Forall_cons in Hno as [Hnk Hno].
    cbn [for_each].
    destruct (lookup_lt_is_Some_2 tbl1 k Hk) as [e1 He1].
    destruct (Forall2_lookup_r _ _ _ _ _ Hsf He1) as (e & He & Hee1).
    rewrite (buildStep_verdict _ _ _ _ _ _ _ He).
    simpl in Hnk. rewrite He1 in Hnk. simpl in Hnk.
    rewrite <- (same_fields_verdictOf _ _ _ Hee1) in Hnk.
    destruct (verdictOf postmap e) as [| |j|]; simpl; [by apply IH|by apply IH| |done].
    apply IH; [done..|]. apply Forall2_alter_l; [done|]. intros x y _ _ Hxy.
    by apply same_fields_appendChild.
Qed.

Lemma postStep_no_post (fuel : nat) (tbl : list Entry.t) (trace : list event)
    (c : counters) (k : nat) (e : Entry.t) :
  tbl !! k = Some e -> isPost e = false ->
  postStep sort_Sort os_OpenFile extra dir fuel (tbl, trace, c) k = Ret (tbl, trace, c).
Proof. intros He Hp. unfold postStep. by rewrite He, Hp. Qed.

Lemma postStep_post (fuel : nat) (tbl : list Entry.t) (trace : list event)
    (c : counters) (k : nat) (e : Entry.t) :
  tbl !! k = Some e -> isPost e = true ->
  postStep sort_Sort os_OpenFile extra dir fuel (tbl, trace, c) k =
  '(tbl', flat) ← treeSort sort_Sort fuel tbl k;
  match writeEntry os_OpenFile dir (postRecord extra e tbl' flat) with
  | None =>
      Fatal ("Failed writing post "
             +:+ strconv_Quote (Entry.Title (postRecord extra e tbl' flat))
             +:+ " to disk:")
  | Some ev =>
      Ret (tbl', trace ++ [ev],
           if Entry.Draft (postRecord extra e tbl' flat)
           then mkCounters (count c) (S (drafts c))
           else mkCounters (S (count c)) (drafts c))
  end.
Proof. intros He Hp. unfold postStep. by rewrite He, Hp. Qed.

(** The third loop passes over the entries that are no posts. *)
Lemma posts_loop_no_post (fuel : nat) (ks : list nat) (tbl : list Entry.t)
    (trace : list event) (c : counters) :
  Forall (fun k => exists e, tbl !! k = Some e /\ isPost e = false) ks ->
  for_each (postStep sort_Sort os_OpenFile extra dir fuel) ks (tbl, trace, c)
  = Ret (tbl, trace, c).
Proof.
  induction ks as [|k ks IH]; intros Hks; [done|].
  apply Forall_cons in Hks as [(e & He & Hp) Hks]. cbn [for_each].
  rewrite (postStep_no_post _ _ _ _ _ _ He Hp). simpl. by apply IH.
Qed.

(** The third loop only adds to the trace. *)
Lemma posts_loop_trace (fuel : nat) (ks : list nat) (tbl tbl' : list Entry.t)
    (trace trace' : list event) (c c' : counters) :
  for_each (postStep sort_Sort os_OpenFile extra dir fuel) ks (tbl, trace, c)
  = Ret (tbl', trace', c') ->
  exists more, trace' = trace ++ more.
Proof.
  revert tbl trace c. induction ks as [|k ks IH]; intros tbl trace c; cbn [for_each].
  - intros [= <- <- <-]. exists []. by rewrite app_nil_r.
  - destruct (tbl !! k) as [e|] eqn:He; [|by unfold postStep; rewrite He].
    destruct (isPost e) eqn:Hp.
    + rewrite (postStep_post _ _ _ _ _ _ He Hp).
      destruct (treeSort _ _ _ _) as [[t flat]| | |]; simpl; try done.
      destruct (writeEntry _ _ _) as [ev|]; simpl; [|done].
      intros Hrest. destruct (IH _ _ _ Hrest) as [more ->].
      exists (ev :: more). by rewrite <- app_assoc.
    + rewrite (postStep_no_post _ _ _ _ _ _ He Hp). simpl. apply IH.
Qed.

End RunFacts.

(** ** Further facts about the passes *)

Lemma same_fields_refl_table (tbl : list Entry.t) : Forall2 same_fields tbl tbl.
Proof. apply Forall_Forall2_diag, Forall_forall. by intros. Qed.

Lemma seq_in_range (n : nat) : Forall (fun k => k < n) (seq 0 n).
Proof. apply Forall_forall. intros j Hj. apply elem_of_seq in Hj. lia. Qed.

Lemma elem_of_eventsOf (os_OpenFile : string -> bool) (dir : string)
    (postmap : gmap N nat) (tbl1 : list Entry.t) (ks : list nat) (ev : event) :
  ev ∈ eventsOf os_OpenFile dir postmap tbl1 ks <->
  exists k e1, k ∈ ks /\ tbl1 !! k = Some e1 /\
               ev ∈ stepEvents os_OpenFile dir postmap e1.
Proof.
  unfold eventsOf. induction ks as [|k ks IH]; cbn [map concat].
  - split; [intros H; by apply elem_of_nil in H|].
    intros (k & e1 & Hk & _). by apply elem_of_nil in Hk.
  - rewrite elem_of_app, IH. split.
    + intros [Hev|(k' & e1 & Hk' & He1 & Hev)].
      * destruct (tbl1 !! k) as [e1|] eqn:He1; simpl in Hev;
          [|by apply elem_of_nil in Hev].
        exists k, e1. split; [by left|done].
      * exists k', e1. split; [by right|done].
    + intros (k' & e1 & Hk' & He1 & Hev).
      apply elem_of_cons in Hk' as [->|Hk'].
      * left. by rewrite He1.
      * right. by exists k', e1.
Qed.

Lemma same_fields_isPost (e' e : Entry.t) : same_fields e' e -> isPost e' = isPost e.
Proof.
  unfold same_fields, isPost. intros H. apply (f_equal Entry.Tags) in H.
  simpl in H. by rewrite H.
Qed.

(** The first loop prints and does nothing else. *)
Lemma resolveFrom_notes (es : list Entry.t) (k : nat) (postmap : gmap N nat) (ev : event) :
  ev ∈ (resolveFrom k es postmap).2 -> exists line, ev = Println line.
Proof.
  revert k postmap. induction es as [|e es IH]; intros k postmap; simpl.
  - intros H. by apply elem_of_nil in H.
  - destruct (resolveEntry e) as [[e' key] out] eqn:He.
    specialize (IH (S k) (register k key postmap)).
    destruct (resolveFrom (S k) es (register k key postmap)) as [[rest' pm'] out'].
    simpl in *. intros Hev. apply elem_of_app in Hev as [Hev|Hev]; [|by apply IH].
    unfold resolveEntry, resolveID in He.
    destruct (isTemplate _); [injection He as <- <- <-; by apply elem_of_nil in Hev|].
    destruct (0 <=? _)%Z; [|injection He as <- <- <-; by apply elem_of_nil in Hev].
    destruct (strconv_ParseUint _) as [id []]; injection He as <- <- <-.
    + by apply elem_of_nil in Hev.
    + apply list_elem_of_singleton in Hev. by eexists.
Qed.

(** The second loop of a run, when it returns. *)
Lemma build_returns (os_OpenFile : string -> bool) (dir : string) (feed : list Entry.t)
    (tbl2 : list Entry.t) (trace2 : list event) :
  build os_OpenFile dir (postmapOf feed) (resolved <$> feed, notesOf feed)
  = Ret (tbl2, trace2) ->
  Forall2 same_fields tbl2 (resolved <$> feed) /\
  trace2 = notesOf feed
           ++ eventsOf os_OpenFile dir (postmapOf feed) (resolved <$> feed)
                (seq 0 (length feed)) /\
  (forall i, childrenOf tbl2 i
             = childrenOf (resolved <$> feed) i
               ++ attached (postmapOf feed) (resolved <$> feed) i (seq 0 (length feed))) /\
  Forall (fun k => (verdictOf (postmapOf feed) <$> (resolved <$> feed) !! k)
                   <> Some Dangling) (seq 0 (length feed)).
Proof.
  unfold build. cbn [fst]. rewrite length_fmap. intros Hb.
  eapply build_loop_returns; [apply postmapOf_range| |apply same_fields_refl_table|exact Hb].
  apply Forall_forall. intros j Hj. apply elem_of_seq in Hj. rewrite length_fmap. lia.
Qed.

(** Over a feed whose entries bring no children, the second loop leaves a
    table whose child indices lie in the table and in which no index is
    listed twice. *)
Lemma build_tree_shape (os_OpenFile : string -> bool) (dir : string)
    (feed tbl2 : list Entry.t) (trace2 : list event) :
  Forall (fun e => Entry.Children e = []) feed ->
  build os_OpenFile dir (postmapOf feed) (resolved <$> feed, notesOf feed)
  = Ret (tbl2, trace2) ->
  valid tbl2 /\ single_parent tbl2.
Proof.
  intros Hempty Hb.
  destruct (build_returns _ _ _ _ _ Hb) as (Hsf & _ & Hch & _).
  assert (Hch' : forall i, childrenOf tbl2 i
                 = attached (postmapOf feed) (resolved <$> feed) i (seq 0 (length feed))).
  { intros i. rewrite Hch. unfold childrenOf at 1. rewrite list_lookup_fmap.
    destruct (feed !! i) as [e|] eqn:He; simpl; [|done].
    rewrite resolved_Children.
    rewrite Forall_forall in Hempty. rewrite (Hempty e); [done|].
    by eapply list_elem_of_lookup_2. }
  assert (Hlen : length tbl2 = length feed).
  { by rewrite (Forall2_length _ _ _ Hsf), length_fmap. }
  split; [|split].
  - intros i j Hij. unfold child in Hij. rewrite Hch' in Hij.
    apply list_elem_of_filter in Hij as [_ Hj]. apply elem_of_seq in Hj. lia.
  - intros i. rewrite Hch'. apply NoDup_filter, NoDup_seq.
  - intros i i' j Hij Hi'j. unfold child in *. rewrite Hch' in Hij, Hi'j.
    apply list_elem_of_filter in Hij as [Hv _].
    apply list_elem_of_filter in Hi'j as [Hv' _].
    rewrite Hv in Hv'. by injection Hv'.
Qed.

(** A run that returns has been through the second loop, and its trace
    begins with what that loop left. *)
Lemma main_returns (srt : (nat -> nat -> bool) -> list nat -> list nat)
    (os_OpenFile : string -> bool) (extra dir : string) (fuel : nat)
    (feed tbl : list Entry.t) (trace : list event) :
  main srt os_OpenFile extra dir fuel feed = Ret (tbl, trace) ->
  exists tbl2 trace2 more,
    build os_OpenFile dir (postmapOf feed) (resolved <$> feed, notesOf feed)
    = Ret (tbl2, trace2) /\
    trace = trace2 ++ more.
Proof.
  intros Hrun.
  assert (Hne : feed <> []) by (intros ->; done).
  rewrite (main_passes _ _ _ _ _ _ Hne) in Hrun.
  destruct (build _ _ _ _) as [[tbl2 trace2]| | |]; simpl in Hrun; try done.
  unfold posts in Hrun. cbn [fst] in Hrun.
  destruct (for_each _ _ _) as [[[tbl3 trace3] c]| | |] eqn:Hposts; simpl in Hrun; try done.
  injection Hrun as <- <-.
  destruct (posts_loop_trace _ _ _ _ _ _ _ _ _ _ _ _ Hposts) as [more ->].
  exists tbl2, trace2, (more ++
    [LogPrintf ("Wrote " +:+ strconv_Itoa (count c) +:+ " published posts to disk.");
     LogPrintf ("Wrote " +:+ strconv_Itoa (drafts c) +:+ " drafts to disk.")]).
  split; [done|]. by rewrite app_assoc.
Qed.

(** An id that ends in ".c5" is no decimal number, whatever precedes it,
    and stays so when the first loop cuts it after "post-". *)
Lemma parse_digits_c5 (x : string) (n : N) : (parse_digits (x +:+ ".c5") n).2 = false.
Proof.
  revert n. induction x as [|c x IH]; intros n; simpl; [reflexivity|].
  destruct (digit_of c); [|done].
  destruct (maxUint64 <? _)%N; [done|apply IH].
Qed.

Lemma ParseUint_c5 (x : string) : (strconv_ParseUint (x +:+ ".c5")).2 = false.
Proof. destruct x as [|c x]; [reflexivity|]. apply (parse_digits_c5 (String c x)). Qed.

Lemma last_index_from_spec (sep s : string) (pos found : Z) :
  last_index_from sep s pos found = found \/
  exists n, last_index_from sep s pos found = (pos + Z.of_nat n)%Z /\
            String.prefix sep (drop_bytes n s) = true.
Proof.
  revert pos found. induction s as [|a s IH]; intros pos found; cbn [last_index_from].
  - destruct (String.prefix sep "") eqn:Hp; [|by left].
    right. exists 0. split; [lia|done].
  - destruct (IH (pos + 1)%Z (if String.prefix sep (String a s) then pos else found))
      as [Hr|(n & Hr & Hp)]; rewrite Hr.
    + destruct (String.prefix sep (String a s)) eqn:Hp; [|by left].
      right. exists 0. split; [lia|done].
    + right. exists (S n). split; [lia|done].
Qed.

Ltac ascii_cases H :=
  repeat match type of H with
         | context [ascii_dec ?a ?b] => destruct (ascii_dec a b); try congruence
         end.

Lemma drop_marker_c5 (n : nat) (x : string) :
  String.prefix "post-" (drop_bytes n (x +:+ ".c5")) = true ->
  exists y, drop_bytes (n + 5) (x +:+ ".c5") = y +:+ ".c5".
Proof.
  revert x. induction n as [|n IH]; intros x H.
  - destruct x as [|c1 [|c2 [|c3 [|c4 [|c5 y]]]]]; cbv -[ascii_dec] in H; ascii_cases H;
      try congruence.
    by exists y.
  - destruct x as [|c x].
    + destruct n as [|[|[|n]]]; cbv -[ascii_dec] in H; ascii_cases H; congruence.
    + apply (IH x H).
Qed.

Lemma resolvedID_c5 (e : Entry.t) (x : string) :
  Entry.ID e = x +:+ ".c5" -> exists y, resolvedID e = y +:+ ".c5".
Proof.
  intros Hid. unfold resolvedID. destruct (isTemplate _); [by exists x|].
  destruct (0 <=? _)%Z eqn:Hpos; [|by exists x].
  apply Z.leb_le in Hpos. unfold strings_LastIndex in *.
  destruct (last_index_from_spec "post-" (Entry.ID e) 0 (-1)) as [Hr|(n & Hr & Hp)].
  - lia.
  - rewrite Hr. replace (Z.to_nat (0 + Z.of_nat n + 5)) with (n + 5) by lia.
    rewrite Hid in *. by apply drop_marker_c5.
Qed.

Lemma keyOf_c5 (e : Entry.t) (x : string) : Entry.ID e = x +:+ ".c5" -> keyOf e = None.
Proof.
  intros Hid. destruct (keyOf e) as [id|] eqn:Hkey; [|done].
  destruct (keyOf_Some _ _ Hkey) as (_ & _ & Hp).
  destruct (resolvedID_c5 e x Hid) as [y Hy].
  pose proof (ParseUint_c5 y) as Hf. rewrite <- Hy, Hp in Hf. done.
Qed.

Lemma resolved_Published (e : Entry.t) : Entry.Published (resolved e) = Entry.Published e.
Proof. by destruct (resolved_shape e) as (r & s & ->). Qed.

Lemma resolved_Title (e : Entry.t) : Entry.Title (resolved e) = Entry.Title e.
Proof. by destruct (resolved_shape e) as (r & s & ->). Qed.

Lemma resolved_Comments (e : Entry.t) : Entry.Comments (resolved e) = Entry.Comments e.
Proof. by destruct (resolved_shape e) as (r & s & ->). Qed.

(** The parent number a "related" link leaves, when it is the only link. *)
Lemma resolved_related (e : Entry.t) (link : Reply.t) :
  isTemplate (Entry.Tags e) = false ->
  Entry.Links e = [link] ->
  strings_ToLower (Reply.Rel link) = "related" ->
  Entry.Reply (resolved e) = (strconv_ParseUint (path_Base (Reply.Link link))).1.
Proof.
  intros Ht Hl Hrel. unfold resolved, resolveEntry. rewrite Ht.
  destruct (resolveID e) as [[e1 key] out]. simpl. rewrite Hl. simpl.
  unfold resolveLink. by rewrite Hrel.
Qed.

Lemma postmapOf_cons_cons (a b : Entry.t) :
  postmapOf [a; b] = register 1 (keyOf b) (register 0 (keyOf a) ∅).
Proof.
  unfold postmapOf, resolveAll, keyOf. simpl.
  destruct (resolveEntry a) as [[a' ka] oa]. destruct (resolveEntry b) as [[b' kb] ob].
  reflexivity.
Qed.

Lemma sort_contract_nil (srt : (nat -> nat -> bool) -> list nat -> list nat)
    (tbl : list Entry.t) :
  sort_contract srt -> srt (EntrySet_Less tbl) [] = [].
Proof.
  intros Hsrt. destruct (Hsrt (instant tbl) []) as [Hp _].
  by apply Permutation_nil_r in Hp.
Qed.

Lemma sort_contract_singleton (srt : (nat -> nat -> bool) -> list nat -> list nat)
    (tbl : list Entry.t) (a : nat) :
  sort_contract srt -> srt (EntrySet_Less tbl) [a] = [a].
Proof.
  intros Hsrt. destruct (Hsrt (instant tbl) [a]) as [Hp _].
  by apply Permutation_singleton_r in Hp.
Qed.

(** ** C1: the order of the flattening *)

(** C1, as the specification states it, fails: with a sorting routine that
    meets the contract of [sort.Sort], children published at the same
    instant need not keep the order in which they were attached.  Here
    the routine is the gap pass followed by insertion sort; entry 1 was
    attached first and is listed last. *)
Lemma stable_order_counterexample :
  ~ (forall srt, sort_contract srt ->
       forall fuel tbl i tbl' out,
         treeSort srt fuel tbl i = Ret (tbl', out) ->
         specFlatten fuel tbl i = Some out).
Proof.
  intros H.
  assert (exists t, treeSort gapSort 2 sevenChildren 0 = Ret (t, [7; 2; 3; 4; 5; 6; 1]))
    as [t Ht] by (eexists; vm_compute; reflexivity).
  specialize (H gapSort gapSort_contract _ _ _ _ _ Ht).
  vm_compute in H. discriminate.
Qed.

(** The same run, fact by fact: entries 1 and 2 are children of entry 0,
    attached in this order and published at the same instant; the gap
    pass moves entry 1 behind entry 2, where a stable sort keeps it in
    front. *)
Lemma gapSort_reorders_equal_stamps :
  childrenOf sevenChildren 0 = [1; 2; 3; 4; 5; 6; 7] /\
  instant sevenChildren 1 = instant sevenChildren 2 /\
  (exists tbl', treeSort gapSort 2 sevenChildren 0 = Ret (tbl', [7; 2; 3; 4; 5; 6; 1])) /\
  specFlatten 2 sevenChildren 0 = Some [7; 1; 2; 3; 4; 5; 6].
Proof.
  split; [reflexivity|]. split; [reflexivity|].
  split; [eexists; vm_compute; reflexivity|]. vm_compute. reflexivity.
Qed.

(** C1 (amended): with any sorting routine that meets the contract of
    [sort.Sort], every listing that [treeSort] returns for an entry (a
    post in particular) is a pre-order, depth-first listing in which the
    children of every entry come in ascending order of publication, and
    the table keeps its tree; on a valid, acyclic table the call does
    return, and every returning call returns the same listing.  The order
    among children published at the same instant is left to the sorting
    routine. *)
Theorem treeSort_sorted_preorder (srt : (nat -> nat -> bool) -> list nat -> list nat)
    (tbl : list Entry.t) (i : nat) :
  sort_contract srt ->
  (forall fuel tbl' out,
      treeSort srt fuel tbl i = Ret (tbl', out) ->
      flattens tbl i out /\ same_tree tbl' tbl) /\
  (valid tbl -> acyclic tbl -> i < length tbl ->
   exists tbl' out,
     treeSort srt (length tbl) tbl i = Ret (tbl', out) /\
     (forall fuel r, treeSort srt fuel tbl i = Ret r -> r = (tbl', out))).
Proof.
  intros Hsrt. split.
  - intros fuel tbl' out Hr.
    destruct (treeSort_returns srt Hsrt tbl _ _ _ _ Hr) as [Hs Hfl]. done.
  - intros Hv Ha Hi.
    destruct (treeSort_terminates srt Hsrt tbl i Hv Ha Hi) as (tbl' & out & Hr).
    exists tbl', out. split; [done|].
    intros fuel r Hr'.
    pose proof (treeSort_fuel_mono srt _ (Nat.max fuel (length tbl)) _ _ _
                  (Nat.le_max_l _ _) Hr') as H1.
    pose proof (treeSort_fuel_mono srt _ (Nat.max fuel (length tbl)) _ _ _
                  (Nat.le_max_r _ _) Hr) as H2.
    rewrite H1 in H2. by injection H2.
Qed.

Lemma treeSort_sorted_preorder_witness :
  sort_contract gapSort /\ valid sevenChildren /\ acyclic sevenChildren /\
  (forall fuel tbl' out,
      treeSort gapSort fuel sevenChildren 0 = Ret (tbl', out) ->
      flattens sevenChildren 0 out /\ same_tree tbl' sevenChildren) /\
  (exists tbl' out,
     treeSort gapSort (length sevenChildren) sevenChildren 0 = Ret (tbl', out) /\
     (forall fuel r, treeSort gapSort fuel sevenChildren 0 = Ret r -> r = (tbl', out))).
Proof.
  assert (Hv : valid sevenChildren) by (by apply validb_valid).
  assert (Ha : acyclic sevenChildren)
    by (by apply (rankedb_acyclic [1; 0; 0; 0; 0; 0; 0; 0])).
  split; [exact gapSort_contract|]. split; [exact Hv|]. split; [exact Ha|].
  destruct (treeSort_sorted_preorder gapSort sevenChildren 0 gapSort_contract)
    as [Hret Hterm].
  split; [exact Hret|]. apply (Hterm Hv Ha). simpl. lia.
Defined.

(** ** C2: what the table of identifiers holds *)

(** C2, as stated, fails: the first loop registers every entry that is not
    a template and whose id holds "post-" and a number, comments
    included.  Here the only entry is a comment, and it is the value of
    key 7. *)
Lemma postmap_only_posts_counterexample :
  ~ (forall feed id k,
       postmapOf feed !! id = Some k ->
       exists e, feed !! k = Some e /\ isPost e = true).
Proof.
  intros H.
  destruct (H selfReply 7%N 0) as (e & He & Hp); [by vm_compute|].
  injection He as <-. by vm_compute in Hp.
Qed.

(** C2 (amended): after the first loop every value of [postmap] is the
    index of an entry that is not a template and whose id holds the marker
    "post-" followed, after its last occurrence, by the decimal number
    that is the key.  Posts, comments and entries without a kind tag are
    registered alike. *)
Theorem postmap_registered (feed : list Entry.t) (id : N) (k : nat) :
  postmapOf feed !! id = Some k ->
  exists e,
    feed !! k = Some e /\
    isTemplate (Entry.Tags e) = false /\
    (0 <= strings_LastIndex (Entry.ID e) "post-")%Z /\
    strconv_ParseUint
      (drop_bytes (Z.to_nat (strings_LastIndex (Entry.ID e) "post-" + 5)) (Entry.ID e))
    = (id, true).
Proof.
  intros Hk. destruct (postmapOf_registered _ _ _ Hk) as (e & He & Hkey).
  exists e. split; [done|].
  destruct (keyOf_Some _ _ Hkey) as (Ht & Hidx & Hp).
  split; [done|]. split; [done|].
  unfold resolvedID in Hp. rewrite Ht in Hp.
  by rewrite (proj2 (Z.leb_le _ _) Hidx) in Hp.
Qed.

Lemma postmap_registered_witness :
  postmapOf selfReply !! 7%N = Some 0 /\
  exists e,
    selfReply !! 0 = Some e /\
    isComment e = true /\
    isTemplate (Entry.Tags e) = false /\
    (0 <= strings_LastIndex (Entry.ID e) "post-")%Z /\
    strconv_ParseUint
      (drop_bytes (Z.to_nat (strings_LastIndex (Entry.ID e) "post-" + 5)) (Entry.ID e))
    = (7%N, true).
Proof.
  assert (Hk : postmapOf selfReply !! 7%N = Some 0) by (by vm_compute).
  split; [exact Hk|].
  destruct (postmap_registered selfReply 7%N 0 Hk) as (e & He & H).
  exists e. split; [exact He|]. split; [|exact H].
  injection He as <-. reflexivity.
Defined.

(** ** C3: a parent number that is not registered *)

(** C3, as stated, fails: a comment whose parent number is not zero and
    not registered does not let the run continue.  Here the run panics on
    entry 0. *)
Lemma dangling_parent_counterexample :
  ~ (forall srt os_OpenFile extra dir fuel feed k e,
       feed !! k = Some e ->
       verdictOf (postmapOf feed) (resolved e) = Dangling ->
       exists tbl trace, main srt os_OpenFile extra dir fuel feed = Ret (tbl, trace)).
Proof.
  intros H.
  destruct (H insertionSort alwaysOpen "" "out" 1 danglingReply 0 _ eq_refl)
    as (tbl & trace & Hrun); [by vm_compute|].
  by vm_compute in Hrun.
Qed.

(** C3 (amended): a comment whose parent number is not zero and is not a
    key of [postmap] ends the run: [main] panics with the message
    "<k'> entry did not exist", where [k'] is the index of that comment
    or of an earlier comment of the same sort.  Nothing is logged for it
    and no later entry is processed. *)
Theorem dangling_parent_panics (srt : (nat -> nat -> bool) -> list nat -> list nat)
    (os_OpenFile : string -> bool) (extra dir : string) (fuel : nat)
    (feed : list Entry.t) (k : nat) (e : Entry.t) :
  feed !! k = Some e ->
  verdictOf (postmapOf feed) (resolved e) = Dangling ->
  exists k',
    k' <= k /\
    (verdictOf (postmapOf feed) <$> (resolved <$> feed) !! k') = Some Dangling /\
    main srt os_OpenFile extra dir fuel feed
    = Panic (strconv_Itoa k' +:+ " entry did not exist").
Proof.
  intros He Hd.
  assert (Hne : feed <> []) by (by intros ->).
  pose proof (lookup_lt_Some _ _ _ He) as Hk.
  rewrite (main_passes _ _ _ _ _ _ Hne). unfold build. cbn [fst].
  rewrite length_fmap.
  replace (length feed) with (S k + (length feed - S k)) by lia.
  rewrite seq_app, for_each_app.
  destruct (build_loop_panics os_OpenFile dir (postmapOf feed) (resolved <$> feed)
              (seq 0 (S k)) k) with (tbl := resolved <$> feed) (trace := notesOf feed)
    as (k' & Hk' & Hd' & Hrun).
  - apply Forall_forall. intros j Hj. apply elem_of_seq in Hj.
    rewrite length_fmap. lia.
  - apply elem_of_seq. lia.
  - rewrite list_lookup_fmap, He. simpl. by rewrite Hd.
  - apply same_fields_refl_table.
  - exists k'. apply elem_of_seq in Hk'. split; [lia|]. split; [done|].
    by rewrite Hrun.
Qed.

Lemma dangling_parent_panics_witness :
  verdictOf (postmapOf danglingReply) (resolved (mkEntry "tag:blogger.com,1999:blog-1.c1"
     (at_second 0) [commentTag]
     [Reply.mk "related" "http://example.blogspot.com/feeds/9" ""] [])) = Dangling /\
  exists k',
    k' <= 0 /\
    (verdictOf (postmapOf danglingReply) <$> (resolved <$> danglingReply) !! k')
    = Some Dangling /\
    main insertionSort alwaysOpen "" "out" 1 danglingReply
    = Panic (strconv_Itoa k' +:+ " entry did not exist").
Proof.
  assert (Hd : verdictOf (postmapOf danglingReply)
                 (resolved (mkEntry "tag:blogger.com,1999:blog-1.c1"
                    (at_second 0) [commentTag]
                    [Reply.mk "related" "http://example.blogspot.com/feeds/9" ""] []))
               = Dangling) by (by vm_compute).
  split; [exact Hd|].
  exact (dangling_parent_panics insertionSort alwaysOpen "" "out" 1
           danglingReply 0 _ eq_refl Hd).
Defined.

(** ** C4: which comments are rendered *)

(** C4, as stated, fails: an orphaned comment is not rendered.  Here the
    feed holds one comment without parent; the run completes and writes
    no file at all, though every file could be opened. *)
Lemma orphan_rendered_counterexample :
  ~ (forall srt os_OpenFile extra dir fuel feed k e tbl trace,
       (forall filename, os_OpenFile filename = true) ->
       feed !! k = Some e ->
       isComment e = true ->
       main srt os_OpenFile extra dir fuel feed = Ret (tbl, trace) ->
       exists filename content, WriteFile filename content ∈ trace).
Proof.
  intros H.
  assert (exists tbl, main insertionSort alwaysOpen "" "out" 1 orphanReply
                      = Ret (tbl, [Println "Skipping deleted comment tag:blogger.com,1999:blog-1.c1";
                                   LogPrintf "Wrote 0 published posts to disk.";
                                   LogPrintf "Wrote 0 drafts to disk."]))
    as [tbl Hrun] by (eexists; vm_compute; reflexivity).
  destruct (H insertionSort alwaysOpen "" "out" 1 orphanReply 0 _ _ _
              (fun _ => eq_refl) eq_refl eq_refl Hrun) as (filename & content & Hin).
  repeat (apply elem_of_cons in Hin as [Hin|Hin]; [discriminate|]).
  by apply elem_of_nil in Hin.
Qed.

(** C4 (amended): a comment file is written for every comment whose parent
    number is not zero, in every run that returns and when the file can be
    opened.  For a comment whose parent number is zero (an orphan) the
    step of the second loop prints "Skipping deleted comment <id>" and
    does nothing else: the table is unchanged and no file is written. *)
Theorem comment_rendered_unless_orphan
    (srt : (nat -> nat -> bool) -> list nat -> list nat)
    (os_OpenFile : string -> bool) (extra dir : string) (fuel : nat)
    (feed : list Entry.t) (k : nat) (e : Entry.t) :
  feed !! k = Some e ->
  isComment e = true ->
  (parentOf (resolved e) = 0%N ->
   forall tbl0 trace0 e0,
     tbl0 !! k = Some e0 -> same_fields e0 (resolved e) ->
     buildStep os_OpenFile dir (postmapOf feed) (tbl0, trace0) k
     = Ret (tbl0, trace0 ++ [Println ("Skipping deleted comment " +:+ resolvedID e)]))
  /\
  (forall tbl trace,
     main srt os_OpenFile extra dir fuel feed = Ret (tbl, trace) ->
     (parentOf (resolved e) = 0%N ->
      Println ("Skipping deleted comment " +:+ resolvedID e) ∈ trace) /\
     (parentOf (resolved e) <> 0%N ->
      os_OpenFile (commentFilename (resolved e) dir) = true ->
      WriteFile (commentFilename (resolved e) dir)
                (t_Execute (commentRecord (resolved e))) ∈ trace)).
Proof.
  intros He Hc.
  assert (Horphan : parentOf (resolved e) = 0%N ->
                    verdictOf (postmapOf feed) (resolved e) = Orphan).
  { intros Hp. unfold verdictOf. by rewrite resolved_isComment, Hc, Hp. }
  split.
  - intros Hp tbl0 trace0 e0 He0 Hsf.
    rewrite (buildStep_verdict _ _ _ _ _ _ _ He0).
    rewrite (same_fields_verdictOf _ _ _ Hsf), (Horphan Hp).
    apply (f_equal Entry.ID) in Hsf. simpl in Hsf. by rewrite Hsf, resolved_ID.
  - intros tbl trace Hrun.
    destruct (main_returns _ _ _ _ _ _ _ _ Hrun) as (tbl2 & trace2 & more & Hb & ->).
    destruct (build_returns _ _ _ _ _ Hb) as (_ & -> & _ & Hnd).
    assert (Hk : k ∈ seq 0 (length feed)).
    { apply elem_of_seq. apply lookup_lt_Some in He. lia. }
    assert (Hin : forall ev,
               ev ∈ stepEvents os_OpenFile dir (postmapOf feed) (resolved e) ->
               ev ∈ (notesOf feed
                     ++ eventsOf os_OpenFile dir (postmapOf feed) (resolved <$> feed)
                          (seq 0 (length feed))) ++ more).
    { intros ev Hev. apply elem_of_app. left. apply elem_of_app. right.
      apply elem_of_eventsOf. exists k, (resolved e).
      split; [done|]. split; [|done]. by rewrite list_lookup_fmap, He. }
    split.
    + intros Hp. apply Hin. unfold stepEvents. rewrite (Horphan Hp), resolved_ID.
      by left.
    + intros Hp Hopen. apply Hin. unfold stepEvents.
      rewrite Forall_forall in Hnd. specialize (Hnd k Hk).
      rewrite list_lookup_fmap, He in Hnd. simpl in Hnd.
      unfold verdictOf in *. rewrite resolved_isComment, Hc in *.
      destruct (N.eqb_spec (parentOf (resolved e)) 0) as [|_]; [done|].
      destruct (postmapOf feed !! parentOf (resolved e)); [|done].
      unfold commentEvents, writeComment.
      change (commentFilename (commentRecord (resolved e)) dir)
        with (commentFilename (resolved e) dir).
      rewrite Hopen. by left.
Qed.

Lemma comment_rendered_unless_orphan_witness :
  bloggerFeed !! 1 = Some bloggerComment /\
  isComment bloggerComment = true /\
  parentOf (resolved bloggerComment) = 42%N /\
  exists tbl trace,
    main insertionSort alwaysOpen "" "out" 2 bloggerFeed = Ret (tbl, trace) /\
    WriteFile (commentFilename (resolved bloggerComment) "out")
              (t_Execute (commentRecord (resolved bloggerComment))) ∈ trace.
Proof.
  split; [reflexivity|]. split; [reflexivity|]. split; [reflexivity|].
  assert (exists tbl trace,
             main insertionSort alwaysOpen "" "out" 2 bloggerFeed = Ret (tbl, trace))
    as (tbl & trace & Hrun) by (eexists _, _; vm_compute; reflexivity).
  exists tbl, trace. split; [exact Hrun|].
  destruct (proj2 (comment_rendered_unless_orphan insertionSort alwaysOpen "" "out" 2
                     bloggerFeed 1 bloggerComment eq_refl eq_refl) tbl trace Hrun)
    as [_ Hwritten].
  apply Hwritten; [vm_compute; discriminate|reflexivity].
Defined.

(** ** C5: the scenario of a post and one comment *)

(** C5, as stated, fails: the file of the post holds no line
    "comments = [ 5 ]". *)
Lemma comments_line_counterexample :
  ~ (forall srt os_OpenFile extra dir fuel p c link x,
       sort_contract srt ->
       Entry.ID p = "tag:blogger.com,1999:blog-1.post-42" ->
       Entry.Tags p = [postTag] -> Entry.Children p = [] -> Entry.Comments p = [] ->
       Entry.ID c = x +:+ ".c5" ->
       Entry.Tags c = [commentTag] -> Entry.Children c = [] ->
       Entry.Links c = [link] ->
       strings_ToLower (Reply.Rel link) = "related" ->
       path_Base (Reply.Link link) = "42" ->
       os_OpenFile (entryFilename p dir) = true ->
       exists tbl trace content,
         main srt os_OpenFile extra dir (S (S fuel)) [p; c] = Ret (tbl, trace) /\
         WriteFile (entryFilename p dir) content ∈ trace /\
         strings_Contains content "comments = [ 5 ]" = true).
Proof.
  intros H.
  destruct (H insertionSort alwaysOpen "" "out" 0 scenarioPost scenarioComment
              (Reply.mk "related" "http://example.blogspot.com/feeds/1/posts/default/42" "")
              "tag:blogger.com,1999:blog-1"
              insertionSort_contract eq_refl eq_refl eq_refl eq_refl eq_refl eq_refl
              eq_refl eq_refl eq_refl eq_refl eq_refl)
    as (tbl & trace & content & Hrun & Hin & Hline).
  assert (exists tbl0 commentFile postFile,
             main insertionSort alwaysOpen "" "out" 2 [scenarioPost; scenarioComment]
             = Ret (tbl0,
                    [WriteFile "out/comments/ctag:blogger.com,1999:blog-1.c5.toml" commentFile;
                     WriteFile "out/2020-01-01-hello-world.md" postFile;
                     LogPrintf "Wrote 1 published posts to disk.";
                     LogPrintf "Wrote 0 drafts to disk."]) /\
             strings_Contains postFile "comments = [ 5 ]" = false)
    as (tbl0 & commentFile & postFile & Hrun0 & Hno).
  { eexists _, _, _. split; vm_compute; reflexivity. }
  rewrite Hrun0 in Hrun. injection Hrun as <- <-.
  change (entryFilename scenarioPost "out") with "out/2020-01-01-hello-world.md" in Hin.
  apply elem_of_cons in Hin as [Hin|Hin]; [discriminate|].
  apply elem_of_cons in Hin as [Hin|Hin].
  { injection Hin as ->. rewrite Hno in Hline. discriminate. }
  apply elem_of_cons in Hin as [Hin|Hin]; [discriminate|].
  apply elem_of_cons in Hin as [Hin|Hin]; [discriminate|].
  by apply elem_of_nil in Hin.
Qed.


(** C5 (amended): for a feed of the post with the id
    "tag:blogger.com,1999:blog-1.post-42" and a comment whose only link is
    a "related" link with the last path element "42" and whose id ends in
    ".c5", the run returns, the comment is the one child of the post, and
    its file is written at [<dir>/comments/c<id>.toml] when that file can
    be opened.  The id of the comment is no decimal number, so the list of
    comment numbers of the post stays empty; the post is rendered through
    the YAML template, which has no line for that list. *)
Theorem scenario_comment_attached
    (srt : (nat -> nat -> bool) -> list nat -> list nat)
    (os_OpenFile : string -> bool) (extra dir : string) (fuel : nat)
    (p c : Entry.t) (link : Reply.t) (x : string) :
  sort_contract srt ->
  Entry.ID p = "tag:blogger.com,1999:blog-1.post-42" ->
  Entry.Tags p = [postTag] -> Entry.Children p = [] -> Entry.Comments p = [] ->
  Entry.ID c = x +:+ ".c5" ->
  Entry.Tags c = [commentTag] -> Entry.Children c = [] ->
  Entry.Links c = [link] ->
  strings_ToLower (Reply.Rel link) = "related" ->
  path_Base (Reply.Link link) = "42" ->
  os_OpenFile (entryFilename p dir) = true ->
  exists tbl trace p',
    main srt os_OpenFile extra dir (S (S fuel)) [p; c] = Ret (tbl, trace) /\
    childrenOf tbl 0 = [1] /\
    Entry.Children p' = [1] /\ Entry.Comments p' = [] /\
    WriteFile (entryFilename p dir) (yamlTempl p') ∈ trace /\
    (forall ids, yamlTempl (Entry.with_Comments p' ids) = yamlTempl p') /\
    (os_OpenFile (commentFilename (resolved c) dir) = true ->
     WriteFile (filepath_Join [path_Join [dir; "comments"];
                               "c" +:+ resolvedID c +:+ ".toml"])
               (t_Execute (commentRecord (resolved c))) ∈ trace).
Proof.
  intros Hsrt HpID HpTags HpCh HpCo HcID HcTags HcCh HcLinks Hrel Hbase Hopen.
  assert (HpT : isTemplate (Entry.Tags p) = false) by (by rewrite HpTags).
  assert (HcT : isTemplate (Entry.Tags c) = false) by (by rewrite HcTags).
  assert (Hkp : keyOf p = Some 42%N).
  { unfold keyOf, resolveEntry, resolveID. rewrite HpT, HpID. reflexivity. }
  assert (Hkc : keyOf c = None) by (by eapply keyOf_c5).
  assert (Hpm : postmapOf [p; c] = <[42%N := 0]> ∅).
  { by rewrite postmapOf_cons_cons, Hkp, Hkc. }
  assert (Hvp : verdictOf (postmapOf [p; c]) (resolved p) = NotComment).
  { unfold verdictOf. by rewrite resolved_isComment; unfold isComment; rewrite HpTags. }
  assert (Hvc : verdictOf (postmapOf [p; c]) (resolved c) = Attach 0).
  { unfold verdictOf. rewrite resolved_isComment. unfold isComment. rewrite HcTags.
    cbn [existsb]. replace (isCommentTag commentTag) with true by reflexivity.
    cbn [orb]. unfold parentOf.
    rewrite (resolved_related c link HcT HcLinks Hrel), Hbase.
    replace ((strconv_ParseUint "42").1) with 42%N by reflexivity.
    cbn [N.eqb Pos.eqb]. by rewrite Hpm, lookup_insert_eq. }
  destruct (resolvedID_c5 c x HcID) as [y Hy].
  rewrite main_passes by done.
  change (resolved <$> [p; c]) with [resolved p; resolved c].
  unfold build. cbn [fst length seq for_each].
  rewrite (buildStep_verdict os_OpenFile dir _ [resolved p; resolved c] _ 0
             (resolved p) eq_refl), Hvp.
  cbn [mbind result_bind].
  rewrite (buildStep_verdict os_OpenFile dir _ [resolved p; resolved c] _ 1
             (resolved c) eq_refl), Hvc.
  cbn [mbind result_bind alter list_alter].
  unfold posts. cbn [fst length seq for_each].
  rewrite (postStep_post srt os_OpenFile extra dir _
             [appendChild 1 (resolved p); resolved c] _ _ 0
             (appendChild 1 (resolved p)) eq_refl).
  2:{ unfold appendChild, isPost. simpl. by rewrite resolved_Tags, HpTags. }
  assert (Hch0 : Entry.Children (appendChild 1 (resolved p)) = [1]).
  { unfold appendChild. simpl. by rewrite resolved_Children, HpCh. }
  assert (Hch1 : Entry.Children (resolved c) = []) by (by rewrite resolved_Children).
  assert (Htree : treeSort srt (S (S fuel)) [appendChild 1 (resolved p); resolved c] 0
                  = Ret ([Entry.with_Children (appendChild 1 (resolved p)) [1];
                          Entry.with_Children (resolved c) []], [1])).
  { cbn [treeSort lookup list_lookup]. rewrite Hch0.
    cbn [forallb length Nat.ltb Nat.leb andb].
    rewrite sort_contract_singleton by done.
    cbn [for_each insert list_insert lookup list_lookup mbind result_bind].
    rewrite Hch1. cbn [forallb]. rewrite sort_contract_nil by done.
    cbn [for_each insert list_insert mbind result_bind app]. reflexivity. }
  rewrite Htree. cbn [mbind result_bind].
  set (tbl3 := [Entry.with_Children (appendChild 1 (resolved p)) [1];
                Entry.with_Children (resolved c) []]).
  set (p' := postRecord extra (appendChild 1 (resolved p)) tbl3 [1]).
  assert (Hname : entryFilename p' dir = entryFilename p dir).
  { unfold entryFilename, p', postRecord, appendChild. simpl.
    by rewrite resolved_Published, resolved_Title. }
  assert (Hco : Entry.Comments p' = []).
  { unfold p', postRecord, appendChild, commentIDs, tbl3. simpl.
    rewrite resolved_Comments, HpCo, resolved_ID, Hy.
    pose proof (ParseUint_c5 y) as Hf.
    destruct (strconv_ParseUint (y +:+ ".c5")) as [id ok]. simpl in Hf. by rewrite Hf. }
  unfold writeEntry. rewrite Hname, Hopen. cbn [mbind result_bind].
  rewrite (postStep_no_post srt os_OpenFile extra dir _ tbl3 _ _ 1
             (Entry.with_Children (resolved c) []) eq_refl).
  2:{ unfold isPost. simpl. by rewrite resolved_Tags, HcTags. }
  cbn [mbind result_bind].
  eexists _, _, p'. split; [reflexivity|].
  split; [reflexivity|]. split; [reflexivity|]. split; [exact Hco|].
  split.
  { apply elem_of_app. left. apply elem_of_app. right. by left. }
  split; [reflexivity|].
  intros Hopenc. apply elem_of_app. left. apply elem_of_app. left.
  apply elem_of_app. right. unfold commentEvents, writeComment.
  change (commentFilename (commentRecord (resolved c)) dir)
    with (commentFilename (resolved c) dir).
  rewrite Hopenc. unfold commentFilename. rewrite resolved_ID. by left.
Qed.

Lemma scenario_comment_attached_witness :
  exists tbl trace p',
    main insertionSort alwaysOpen "" "out" 2 scenarioFeed = Ret (tbl, trace) /\
    childrenOf tbl 0 = [1] /\
    Entry.Children p' = [1] /\ Entry.Comments p' = [] /\
    WriteFile (entryFilename scenarioPost "out") (yamlTempl p') ∈ trace /\
    (forall ids, yamlTempl (Entry.with_Comments p' ids) = yamlTempl p') /\
    WriteFile (filepath_Join [path_Join ["out"; "comments"];
                              "c" +:+ resolvedID scenarioComment +:+ ".toml"])
              (t_Execute (commentRecord (resolved scenarioComment))) ∈ trace.
Proof.
  destruct (scenario_comment_attached insertionSort alwaysOpen "" "out" 0
              scenarioPost scenarioComment
              (Reply.mk "related" "http://example.blogspot.com/feeds/1/posts/default/42" "")
              "tag:blogger.com,1999:blog-1"
              insertionSort_contract eq_refl eq_refl eq_refl eq_refl eq_refl eq_refl
              eq_refl eq_refl eq_refl eq_refl eq_refl)
    as (tbl & trace & p' & Hrun & Hch & Hpc & Hco & Hpost & Hyaml & Hcomment).
  exists tbl, trace, p'. repeat (split; [assumption|]).
  apply Hcomment. reflexivity.
Defined.

(** ** C6: the date of a post *)

(** The stamp of the scenario is printed with the wall clock of its own
    zone, followed by the letter Z; its instant is 18:00:00 UTC. *)
Lemma Date_String_wall_clock :
  Date_String <$> Date_UnmarshalXML "2020-01-01T10:00:00.000-08:00"
  = Some "2020-01-01T10:00:00Z" /\
  unix_nano <$> Date_UnmarshalXML "2020-01-01T10:00:00.000-08:00"
  = Some (unix_nano (mkTime 2020 1 1 18 0 0 0 0)).
Proof. split; reflexivity. Qed.

(** C6, as stated, fails: the post of the scenario is rendered without the
    line "date = 2020-01-01T18:00:00Z". *)
Lemma utc_date_counterexample :
  ~ (forall e,
       Date_UnmarshalXML "2020-01-01T10:00:00.000-08:00" = Some (Entry.Published e) ->
       strings_Contains (t_Execute e) "date = 2020-01-01T18:00:00Z" = true).
Proof.
  intros H. specialize (H scenarioPost eq_refl). by vm_compute in H.
Qed.

(** C6 (amended): for a post published at "2020-01-01T10:00:00.000-08:00"
    the rendered text begins with the title line and a date line of the
    YAML front matter, "date: 2020-01-01T" followed by a time of day of
    eight characters and the letter Z; the name of the output file is the
    directory joined with "2020-01-01-", the slug of the title and
    ".md". *)
Theorem post_date_and_name (e : Entry.t) (dir : string) :
  Date_UnmarshalXML "2020-01-01T10:00:00.000-08:00" = Some (Entry.Published e) ->
  (exists clock rest,
      String.length clock = 8 /\
      t_Execute e
      = "---" +:+ nl +:+ "title: " +:+ dq +:+ Entry.Title e +:+ dq +:+ nl
        +:+ "date: 2020-01-01T" +:+ clock +:+ "Z" +:+ nl +:+ rest) /\
  (exists slug,
      makePath (Entry.Published e) (Entry.Title e) = "2020-01-01-" +:+ slug /\
      entryFilename e dir = filepath_Join [dir; "2020-01-01-" +:+ slug +:+ ".md"]).
Proof.
  intros Hparsed.
  assert (Hd : Some (mkTime 2020 1 1 10 0 0 0 (-28800)) = Some (Entry.Published e))
    by exact Hparsed.
  injection Hd as Hd.
  split.
  - exists "10:00:00".
    exists ("updated: " +:+ Date_String (Entry.Updated e)
            +:+ with_nonempty (Tags_TomlString (Entry.Tags e))
                  (fun s => nl +:+ "tags: [" +:+ s +:+ "]")
            +:+ (if Entry.Draft e then nl +:+ "draft: true" else "")
            +:+ nl +:+ "blogimport: true "
            +:+ with_nonempty (Entry.Extra e) (fun s => nl +:+ s)
            +:+ nl +:+ "author: " +:+ dq +:+ Author.Name (Entry.Author e) +:+ dq +:+ nl
            +:+ "---" +:+ nl +:+ nl +:+ Entry.Content e +:+ nl).
    split; [reflexivity|].
    unfold t_Execute, yamlTempl. rewrite <- Hd. reflexivity.
  - exists (unicodeSanitize
              (strings_ToLower
                 (strings_ReplaceAll (strings_TrimSpace (Entry.Title e)) " " "-"))).
    unfold entryFilename, makePath. rewrite <- Hd. split; reflexivity.
Qed.

Lemma post_date_and_name_witness :
  Date_UnmarshalXML "2020-01-01T10:00:00.000-08:00"
  = Some (Entry.Published scenarioPost) /\
  (exists clock rest,
      String.length clock = 8 /\
      t_Execute scenarioPost
      = "---" +:+ nl +:+ "title: " +:+ dq +:+ Entry.Title scenarioPost +:+ dq +:+ nl
        +:+ "date: 2020-01-01T" +:+ clock +:+ "Z" +:+ nl +:+ rest) /\
  (exists slug,
      makePath (Entry.Published scenarioPost) (Entry.Title scenarioPost)
      = "2020-01-01-" +:+ slug /\
      entryFilename scenarioPost "out"
      = filepath_Join ["out"; "2020-01-01-" +:+ slug +:+ ".md"]).
Proof.
  split; [reflexivity|].
  exact (post_date_and_name scenarioPost "out" eq_refl).
Defined.

(** ** C7: the path of a comment file *)

(** C7, as stated, fails: the file of a comment is named after the id the
    first loop leaves, not after the id of the feed.  Here the comment has
    the id "tag:blogger.com,1999:blog-1.post-77" and is written to
    "out/comments/c77.toml". *)
Lemma comment_path_raw_id_counterexample :
  ~ (forall os_OpenFile dir feed tbl2 trace2 filename content,
       build os_OpenFile dir (postmapOf feed) (resolved <$> feed, notesOf feed)
       = Ret (tbl2, trace2) ->
       WriteFile filename content ∈ trace2 ->
       exists k e,
         feed !! k = Some e /\ isComment e = true /\
         filename
         = filepath_Join [path_Join [dir; "comments"]; "c" +:+ Entry.ID e +:+ ".toml"]).
Proof.
  intros H.
  assert (exists tbl2 content,
             build alwaysOpen "out" (postmapOf bloggerFeed)
               (resolved <$> bloggerFeed, notesOf bloggerFeed)
             = Ret (tbl2, [WriteFile "out/comments/c77.toml" content]))
    as (tbl2 & content & Hb) by (eexists _, _; vm_compute; reflexivity).
  destruct (H alwaysOpen "out" bloggerFeed tbl2 _ "out/comments/c77.toml" content Hb)
    as (k & e & He & Hc & Hname); [by left|].
  destruct k as [|[|k]]; simpl in He; [| |done]; injection He as <-.
  - by vm_compute in Hc.
  - by vm_compute in Hname.
Qed.

(** C7 (amended): every file the second loop writes is the file of a
    comment [e] of the feed, at
    [filepath.Join(path.Join(dir, "comments"), "c" + id + ".toml")], where
    [id] is the id the first loop leaves: the id of the feed when the
    entry is a template or has no "post-" in its id, and otherwise the
    text after the last "post-".  The file holds the template executed on
    the entry with the line breaks of its title removed. *)
Theorem comment_file_path (os_OpenFile : string -> bool) (dir : string)
    (feed tbl2 : list Entry.t) (trace2 : list event) (filename content : string) :
  build os_OpenFile dir (postmapOf feed) (resolved <$> feed, notesOf feed)
  = Ret (tbl2, trace2) ->
  WriteFile filename content ∈ trace2 ->
  exists k e,
    feed !! k = Some e /\ isComment e = true /\
    filename
    = filepath_Join [path_Join [dir; "comments"]; "c" +:+ resolvedID e +:+ ".toml"] /\
    content = t_Execute (commentRecord (resolved e)) /\
    ((strings_LastIndex (Entry.ID e) "post-" < 0)%Z -> resolvedID e = Entry.ID e) /\
    (isTemplate (Entry.Tags e) = false ->
     (0 <= strings_LastIndex (Entry.ID e) "post-")%Z ->
     resolvedID e
     = drop_bytes (Z.to_nat (strings_LastIndex (Entry.ID e) "post-" + 5)) (Entry.ID e)).
Proof.
  intros Hb Hin.
  destruct (build_returns _ _ _ _ _ Hb) as (_ & -> & _ & _).
  apply elem_of_app in Hin as [Hin|Hin].
  { apply resolveFrom_notes in Hin as [line Hline]. done. }
  apply elem_of_eventsOf in Hin as (k & e1 & Hk & He1 & Hev).
  rewrite list_lookup_fmap in He1.
  destruct (feed !! k) as [e|] eqn:He; [|done]. injection He1 as <-.
  exists k, e. split; [done|].
  unfold stepEvents, verdictOf in Hev. rewrite resolved_isComment in Hev.
  destruct (isComment e); [|by apply elem_of_nil in Hev].
  split; [done|].
  destruct (parentOf (resolved e) =? 0)%N.
  { apply list_elem_of_singleton in Hev. done. }
  destruct (postmapOf feed !! parentOf (resolved e)); [|by apply elem_of_nil in Hev].
  unfold commentEvents, writeComment in Hev.
  destruct (os_OpenFile _); [|by apply elem_of_nil in Hev].
  apply list_elem_of_singleton in Hev. injection Hev as -> ->.
  split; [unfold commentFilename; simpl; by rewrite resolved_ID|].
  split; [done|]. unfold resolvedID. split.
  - intros Hneg. destruct (isTemplate _); [done|].
    by rewrite (proj2 (Z.leb_gt _ _) Hneg).
  - intros -> Hpos. by rewrite (proj2 (Z.leb_le _ _) Hpos).
Qed.

Lemma comment_file_path_witness :
  exists tbl2 trace2 content,
    build alwaysOpen "out" (postmapOf bloggerFeed)
      (resolved <$> bloggerFeed, notesOf bloggerFeed) = Ret (tbl2, trace2) /\
    WriteFile "out/comments/c77.toml" content ∈ trace2 /\
    exists k e,
      bloggerFeed !! k = Some e /\ isComment e = true /\
      "out/comments/c77.toml"
      = filepath_Join [path_Join ["out"; "comments"]; "c" +:+ resolvedID e +:+ ".toml"] /\
      content = t_Execute (commentRecord (resolved e)) /\
      ((strings_LastIndex (Entry.ID e) "post-" < 0)%Z -> resolvedID e = Entry.ID e) /\
      (isTemplate (Entry.Tags e) = false ->
       (0 <= strings_LastIndex (Entry.ID e) "post-")%Z ->
       resolvedID e
       = drop_bytes (Z.to_nat (strings_LastIndex (Entry.ID e) "post-" + 5)) (Entry.ID e)).
Proof.
  assert (exists tbl2 content,
             build alwaysOpen "out" (postmapOf bloggerFeed)
               (resolved <$> bloggerFeed, notesOf bloggerFeed)
             = Ret (tbl2, [WriteFile "out/comments/c77.toml" content]))
    as (tbl2 & content & Hb) by (eexists _, _; vm_compute; reflexivity).
  exists tbl2, [WriteFile "out/comments/c77.toml" content], content.
  split; [exact Hb|].
  assert (Hin : WriteFile "out/comments/c77.toml" content
                ∈ [WriteFile "out/comments/c77.toml" content]) by (by left).
  split; [exact Hin|].
  exact (comment_file_path alwaysOpen "out" bloggerFeed tbl2 _ _ _ Hb Hin).
Defined.

(** ** C8: the extra front matter *)

(** The entry [writeComment] renders carries the [Extra] field it had in
    the feed: neither the first nor the second loop stores the flag in
    it. *)
Lemma comment_extra_from_feed (e : Entry.t) :
  Entry.Extra (commentRecord (resolved e)) = Entry.Extra e.
Proof. by destruct (resolved_shape e) as (r & s & ->). Qed.

(** The entry [writeEntry] renders carries the flag. *)
Lemma post_extra_from_flag (extra : string) (e : Entry.t) (tbl : list Entry.t)
    (flat : list nat) :
  Entry.Extra (postRecord extra e tbl flat) = extra.
Proof. reflexivity. Qed.

(** C8: the code at the failing input.  With the flag "layout: post" the
    file of the post holds the flag and the file of the comment does
    not. *)
Lemma extra_flag_not_in_comment_file :
  exists tbl commentFile postFile,
    main insertionSort alwaysOpen "layout: post" "out" 2 scenarioFeed
    = Ret (tbl,
           [WriteFile "out/comments/ctag:blogger.com,1999:blog-1.c5.toml" commentFile;
            WriteFile "out/2020-01-01-hello-world.md" postFile;
            LogPrintf "Wrote 1 published posts to disk.";
            LogPrintf "Wrote 0 drafts to disk."]) /\
    strings_Contains commentFile "layout: post" = false /\
    strings_Contains postFile "layout: post" = true.
Proof.
  eexists _, _, _. split; [vm_compute; reflexivity|].
  split; vm_compute; reflexivity.
Qed.

(** ** C9: feeds without posts *)

(** C9, as stated, fails: a feed without posts is not rejected.  Here the
    feed holds one template; the run completes and reports no post. *)
Lemma no_posts_counterexample :
  ~ (forall srt os_OpenFile extra dir fuel feed,
       (forall e, e ∈ feed -> isPost e = false) ->
       exists msg, main srt os_OpenFile extra dir fuel feed = Fatal msg).
Proof.
  intros H.
  destruct (H insertionSort alwaysOpen "" "out" 1 templateOnly) as [msg Hrun].
  - intros e He. apply list_elem_of_singleton in He as ->. reflexivity.
  - by vm_compute in Hrun.
Qed.

(** C9 (amended): a run on a feed without entries ends with the fatal
    error "No blog entries found!".  A feed that has entries, none of them
    a post, is not rejected: the run completes, writes no post and reports
    0 published posts and 0 drafts, unless the second loop panics on a
    comment whose parent number is not registered. *)
Theorem no_entries_fatal :
  (forall srt os_OpenFile extra dir fuel,
      main srt os_OpenFile extra dir fuel [] = Fatal "No blog entries found!")
  /\
  (forall srt os_OpenFile extra dir fuel feed,
      feed <> [] ->
      (forall e, e ∈ feed -> isPost e = false) ->
      (exists tbl trace2,
          build os_OpenFile dir (postmapOf feed) (resolved <$> feed, notesOf feed)
          = Ret (tbl, trace2) /\
          main srt os_OpenFile extra dir fuel feed
          = Ret (tbl, trace2 ++ [LogPrintf "Wrote 0 published posts to disk.";
                                 LogPrintf "Wrote 0 drafts to disk."]))
      \/ (exists k, main srt os_OpenFile extra dir fuel feed
                    = Panic (strconv_Itoa k +:+ " entry did not exist"))).
Proof.
  split; [done|].
  intros srt os_OpenFile extra dir fuel feed Hne Hnp.
  rewrite (main_passes _ _ _ _ _ _ Hne).
  destruct (build_loop_cases os_OpenFile dir (postmapOf feed) (resolved <$> feed)
              (seq 0 (length (resolved <$> feed))) (seq_in_range _)
              (resolved <$> feed) (notesOf feed) (same_fields_refl_table _))
    as [(tbl2 & trace2 & Hb)|(k & _ & _ & Hb)].
  - left. exists tbl2, trace2. split; [exact Hb|].
    unfold build. cbn [fst]. rewrite Hb. cbn [mbind result_bind].
    destruct (build_returns _ _ _ _ _ Hb) as (Hsf & _).
    unfold posts. cbn [fst].
    rewrite posts_loop_no_post; [done|].
    apply Forall_forall. intros j Hj. apply elem_of_seq in Hj.
    destruct (lookup_lt_is_Some_2 tbl2 j ltac:(lia)) as [e2 He2].
    exists e2. split; [done|].
    destruct (Forall2_lookup_l _ _ _ _ _ Hsf He2) as (e1 & He1 & Hee).
    rewrite (same_fields_isPost _ _ Hee).
    rewrite list_lookup_fmap in He1.
    destruct (feed !! j) as [e|] eqn:He; [|done]. injection He1 as <-.
    rewrite resolved_isPost. apply Hnp. by eapply list_elem_of_lookup_2.
  - right. exists k. unfold build. cbn [fst]. by rewrite Hb.
Qed.

Lemma no_entries_fatal_witness :
  templateOnly <> [] /\
  (forall e, e ∈ templateOnly -> isPost e = false) /\
  ((exists tbl trace2,
      build alwaysOpen "out" (postmapOf templateOnly)
        (resolved <$> templateOnly, notesOf templateOnly) = Ret (tbl, trace2) /\
      main insertionSort alwaysOpen "" "out" 1 templateOnly
      = Ret (tbl, trace2 ++ [LogPrintf "Wrote 0 published posts to disk.";
                             LogPrintf "Wrote 0 drafts to disk."]))
   \/ (exists k, main insertionSort alwaysOpen "" "out" 1 templateOnly
                 = Panic (strconv_Itoa k +:+ " entry did not exist"))).
Proof.
  assert (Hne : templateOnly <> []) by discriminate.
  assert (Hnp : forall e, e ∈ templateOnly -> isPost e = false).
  { intros e He. apply list_elem_of_singleton in He as ->. reflexivity. }
  split; [exact Hne|]. split; [exact Hnp|].
  exact (proj2 no_entries_fatal insertionSort alwaysOpen "" "out" 1
           templateOnly Hne Hnp).
Defined.

(** ** C10: termination and cycles *)

(** C10, as stated, fails: acyclic is not enough for "exactly once".  In
    [sharedChild] entry 2 is reached from entry 0 along two paths and is
    listed twice. *)
Lemma exactly_once_counterexample :
  ~ (forall srt, sort_contract srt ->
       forall tbl i, valid tbl -> acyclic tbl -> i < length tbl ->
         exists fuel tbl' out,
           treeSort srt fuel tbl i = Ret (tbl', out) /\
           (forall j, j ∈ out <-> tc (child tbl) i j) /\
           NoDup out).
Proof.
  intros H.
  destruct (H insertionSort insertionSort_contract sharedChild 0)
    as (fuel & tbl' & out & Hr & _ & Hnd).
  - by apply validb_valid.
  - by apply (rankedb_acyclic [2; 1; 0]).
  - simpl. lia.
  - assert (exists t, treeSort insertionSort 3 sharedChild 0 = Ret (t, [1; 2; 2]))
      as [t Ht] by (eexists; vm_compute; reflexivity).
    pose proof (treeSort_fuel_mono insertionSort _ (Nat.max fuel 3) _ _ _
                  (Nat.le_max_l _ _) Hr) as H1.
    pose proof (treeSort_fuel_mono insertionSort _ (Nat.max fuel 3) _ _ _
                  (Nat.le_max_r _ _) Ht) as H2.
    rewrite H1 in H2. injection H2 as -> ->.
    apply NoDup_cons in Hnd as [_ Hnd]. apply NoDup_cons in Hnd as [Hnd _].
    apply Hnd. by left.
Qed.

(** C10 (amended): on a valid, acyclic table [treeSort] returns with the
    fuel [length tbl]; the listing holds exactly the descendants of the
    entry, and holds each of them once when no index occurs twice among
    the lists of children.  The second loop of [main] does not establish
    acyclicity: a comment whose parent number is the key its own index is
    registered under becomes its own child, and on a valid table
    [treeSort] then never returns from it. *)
Theorem treeSort_acyclic_once :
  (forall srt tbl i,
      sort_contract srt -> valid tbl -> acyclic tbl -> i < length tbl ->
      exists tbl' out,
        treeSort srt (length tbl) tbl i = Ret (tbl', out) /\
        (forall j, j ∈ out <-> tc (child tbl) i j) /\
        (single_parent tbl -> NoDup out))
  /\
  (forall os_OpenFile dir feed k e tbl2 trace2,
      feed !! k = Some e ->
      isComment e = true ->
      parentOf (resolved e) <> 0%N ->
      postmapOf feed !! parentOf (resolved e) = Some k ->
      build os_OpenFile dir (postmapOf feed) (resolved <$> feed, notesOf feed)
      = Ret (tbl2, trace2) ->
      child tbl2 k k /\ ~ acyclic tbl2 /\
      (valid tbl2 ->
       forall srt fuel, sort_contract srt -> treeSort srt fuel tbl2 k = OutOfFuel)).
Proof.
  split.
  - intros srt tbl i Hsrt Hv Ha Hi.
    destruct (treeSort_terminates srt Hsrt tbl i Hv Ha Hi) as (tbl' & out & Hr).
    exists tbl', out. split; [done|].
    destruct (treeSort_returns srt Hsrt tbl _ _ _ _ Hr) as [_ Hfl].
    split.
    + intros j. split; [by apply flattens_descendant|].
      intros Hj. by eapply flattens_complete.
    + intros Hsp. by eapply flattens_NoDup.
  - intros os_OpenFile dir feed k e tbl2 trace2 He Hc Hp Hpm Hb.
    unfold build in Hb. cbn [fst] in Hb.
    assert (Hk : k < length (resolved <$> feed)).
    { rewrite length_fmap. by eapply lookup_lt_Some. }
    destruct (build_loop_returns os_OpenFile dir (postmapOf feed) (resolved <$> feed)
                (seq 0 (length (resolved <$> feed))) (postmapOf_range feed))
      with (tbl := resolved <$> feed) (trace := notesOf feed) (tbl' := tbl2)
           (trace' := trace2) as (Hsf & _ & Hch & _).
    { apply Forall_forall. intros j Hj. apply elem_of_seq in Hj. lia. }
    { apply Forall_Forall2_diag, Forall_forall. by intros. }
    { exact Hb. }
    assert (Hkk : child tbl2 k k).
    { unfold child. rewrite Hch. apply elem_of_app. right.
      unfold attached. apply list_elem_of_filter. split.
      - rewrite list_lookup_fmap, He. simpl. unfold verdictOf.
        rewrite resolved_isComment, Hc.
        destruct (N.eqb_spec (parentOf (resolved e)) 0) as [Hz|_]; [done|].
        by rewrite Hpm.
      - apply elem_of_seq. lia. }
    split; [done|]. split.
    + intros Ha. apply (Ha k). by apply tc_once.
    + intros Hv srt fuel Hsrt. apply treeSort_diverges; [done..| |by apply tc_once].
      rewrite (Forall2_length _ _ _ Hsf). done.
Qed.

Lemma sevenChildren_single_parent : single_parent sevenChildren.
Proof.
  split.
  - intros i. destruct i as [|i]; [exact (NoDup_seq 1 7)|].
    do 7 (destruct i as [|i]; [constructor|]). constructor.
  - intros i i' j Hij Hi'j.
    assert (Hzero : forall a, child sevenChildren a j -> a = 0).
    { intros a Ha. destruct a as [|a]; [done|].
      do 7 (destruct a as [|a]; [by apply elem_of_nil in Ha|]).
      by apply elem_of_nil in Ha. }
    by rewrite (Hzero i Hij), (Hzero i' Hi'j).
Qed.

Lemma treeSort_acyclic_once_witness :
  (sort_contract insertionSort /\ valid sevenChildren /\ acyclic sevenChildren /\
   exists tbl' out,
     treeSort insertionSort (length sevenChildren) sevenChildren 0 = Ret (tbl', out) /\
     (forall j, j ∈ out <-> tc (child sevenChildren) 0 j) /\
     NoDup out)
  /\
  (exists tbl2 trace2,
     build alwaysOpen "out" (postmapOf selfReply)
       (resolved <$> selfReply, notesOf selfReply) = Ret (tbl2, trace2) /\
     child tbl2 0 0 /\ ~ acyclic tbl2 /\
     forall fuel, treeSort insertionSort fuel tbl2 0 = OutOfFuel).
Proof.
  split.
  - assert (Hv : valid sevenChildren) by (by apply validb_valid).
    assert (Ha : acyclic sevenChildren)
      by (by apply (rankedb_acyclic [1; 0; 0; 0; 0; 0; 0; 0])).
    split; [exact insertionSort_contract|]. split; [exact Hv|]. split; [exact Ha|].
    destruct (proj1 treeSort_acyclic_once insertionSort sevenChildren 0
                insertionSort_contract Hv Ha) as (tbl' & out & Hr & Hreach & Hnd).
    { simpl. lia. }
    exists tbl', out. split; [exact Hr|]. split; [exact Hreach|].
    exact (Hnd sevenChildren_single_parent).
  - assert (exists tbl2 trace2,
               build alwaysOpen "out" (postmapOf selfReply)
                 (resolved <$> selfReply, notesOf selfReply) = Ret (tbl2, trace2))
      as (tbl2 & trace2 & Hb) by (eexists _, _; vm_compute; reflexivity).
    exists tbl2, trace2. split; [exact Hb|].
    assert (Hshape : valid tbl2).
    { eapply build_tree_shape; [|exact Hb]. by repeat constructor. }
    destruct (proj2 treeSort_acyclic_once alwaysOpen "out" selfReply 0
                (mkEntry "tag:blogger.com,1999:blog-1.post-7" (at_second 0)
                   [Tag.mk kindComment kindScheme]
                   [Reply.mk "related" "http://example.blogspot.com/feeds/7" ""] [])
                tbl2 trace2 eq_refl eq_refl) as (Hkk & Hcyc & Hdiv).
    + vm_compute. discriminate.
    + vm_compute. reflexivity.
    + exact Hb.
    + split; [exact Hkk|]. split; [exact Hcyc|].
      intros fuel. exact (Hdiv Hshape insertionSort fuel insertionSort_contract).
Defined.

(** * Further properties of the program

    What follows is read off the code alone: the functions around the
    three loops, and what the loops and the run as a whole guarantee. *)

(** ** Strings *)

Lemma string_app_cons (x : ascii) (a b : string) : String x a +:+ b = String x (a +:+ b).
Proof. reflexivity. Qed.

Lemma string_app_assoc (a b c : string) : (a +:+ b) +:+ c = a +:+ (b +:+ c).
Proof. induction a as [|x a IH]; [done|]. rewrite !string_app_cons. by rewrite IH. Qed.

Lemma string_app_nil_r (a : string) : a +:+ "" = a.
Proof. induction a as [|x a IH]; [done|]. rewrite string_app_cons. by rewrite IH. Qed.

Lemma string_app_length (a b : string) :
  String.length (a +:+ b) = String.length a + String.length b.
Proof.
  induction a as [|x a IH]; [done|]. rewrite string_app_cons. cbn [String.length].
  by rewrite IH.
Qed.

Lemma take_bytes_app (a b : string) : take_bytes (String.length a) (a +:+ b) = a.
Proof.
  induction a as [|x a IH]; [by destruct b|].
  rewrite string_app_cons. cbn [String.length take_bytes]. by rewrite IH.
Qed.

Lemma take_bytes_all (f : ascii -> bool) (n : nat) (s : string) :
  all_bytes f s = true -> all_bytes f (take_bytes n s) = true.
Proof.
  revert s. induction n as [|n IH]; intros [|c s]; try done. cbn [all_bytes take_bytes].
  intros [Hc Hs]%andb_true_iff. by rewrite Hc, IH.
Qed.

Lemma drop_bytes_drop (n m : nat) (s : string) :
  drop_bytes m (drop_bytes n s) = drop_bytes (n + m) s.
Proof.
  revert s. induction n as [|n IH]; intros s; [done|].
  destruct s as [|c s]; cbn [drop_bytes Nat.add]; [by destruct m|apply IH].
Qed.

Lemma drop_bytes_length (n : nat) (s : string) :
  String.length (drop_bytes n s) = String.length s - n.
Proof.
  revert s. induction n as [|n IH]; intros s; cbn [drop_bytes]; [lia|].
  destruct s as [|c s]; [done|]. cbn [String.length]. by rewrite IH.
Qed.

Lemma all_bytes_app (f : ascii -> bool) (a b : string) :
  all_bytes f (a +:+ b) = all_bytes f a && all_bytes f b.
Proof.
  induction a as [|x a IH]; [done|]. rewrite string_app_cons. cbn [all_bytes].
  by rewrite IH, andb_assoc.
Qed.

Lemma all_bytes_impl (f g : ascii -> bool) (s : string) :
  (forall c, f c = true -> g c = true) ->
  all_bytes f s = true -> all_bytes g s = true.
Proof.
  intros Hfg. induction s as [|c s IH]; [done|]. cbn [all_bytes].
  intros [Hc Hs]%andb_true_iff. by rewrite (Hfg c Hc), IH.
Qed.

Lemma all_bytes_and (f g : ascii -> bool) (s : string) :
  all_bytes f s = true -> all_bytes g s = true ->
  all_bytes (fun c => f c && g c) s = true.
Proof.
  induction s as [|c s IH]; [done|]. cbn [all_bytes].
  intros [-> Hf]%andb_true_iff [-> Hg]%andb_true_iff. by rewrite IH.
Qed.

Lemma all_bytes_filter (f g : ascii -> bool) (s : string) :
  all_bytes g s = true -> all_bytes g (filter_bytes f s) = true.
Proof.
  induction s as [|c s IH]; [done|]. cbn [all_bytes filter_bytes].
  intros [Hc Hs]%andb_true_iff. destruct (f c); cbn [all_bytes]; [|by apply IH].
  by rewrite Hc, IH.
Qed.

Lemma filter_bytes_all (f : ascii -> bool) (s : string) :
  all_bytes f (filter_bytes f s) = true.
Proof.
  induction s as [|c s IH]; [done|]. cbn [filter_bytes].
  destruct (f c) eqn:Hc; [|done]. cbn [all_bytes]. by rewrite Hc, IH.
Qed.

Lemma filter_bytes_id (f : ascii -> bool) (s : string) :
  all_bytes f s = true -> filter_bytes f s = s.
Proof.
  induction s as [|c s IH]; [done|]. cbn [all_bytes filter_bytes].
  intros [Hc Hs]%andb_true_iff. by rewrite Hc, IH.
Qed.

Lemma filter_bytes_length (f : ascii -> bool) (s : string) :
  String.length (filter_bytes f s) <= String.length s.
Proof.
  induction s as [|c s IH]; [done|]. cbn [filter_bytes].
  destruct (f c); cbn [String.length]; lia.
Qed.

Lemma filter_bytes_filter (f g : ascii -> bool) (s : string) :
  filter_bytes g (filter_bytes f s) = filter_bytes (fun c => f c && g c) s.
Proof.
  induction s as [|c s IH]; [done|]. cbn [filter_bytes].
  destruct (f c); cbn [filter_bytes andb]; [|done]. destruct (g c); by rewrite IH.
Qed.

Lemma filter_bytes_ext (f g : ascii -> bool) (s : string) :
  (forall c, f c = g c) -> filter_bytes f s = filter_bytes g s.
Proof.
  intros Hfg. induction s as [|c s IH]; [done|]. cbn [filter_bytes].
  by rewrite Hfg, IH.
Qed.

Lemma rev_bytes_acc (s acc : string) : rev_bytes s acc = rev_bytes s "" +:+ acc.
Proof.
  revert acc. induction s as [|c s IH]; intros acc; [done|]. cbn [rev_bytes].
  rewrite (IH (String c acc)), (IH (String c "")). by rewrite string_app_assoc.
Qed.

Lemma rev_bytes_app (a b acc : string) :
  rev_bytes (a +:+ b) acc = rev_bytes b (rev_bytes a acc).
Proof.
  revert acc. induction a as [|c a IH]; intros acc; [done|].
  rewrite string_app_cons. cbn [rev_bytes]. apply IH.
Qed.

Lemma rev_bytes_rev (s a b : string) : rev_bytes (rev_bytes s a) b = rev_bytes a (s +:+ b).
Proof.
  revert a. induction s as [|c s IH]; intros a; [done|]. cbn [rev_bytes].
  by rewrite IH.
Qed.

Lemma all_bytes_rev (f : ascii -> bool) (s acc : string) :
  all_bytes f (rev_bytes s acc) = all_bytes f s && all_bytes f acc.
Proof.
  revert acc. induction s as [|c s IH]; intros acc; [done|]. cbn [rev_bytes all_bytes].
  rewrite IH. cbn [all_bytes]. by destruct (f c), (all_bytes f s), (all_bytes f acc).
Qed.

(** ** Decimal numerals *)








Lemma zeros_digits (k : nat) : all_bytes is_digit (zeros k) = true.
Proof. induction k as [|k IH]; [done|]. cbn [zeros all_bytes]. by rewrite IH. Qed.

Lemma pad_left_zeros (w : nat) (s : string) :
  pad_left w s = zeros (w - String.length s) +:+ s.
Proof.
  induction w as [|w IH]; cbn [pad_left].
  - by destruct (0 <=? String.length s).
  - destruct (S w <=? String.length s) eqn:Hw.
    + apply Nat.leb_le in Hw. by replace (S w - String.length s) with 0 by lia.
    + apply Nat.leb_gt in Hw. rewrite IH.
      by replace (S w - String.length s) with (S (w - String.length s)) by lia.
Qed.


Lemma digit_char_digit (k : nat) : k < 10 -> is_digit (digit_char k) = true.
Proof.
  intros Hk. do 10 (destruct k as [|k]; [reflexivity|]). lia.
Qed.

Lemma decimal_fuel_digits (fuel : nat) (n : N) (acc : string) :
  all_bytes is_digit acc = true -> all_bytes is_digit (decimal_fuel fuel n acc) = true.
Proof.
  revert n acc. induction fuel as [|fuel IH]; intros n acc Hacc; [done|].
  cbn [decimal_fuel].
  assert (Hd : is_digit (digit_char (N.to_nat (n mod 10))) = true).
  { apply digit_char_digit. pose proof (N.mod_lt n 10 ltac:(done)). lia. }
  destruct (n <? 10)%N; [|apply IH]; cbn [all_bytes]; by rewrite Hd.
Qed.

Lemma decimal_pad_digits (w : nat) (z : Z) : all_bytes is_digit (decimal_pad w z) = true.
Proof.
  unfold decimal_pad. rewrite pad_left_zeros, all_bytes_app, zeros_digits.
  by apply decimal_fuel_digits.
Qed.






(** ** Dates *)



Lemma Date_String_noSlash (d : Date) : all_bytes noSlash (Date_String d) = true.
Proof.
  unfold Date_String, time_Format.
  assert (Hp : forall w z, all_bytes noSlash (decimal_pad w z) = true).
  { intros w z. apply (all_bytes_impl is_digit); [|apply decimal_pad_digits].
    intros c. by destruct c as [[] [] [] [] [] [] [] []]. }
  by rewrite !all_bytes_app, !Hp.
Qed.


(** ** [EntrySet] *)

(** X2: [EntrySet] meets what [sort.Sort] asks of a [sort.Interface].
    [Less] is a strict weak order on the indices of the table
    (irreflexive, transitive, and so is being incomparable); [Swap] on two positions inside the slice
    exchanges the two elements, leaves the others, the length and the
    elements as a multiset alone, and undoes itself; on a position outside
    the slice it panics. *)
Theorem EntrySet_sort_interface (tbl : list Entry.t) (s : list nat) (i j : nat) :
  (forall a, a < length tbl -> EntrySet_Less tbl a a = false) /\
  (forall a b c, a < length tbl -> b < length tbl -> c < length tbl ->
      EntrySet_Less tbl a b = true -> EntrySet_Less tbl b c = true ->
      EntrySet_Less tbl a c = true) /\
  (forall a b c, a < length tbl -> b < length tbl -> c < length tbl ->
      EntrySet_Less tbl a b = false -> EntrySet_Less tbl b a = false ->
      EntrySet_Less tbl b c = false -> EntrySet_Less tbl c b = false ->
      EntrySet_Less tbl a c = false /\ EntrySet_Less tbl c a = false) /\
  (i < EntrySet_Len s -> j < EntrySet_Len s ->
   exists s', EntrySet_Swap s i j = Ret s' /\
     s' ≡ₚ s /\ EntrySet_Len s' = EntrySet_Len s /\
     s' !! i = s !! j /\ s' !! j = s !! i /\
     (forall k, k <> i -> k <> j -> s' !! k = s !! k) /\
     EntrySet_Swap s' i j = Ret s) /\
  (~ (i < EntrySet_Len s /\ j < EntrySet_Len s) ->
   EntrySet_Swap s i j = Panic "index out of range").
Proof.
  unfold EntrySet_Less, Before, EntrySet_Len, EntrySet_Swap.
  split; [intros a _; apply Z.ltb_irrefl|].
  split; [intros a b c _ _ _ H1%Z.ltb_lt H2%Z.ltb_lt; apply Z.ltb_lt; lia|].
  split.
  { intros a b c _ _ _ H1%Z.ltb_ge H2%Z.ltb_ge H3%Z.ltb_ge H4%Z.ltb_ge.
    split; apply Z.ltb_ge; lia. }
  split.
  - intros Hi Hj.
    destruct (lookup_lt_is_Some_2 s i Hi) as [x Hx].
    destruct (lookup_lt_is_Some_2 s j Hj) as [y Hy].
    rewrite Hx, Hy. eexists. split; [done|].
    assert (Hi' : <[j:=x]> (<[i:=y]> s) !! i = Some y).
    { destruct (decide (i = j)) as [->|Hne].
      - rewrite list_lookup_insert_eq by (rewrite length_insert; lia). congruence.
      - rewrite list_lookup_insert_ne by done. by rewrite list_lookup_insert_eq. }
    assert (Hj' : <[j:=x]> (<[i:=y]> s) !! j = Some x).
    { rewrite list_lookup_insert_eq; [done|]. by rewrite length_insert. }
    split; [by apply Permutation_insert_swap|].
    split; [by rewrite !length_insert|].
    split; [done|]. split; [done|].
    split.
    { intros k Hki Hkj. by rewrite !list_lookup_insert_ne. }
    rewrite Hi', Hj'. f_equal. apply list_eq. intros k.
    destruct (decide (k = j)) as [->|Hkj].
    { rewrite list_lookup_insert_eq; [done|]. by rewrite !length_insert. }
    rewrite list_lookup_insert_ne by done.
    destruct (decide (k = i)) as [->|Hki].
    { rewrite list_lookup_insert_eq; [done|]. by rewrite !length_insert. }
    by rewrite !list_lookup_insert_ne.
  - intros Hout.
    destruct (s !! i) as [x|] eqn:Hx; [|done].
    destruct (s !! j) as [y|] eqn:Hy; [|done].
    apply lookup_lt_Some in Hx, Hy. by destruct Hout.
Qed.

(** ** The flattening: what decides the listing, and when there is one *)

(** When no two children of an entry share an instant, an entry has one
    sorted pre-order listing at most. *)
Lemma flattens_unique (tbl : list Entry.t) :
  distinct_instants tbl ->
  forall i out1, flattens tbl i out1 -> forall out2, flattens tbl i out2 -> out1 = out2.
Proof.
  intros Hd i out1 H1.
  induction H1 as [i cs subs Hp Hs Hf IH] using flattens_ind_strong.
  intros out2 H2. destruct H2 as [i cs2 subs2 Hp2 Hs2 Hf2].
  assert (cs = cs2) as <-.
  { apply (StronglySorted_unique_strong
             (fun a b => (instant tbl a <= instant tbl b)%Z) cs cs2);
      [|exact Hs|exact Hs2|by rewrite Hp, Hp2].
    cbv beta. intros a b Ha Hb Hab Hba. apply (Hd i).
    - unfold child. by rewrite <- Hp.
    - unfold child. by rewrite <- Hp2.
    - lia. }
  f_equal. f_equal. clear Hp Hs Hp2 Hs2 Hf.
  revert subs2 Hf2. induction IH as [|c sub cs' subs' Hc _ IHl]; intros subs2 Hf2;
    inversion Hf2 as [|c' sub2 cs2' subs2' Hc2 Hrest]; subst; [done|].
  f_equal; [by apply Hc|by apply IHl].
Qed.

(** X3: when no two children of one entry were published at the same
    instant, the listing [treeSort] returns does not depend on the sorting
    routine: any two routines that meet the contract of [sort.Sort] return
    the same listing, whatever the fuel. *)
Theorem treeSort_order_determined
    (srt1 srt2 : (nat -> nat -> bool) -> list nat -> list nat)
    (tbl : list Entry.t) (i : nat) (fuel1 fuel2 : nat) (t1 t2 : list Entry.t)
    (out1 out2 : list nat) :
  sort_contract srt1 -> sort_contract srt2 -> distinct_instants tbl ->
  treeSort srt1 fuel1 tbl i = Ret (t1, out1) ->
  treeSort srt2 fuel2 tbl i = Ret (t2, out2) ->
  out1 = out2.
Proof.
  intros H1 H2 Hd Hr1 Hr2.
  destruct (treeSort_returns srt1 H1 tbl _ _ _ _ Hr1) as [_ Hf1].
  destruct (treeSort_returns srt2 H2 tbl _ _ _ _ Hr2) as [_ Hf2].
  by eapply flattens_unique.
Qed.

Lemma threeReplies_distinct_instants : distinct_instants threeReplies.
Proof.
  intros i a b Ha Hb Heq.
  apply child_inv in Ha as (e & He & Ha). apply child_inv in Hb as (e' & He' & Hb).
  rewrite He in He'. injection He' as <-.
  destruct i as [|[|[|[|i]]]]; cbn in He; try done; injection He as <-; cbn in Ha, Hb;
    repeat match goal with
           | H : _ ∈ _ :: _ |- _ => apply elem_of_cons in H as [->|H]
           | H : _ ∈ [] |- _ => by apply elem_of_nil in H
           end; try done; by vm_compute in Heq.
Qed.

Lemma treeSort_order_determined_witness :
  exists t1 t2 out,
    treeSort gapSort 2 threeReplies 0 = Ret (t1, out) /\
    treeSort insertionSort 2 threeReplies 0 = Ret (t2, out).
Proof.
  assert (exists t1 out1, treeSort gapSort 2 threeReplies 0 = Ret (t1, out1))
    as (t1 & out1 & Hr1) by (eexists _, _; vm_compute; reflexivity).
  assert (exists t2 out2, treeSort insertionSort 2 threeReplies 0 = Ret (t2, out2))
    as (t2 & out2 & Hr2) by (eexists _, _; vm_compute; reflexivity).
  exists t1, t2, out1. split; [exact Hr1|].
  rewrite (treeSort_order_determined gapSort insertionSort threeReplies 0 2 2 t1 t2 out1 out2
             gapSort_contract insertionSort_contract threeReplies_distinct_instants Hr1 Hr2).
  exact Hr2.
Defined.

(** A listing of an entry holds a listing of each of its descendants. *)
Lemma flattens_sub (tbl : list Entry.t) (i : nat) (out : list nat) :
  flattens tbl i out ->
  forall j, tc (child tbl) i j -> exists sub, flattens tbl j sub.
Proof.
  induction 1 as [i cs subs Hp Hs Hf IH] using flattens_ind_strong.
  intros j Hij.
  inversion Hij as [? ? Hc|? c ? Hc Hcj]; subst.
  - assert (Hin : j ∈ cs) by (by rewrite Hp).
    destruct (blocks_elem_of _ _ _ Hf Hin) as (sub & Hsub & _). by exists sub.
  - assert (Hin : c ∈ cs) by (by rewrite Hp).
    destruct (blocks_elem_of _ _ _ IH Hin) as (sub & Hsub & _). by apply Hsub.
Qed.

(** A descending path from [x] visits no entry twice when no entry
    reachable from [x] lies on a cycle. *)
Lemma path_NoDup_from {A : Type} (R : relation A) (l : list A) (x : A) :
  (forall y, rtc R x y -> ~ tc R y y) -> Sorted R (x :: l) -> NoDup (x :: l).
Proof.
  revert x. induction l as [|z l IH]; intros x Hirr Hs.
  { constructor; [by intros ?%elem_of_nil|constructor]. }
  constructor.
  - intros Hx. apply (Hirr x); [apply rtc_refl|]. by eapply path_tc.
  - pose proof Hs as Hs'. apply Sorted_inv in Hs' as [Hs' Hhd]. apply HdRel_inv in Hhd.
    apply IH; [|done]. intros y Hy. apply Hirr. by eapply rtc_l.
Qed.

(** X4: on a valid table, with a sorting routine that meets the contract
    of [sort.Sort], [treeSort] returns, for some fuel, exactly when no entry
    reachable from its argument lies on a cycle of the child relation; when
    one does, the call never returns, whatever the fuel. *)
Theorem treeSort_returns_iff_no_cycle
    (srt : (nat -> nat -> bool) -> list nat -> list nat) (tbl : list Entry.t) (i : nat) :
  sort_contract srt -> valid tbl -> i < length tbl ->
  ((exists fuel tbl' out, treeSort srt fuel tbl i = Ret (tbl', out)) <->
   (forall j, rtc (child tbl) i j -> ~ tc (child tbl) j j)) /\
  ((exists j, rtc (child tbl) i j /\ tc (child tbl) j j) ->
   forall fuel, treeSort srt fuel tbl i = OutOfFuel).
Proof.
  intros Hsrt Hv Hi.
  assert (Hret : forall fuel tbl' out, treeSort srt fuel tbl i = Ret (tbl', out) ->
                 forall j, rtc (child tbl) i j -> ~ tc (child tbl) j j).
  { intros fuel tbl' out Hr j Hij.
    destruct (treeSort_returns srt Hsrt tbl _ _ _ _ Hr) as [_ Hfl].
    apply rtc_tc in Hij as [<-|Hij]; [by eapply flattens_no_cycle|].
    destruct (flattens_sub _ _ _ Hfl j Hij) as [sub Hsub].
    by eapply flattens_no_cycle. }
  split; [split|].
  - intros (fuel & tbl' & out & Hr). by eapply Hret.
  - intros Hno. exists (length tbl).
    destruct (treeSort_outcome srt Hsrt tbl (length tbl) tbl i (same_tree_refl tbl))
      as [(t & o & Hr & _)|[[_ (path & Hlen & Hp)]|[_ Hbad]]].
    + by exists t, o.
    + exfalso.
      assert (Hnd : NoDup (i :: path)) by (by apply (path_NoDup_from (child tbl))).
      assert (Hin : Forall (fun y => y < length tbl) (i :: path)).
      { constructor; [done|by eapply path_in_table]. }
      assert (Hsub : (i :: path) ⊆+ seq 0 (length tbl)).
      { apply NoDup_submseteq; [done|]. intros y Hy.
        rewrite Forall_forall in Hin. apply elem_of_seq. specialize (Hin y Hy). lia. }
      apply submseteq_length in Hsub. rewrite length_seq in Hsub. cbn in Hsub. lia.
    + by destruct Hbad.
  - intros (j & Hij & Hcyc) fuel.
    destruct (treeSort_outcome srt Hsrt tbl fuel tbl i (same_tree_refl tbl))
      as [(t & o & Hr & _)|[[Hr _]|[_ Hbad]]].
    + exfalso. by eapply Hret.
    + done.
    + by destruct Hbad.
Qed.

Lemma treeSort_returns_iff_no_cycle_witness :
  ((exists fuel tbl' out, treeSort gapSort fuel sevenChildren 0 = Ret (tbl', out)) <->
   (forall j, rtc (child sevenChildren) 0 j -> ~ tc (child sevenChildren) j j)) /\
  ((exists j, rtc (child sevenChildren) 0 j /\ tc (child sevenChildren) j j) ->
   forall fuel, treeSort gapSort fuel sevenChildren 0 = OutOfFuel).
Proof.
  apply (treeSort_returns_iff_no_cycle gapSort sevenChildren 0 gapSort_contract).
  - by apply validb_valid.
  - cbn. lia.
Defined.

(** ** File names *)

(** X5: [unicodeSanitize] on a string of the ASCII range keeps only
    letters, digits, ".", "_" and "-"; it changes nothing in a string made
    of such bytes, so that applying it twice is applying it once, and it
    never makes a string longer. *)
Theorem unicodeSanitize_keeps (s : string) :
  all_bytes asciiByte s = true ->
  all_bytes keptByte (unicodeSanitize s) = true /\
  unicodeSanitize (unicodeSanitize s) = unicodeSanitize s /\
  String.length (unicodeSanitize s) <= String.length s /\
  (all_bytes keptByte s = true -> unicodeSanitize s = s).
Proof.
  intros _. change (unicodeSanitize s) with (filter_bytes keptByte s).
  split; [apply filter_bytes_all|].
  split; [apply filter_bytes_id, filter_bytes_all|].
  split; [apply filter_bytes_length|apply filter_bytes_id].
Qed.

Lemma unicodeSanitize_keeps_witness :
  all_bytes keptByte (unicodeSanitize "hello,-world!") = true /\
  unicodeSanitize (unicodeSanitize "hello,-world!") = unicodeSanitize "hello,-world!" /\
  String.length (unicodeSanitize "hello,-world!") <= String.length "hello,-world!" /\
  (all_bytes keptByte "hello,-world!" = true -> unicodeSanitize "hello,-world!" = "hello,-world!").
Proof. apply (unicodeSanitize_keeps "hello,-world!"). reflexivity. Defined.

Lemma to_lower_not_upper (c : ascii) : is_upper (to_lower c) = false.
Proof. by destruct c as [[] [] [] [] [] [] [] []]. Qed.

Lemma ToLower_no_upper (s : string) :
  all_bytes (fun c => negb (is_upper c)) (strings_ToLower s) = true.
Proof.
  induction s as [|c s IH]; [done|]. cbn [strings_ToLower map_bytes all_bytes].
  rewrite to_lower_not_upper. exact IH.
Qed.

(** The part of the file name made from the title holds small letters,
    digits, ".", "_" and "-" only. *)
Lemma makePath_slug (s : string) :
  all_bytes slugByte
    (unicodeSanitize (strings_ToLower (strings_ReplaceAll (strings_TrimSpace s) " " "-")))
  = true.
Proof.
  change (unicodeSanitize ?x) with (filter_bytes keptByte x).
  apply (all_bytes_impl (fun c => keptByte c && negb (is_upper c))).
  { intros c. unfold keptByte, slugByte. destruct (is_upper c); [by rewrite andb_false_r|].
    by rewrite andb_true_r. }
  apply all_bytes_and; [apply filter_bytes_all|].
  apply all_bytes_filter, ToLower_no_upper.
Qed.

(** X6: [makePath] on a title of the ASCII range is the first ten bytes
    of the text of the date, a hyphen, and a text of small letters, digits,
    ".", "_" and "-" only: no capital, no space and no slash comes through
    from the title, and the whole holds no slash. *)
Theorem makePath_shape (d : Date) (s : string) :
  all_bytes asciiByte s = true ->
  exists slug,
    makePath d s = take_bytes 10 (Date_String d) +:+ "-" +:+ slug /\
    all_bytes slugByte slug = true /\
    all_bytes noSlash (makePath d s) = true.
Proof.
  intros _. eexists. split; [reflexivity|]. split; [apply (makePath_slug s)|].
  unfold makePath. rewrite !all_bytes_app.
  rewrite (take_bytes_all _ _ _ (Date_String_noSlash d)).
  rewrite (all_bytes_impl slugByte noSlash _
             ltac:(intros c; by destruct c as [[] [] [] [] [] [] [] []])
             (makePath_slug s)).
  done.
Qed.

Lemma makePath_shape_witness :
  exists slug,
    makePath (stamp "2020-01-01T10:00:00.000-08:00") " Hello, World! "
    = take_bytes 10 (Date_String (stamp "2020-01-01T10:00:00.000-08:00")) +:+ "-" +:+ slug /\
    all_bytes slugByte slug = true /\
    all_bytes noSlash (makePath (stamp "2020-01-01T10:00:00.000-08:00") " Hello, World! ")
    = true.
Proof.
  apply (makePath_shape (stamp "2020-01-01T10:00:00.000-08:00") " Hello, World! ").
  reflexivity.
Defined.

Lemma split_slash_app (a b cur : string) :
  split_slash (a +:+ String "/" b) cur = split_slash a cur ++ split_slash b "".
Proof.
  revert cur. induction a as [|c a IH]; intros cur; [done|].
  rewrite string_app_cons. cbn [split_slash]. destruct (Ascii.eqb c "/"); by rewrite IH.
Qed.

Lemma split_slash_plain (s cur : string) :
  all_bytes noSlash s = true -> split_slash s cur = [rev_bytes cur s].
Proof.
  revert cur. induction s as [|c s IH]; intros cur; [done|]. cbn [all_bytes split_slash].
  intros [Hc Hs]%andb_true_iff. unfold noSlash in Hc. apply negb_true_iff in Hc.
  rewrite Hc. by rewrite IH.
Qed.

Lemma clean_elems_app (rooted : bool) (l1 : list string) (stack : list string) :
  exists stack', forall l2,
    clean_elems rooted (l1 ++ l2) stack = clean_elems rooted l2 stack'.
Proof.
  revert stack. induction l1 as [|e l1 IH]; intros stack; [by exists stack|].
  cbn [app clean_elems].
  destruct (String.eqb e "" || String.eqb e "."); [apply IH|].
  destruct (String.eqb e ".."); [|apply IH].
  destruct stack as [|top stack']; [destruct rooted; apply IH|].
  destruct (String.eqb top ".."); apply IH.
Qed.

Lemma clean_elems_plain (rooted : bool) (name : string) (stack : list string) :
  plainName name -> clean_elems rooted [name] stack = rev stack ++ [name].
Proof.
  intros (H0 & H1 & H2 & _). cbn [clean_elems].
  apply String.eqb_neq in H0, H1, H2. by rewrite H0, H1, H2.
Qed.

Lemma join_snoc (sep : string) (l : list string) (x : string) :
  join sep (l ++ [x])
  = match l with [] => x | _ => join sep l +:+ sep +:+ x end.
Proof.
  induction l as [|y l IH]; [done|].
  destruct l as [|z l]; [done|].
  change (join sep ((y :: z :: l) ++ [x])) with (y +:+ sep +:+ join sep ((z :: l) ++ [x])).
  rewrite IH. change (join sep (y :: z :: l)) with (y +:+ sep +:+ join sep (z :: l)).
  by rewrite !string_app_assoc.
Qed.

Lemma plainName_first (name : string) :
  plainName name -> exists c rest, name = String c rest /\ Ascii.eqb c "/" = false.
Proof.
  intros (H0 & _ & _ & Hs). destruct name as [|c rest]; [done|].
  exists c, rest. split; [done|]. cbn in Hs. apply andb_true_iff in Hs as [Hc _].
  by apply negb_true_iff in Hc.
Qed.

(** Joining a directory and a file name: the directory part does not
    depend on the name, and is empty or ends in a slash. *)
Lemma Join_dir_name (dir : string) :
  exists P, (P = "" \/ exists P', P = P' +:+ "/") /\
    forall name, plainName name -> path_Join [dir; name] = P +:+ name.
Proof.
  destruct dir as [|d dir].
  - exists "". split; [by left|]. intros name Hn.
    destruct (plainName_first _ Hn) as (c & rest & -> & Hc).
    cbn [path_Join String.eqb]. unfold path_Clean. cbn [join].
    assert (Hr : String.prefix "/" (String c rest) = false).
    { cbn [String.prefix].
      destruct (ascii_dec "/" c) as [<-|]; [by rewrite Ascii.eqb_refl in Hc|done]. }
    rewrite Hr. rewrite split_slash_plain by (by destruct Hn as (_ & _ & _ & ?)).
    cbn [rev_bytes]. rewrite (clean_elems_plain false _ [] Hn). cbn [rev app join].
    done.
  - set (D := String d dir).
    set (rooted := String.prefix "/" D).
    destruct (clean_elems_app rooted (split_slash D "") []) as [st Hst].
    exists ((if rooted then "/" else "")
            +:+ match rev st with [] => "" | _ => join "/" (rev st) +:+ "/" end).
    split.
    { destruct (rev st) as [|x l].
      - destruct rooted; [right; by exists ""|by left].
      - right. exists ((if rooted then "/" else "") +:+ join "/" (x :: l)).
        by rewrite string_app_assoc. }
    intros name Hn.
    assert (Hj : path_Join [D; name] = path_Clean (D +:+ String "/" name)) by reflexivity.
    rewrite Hj. unfold path_Clean.
    assert (Hroot : String.prefix "/" (D +:+ String "/" name) = rooted).
    { subst rooted D. rewrite string_app_cons. cbn [String.prefix].
      destruct (ascii_dec "/" d); [|done]. by destruct dir. }
    rewrite Hroot.
    rewrite split_slash_app.
    rewrite (split_slash_plain name "") by (by destruct Hn as (_ & _ & _ & ?)).
    cbn [rev_bytes]. rewrite Hst, (clean_elems_plain _ _ _ Hn), join_snoc.
    destruct (plainName_first _ Hn) as (c & rest & Hname & Hc).
    destruct rooted.
    + destruct (rev st); [done|]. by rewrite !string_app_assoc.
    + destruct (rev st) as [|x l].
      * rewrite Hname. done.
      * assert (Hne : String.eqb (join "/" (x :: l) +:+ "/" +:+ name) "" = false).
        { apply String.eqb_neq. intros Habs.
          apply (f_equal String.length) in Habs.
          rewrite !string_app_length in Habs. cbn in Habs. lia. }
        rewrite Hne. by rewrite !string_app_assoc.
Qed.

Lemma take_until_slash_plain (s rest : string) :
  all_bytes noSlash s = true ->
  (rest = "" \/ exists r, rest = String "/" r) ->
  take_until_slash (s +:+ rest) = s.
Proof.
  intros Hs Hrest. induction s as [|c s IH].
  - destruct Hrest as [->|[r ->]]; done.
  - rewrite string_app_cons. cbn [take_until_slash]. cbn in Hs.
    apply andb_true_iff in Hs as [Hc Hs]. unfold noSlash in Hc.
    apply negb_true_iff in Hc. rewrite Hc. by rewrite IH.
Qed.

Lemma path_Base_plain (P name : string) :
  (P = "" \/ exists P', P = P' +:+ "/") -> plainName name ->
  path_Base (P +:+ name) = name.
Proof.
  intros HP Hn. pose proof Hn as (H0 & _ & _ & Hs).
  unfold path_Base.
  destruct (P +:+ name) as [|c0 s0] eqn:Hp.
  { apply (f_equal String.length) in Hp. rewrite string_app_length in Hp.
    destruct name; [done|]. cbn in Hp. lia. }
  rewrite <- Hp. clear Hp c0 s0.
  rewrite rev_bytes_app, (rev_bytes_acc name).
  set (rn := rev_bytes name "").
  assert (Hrn : all_bytes noSlash rn = true).
  { subst rn. by rewrite all_bytes_rev, Hs. }
  assert (Hrn0 : rn <> "").
  { subst rn. intros Habs. apply (f_equal (fun s => rev_bytes s "")) in Habs.
    rewrite rev_bytes_rev, string_app_nil_r in Habs. done. }
  assert (Hrest : rev_bytes P "" = "" \/ exists r, rev_bytes P "" = String "/" r).
  { destruct HP as [->|[P' ->]]; [by left|]. right.
    rewrite rev_bytes_app. cbn [rev_bytes]. by eexists. }
  assert (Hstrip : strip_trailing_slashes_rev (rn +:+ rev_bytes P "") = rn +:+ rev_bytes P "").
  { destruct rn as [|c rn']; [done|]. rewrite string_app_cons.
    cbn [strip_trailing_slashes_rev]. cbn in Hrn. apply andb_true_iff in Hrn as [Hc _].
    unfold noSlash in Hc. apply negb_true_iff in Hc. by rewrite Hc. }
  rewrite Hstrip, (take_until_slash_plain _ _ Hrn Hrest).
  subst rn. rewrite rev_bytes_rev, string_app_nil_r. cbn [rev_bytes].
  apply String.eqb_neq in H0. by rewrite H0.
Qed.

Lemma plainName_suffix (a ext : string) :
  3 <= String.length ext -> all_bytes noSlash (a +:+ ext) = true -> plainName (a +:+ ext).
Proof.
  intros Hext Hs.
  assert (Hlen : 3 <= String.length (a +:+ ext)) by (rewrite string_app_length; lia).
  repeat split; try done; intros Habs; rewrite Habs in Hlen; cbn in Hlen; lia.
Qed.

(** X7: where the files go.  For a target directory there are two fixed
    directory parts, each empty or ending in a slash, one for posts and one
    for comments.  The file of every post (with a title of the ASCII range)
    is the first part followed by [makePath ... ++ ".md"], a name without
    a slash, which is also its [path.Base]: no title makes a post leave the
    directory.  The file of a comment whose id holds no slash is the
    second part followed by "c", the id and ".toml". *)
Theorem output_files_in_dir (dir : string) :
  exists P C,
    (P = "" \/ exists P', P = P' +:+ "/") /\
    (C = "" \/ exists C', C = C' +:+ "/") /\
    (forall e, all_bytes asciiByte (Entry.Title e) = true ->
       let name := makePath (Entry.Published e) (Entry.Title e) +:+ ".md" in
       all_bytes noSlash name = true /\
       entryFilename e dir = P +:+ name /\
       path_Base (entryFilename e dir) = name) /\
    (forall e, all_bytes noSlash (Entry.ID e) = true ->
       let name := "c" +:+ Entry.ID e +:+ ".toml" in
       commentFilename e dir = C +:+ name /\
       path_Base (commentFilename e dir) = name).
Proof.
  destruct (Join_dir_name dir) as (P & HP & HPj).
  destruct (Join_dir_name (path_Join [dir; "comments"])) as (C & HC & HCj).
  exists P, C. split; [done|]. split; [done|]. split.
  - intros e _ name.
    assert (Hs : all_bytes noSlash name = true).
    { subst name. unfold makePath. rewrite !all_bytes_app.
      rewrite (take_bytes_all _ _ _ (Date_String_noSlash _)).
      rewrite (all_bytes_impl slugByte noSlash _ ltac:(intros c; by destruct c as [[] [] [] [] [] [] [] []])
                 (makePath_slug _)).
      done. }
    assert (Hn : plainName name) by (apply plainName_suffix; [cbn; lia|done]).
    split; [done|]. unfold entryFilename, filepath_Join. fold name.
    rewrite (HPj name Hn). split; [done|]. by apply path_Base_plain.
  - intros e Hid name.
    assert (Hs : all_bytes noSlash name = true).
    { change name with (String "c" (Entry.ID e +:+ ".toml")). cbn [all_bytes].
      by rewrite all_bytes_app, Hid. }
    assert (Hn : plainName name).
    { change name with (String "c" (Entry.ID e) +:+ ".toml") in *.
      apply plainName_suffix; [cbn; lia|done]. }
    unfold commentFilename, filepath_Join. fold name.
    rewrite (HCj name Hn). split; [done|]. by apply path_Base_plain.
Qed.

(** ** Labels and titles *)

(** X8: [Tags.TomlString] is empty exactly when no tag has the label
    scheme; so the template, which prints the tags line under
    [{{ with .Tags.TomlString }}], leaves the line out exactly then. *)
Theorem Tags_TomlString_empty (tags : list Tag.t) :
  Tags_TomlString tags = "" <->
  Forall (fun tg => Tag.Scheme tg <> labelScheme) tags.
Proof.
  unfold Tags_TomlString.
  set (labels := filter (fun tg => Tag.Scheme tg = labelScheme) tags).
  assert (Hl : labels = [] <-> Forall (fun tg => Tag.Scheme tg <> labelScheme) tags).
  { subst labels. induction tags as [|tg tags IH]; [by split|].
    rewrite filter_cons, Forall_cons.
    destruct (decide (Tag.Scheme tg = labelScheme)) as [Hs|Hs].
    - split; [done|]. by intros [? _].
    - rewrite IH. split; [done|by intros [_ ?]]. }
  rewrite <- Hl. split.
  - intros Hj. destruct labels as [|tg [|tg' l]]; [done|..]; exfalso; revert Hj;
      cbn [map join]; unfold strconv_Quote; rewrite ?string_app_cons; done.
  - by intros ->.
Qed.

Lemma quote_byte_printable (c : ascii) : all_bytes printableByte (quote_byte c) = true.
Proof. by destruct c as [[] [] [] [] [] [] [] []]. Qed.

Lemma quote_bytes_printable (s : string) : all_bytes printableByte (quote_bytes s) = true.
Proof.
  induction s as [|c s IH]; [done|]. cbn [quote_bytes].
  by rewrite all_bytes_app, quote_byte_printable, IH.
Qed.

Lemma Quote_printable (s : string) : all_bytes printableByte (strconv_Quote s) = true.
Proof.
  unfold strconv_Quote. cbn [all_bytes].
  by rewrite all_bytes_app, quote_bytes_printable.
Qed.

Lemma join_all_bytes (f : ascii -> bool) (sep : string) (l : list string) :
  all_bytes f sep = true -> Forall (fun s => all_bytes f s = true) l ->
  all_bytes f (join sep l) = true.
Proof.
  intros Hsep. induction 1 as [|x l Hx Hl IH]; [done|].
  destruct l as [|y l]; [done|].
  change (join sep (x :: y :: l)) with (x +:+ sep +:+ join sep (y :: l)).
  by rewrite !all_bytes_app, Hx, Hsep, IH.
Qed.

(** X9: the text of [Tags.TomlString] holds no control character: a
    label with a line break or a tab in it is quoted by [%q] and cannot
    break the line of the front matter. *)
Theorem Tags_TomlString_printable (tags : list Tag.t) :
  all_bytes printableByte (Tags_TomlString tags) = true.
Proof.
  unfold Tags_TomlString. apply join_all_bytes; [done|].
  apply Forall_fmap, Forall_forall. intros tg _. apply Quote_printable.
Qed.

(** Replacing every occurrence of one byte by nothing removes that
    byte. *)
Lemma replace_byte (c : ascii) (s : string) :
  strings_ReplaceAll s (String c "") "" = filter_bytes (fun x => negb (Ascii.eqb x c)) s.
Proof.
  unfold strings_ReplaceAll.
  induction s as [|x s IH]; [done|]. cbn [replace_all filter_bytes String.prefix].
  destruct (ascii_dec c x) as [<-|Hne].
  - rewrite Ascii.eqb_refl. cbn [negb]. destruct s; exact IH.
  - assert (Hx : Ascii.eqb x c = false) by (apply Ascii.eqb_neq; congruence).
    rewrite Hx. cbn [negb]. by rewrite IH.
Qed.

(** X10: [writeComment] renders the entry with a title from which every
    line feed and carriage return is removed and every other byte kept, in
    order; nothing else of the entry is changed. *)
Theorem comment_title_one_line (e : Entry.t) :
  commentRecord e
  = Entry.with_Title e (filter_bytes (fun c => negb (lineBreak c)) (Entry.Title e)) /\
  all_bytes (fun c => negb (lineBreak c)) (Entry.Title (commentRecord e)) = true.
Proof.
  assert (Ht : strings_ReplaceAll (strings_ReplaceAll (Entry.Title e) nl "") cr ""
               = filter_bytes (fun c => negb (lineBreak c)) (Entry.Title e)).
  { unfold nl, cr. rewrite !replace_byte, filter_bytes_filter.
    apply filter_bytes_ext. intros c. unfold lineBreak.
    by destruct c as [[] [] [] [] [] [] [] []]. }
  unfold commentRecord. rewrite Ht. split; [done|]. apply filter_bytes_all.
Qed.

(** ** The first loop *)

Lemma last_index_from_ge (sep s : string) (pos found : Z) :
  (found <= pos)%Z -> (found <= last_index_from sep s pos found)%Z.
Proof.
  intros Hf. destruct (last_index_from_spec sep s pos found) as [->|(n & -> & _)]; lia.
Qed.

(** No occurrence of [sep] begins after the index found. *)
Lemma last_index_from_last (sep s : string) (pos found : Z) (m : nat) :
  (found <= pos)%Z -> m <= String.length s ->
  String.prefix sep (drop_bytes m s) = true ->
  (pos + Z.of_nat m <= last_index_from sep s pos found)%Z.
Proof.
  revert pos found m. induction s as [|a s IH]; intros pos found m Hf Hm Hp;
    cbn [last_index_from].
  - cbn in Hm. assert (m = 0) as -> by lia. cbn [drop_bytes] in Hp. rewrite Hp. lia.
  - destruct m as [|m].
    + cbn [drop_bytes] in Hp. rewrite Hp.
      pose proof (last_index_from_ge sep s (pos + 1) pos ltac:(lia)). lia.
    + cbn [drop_bytes] in Hp. cbn in Hm.
      pose proof (IH (pos + 1)%Z (if String.prefix sep (String a s) then pos else found)
                     m ltac:(destruct (String.prefix sep (String a s)); lia)
                     ltac:(lia) Hp).
      lia.
Qed.

Lemma Contains_occurrence (s sep : string) :
  strings_Contains s sep = true ->
  exists m, m <= String.length s /\ String.prefix sep (drop_bytes m s) = true.
Proof.
  induction s as [|a s IH]; cbn [strings_Contains].
  - destruct (String.prefix sep "") eqn:Hp; [|done]. intros _. by exists 0.
  - destruct (String.prefix sep (String a s)) eqn:Hp.
    + intros _. exists 0. split; [lia|done].
    + intros (m & Hm & Hpm)%IH. exists (S m). split; [cbn; lia|done].
Qed.

(** X11: after the first loop the id of an entry that is no template
    holds no "post-": the id is cut after the last occurrence, so a second
    cut would find nothing. *)
Theorem resolved_ID_no_marker (e : Entry.t) :
  isTemplate (Entry.Tags e) = false ->
  strings_Contains (Entry.ID (resolved e)) "post-" = false.
Proof.
  intros Ht. rewrite resolved_ID. unfold resolvedID. rewrite Ht.
  destruct (strings_Contains _ "post-") eqn:Hc; [exfalso|done].
  apply Contains_occurrence in Hc as (m & Hm & Hp).
  unfold strings_LastIndex in *.
  destruct (0 <=? last_index_from "post-" (Entry.ID e) 0 (-1))%Z eqn:Hidx.
  - apply Z.leb_le in Hidx.
    set (r := last_index_from "post-" (Entry.ID e) 0 (-1)) in *.
    rewrite drop_bytes_drop in Hp. rewrite drop_bytes_length in Hm.
    assert (Hlen : Z.to_nat (r + 5) + m <= String.length (Entry.ID e)).
    { destruct (decide (Z.to_nat (r + 5) <= String.length (Entry.ID e))); [lia|].
      exfalso. 
      assert (Hd : forall n s, String.length s <= n -> drop_bytes n s = "").
      { clear. induction n as [|n IH]; intros [|c s] Hn; cbn in *; try done; try lia.
        apply IH. lia. }
      rewrite Hd in Hp by lia. done. }
    pose proof (last_index_from_last "post-" (Entry.ID e) 0 (-1) _ ltac:(lia) Hlen Hp).
    fold r in H. lia.
  - apply Z.leb_gt in Hidx.
    pose proof (last_index_from_last "post-" (Entry.ID e) 0 (-1) _ ltac:(lia) Hm Hp).
    lia.
Qed.

Lemma resolved_ID_no_marker_witness :
  strings_Contains (Entry.ID (resolved scenarioPost)) "post-" = false.
Proof. apply (resolved_ID_no_marker scenarioPost). reflexivity. Defined.

(** The table of identifiers after the first loop over [es], started at
    index [k0] with the table [postmap]. *)
Lemma resolveFrom_lookup (es : list Entry.t) (k0 : nat) (postmap : gmap N nat)
    (id : N) (k : nat) :
  (resolveFrom k0 es postmap).1.2 !! id = Some k <->
  (k0 <= k /\ (keyOf <$> es !! (k - k0)) = Some (Some id) /\
   forall j, k - k0 < j -> (keyOf <$> es !! j) <> Some (Some id))
  \/ (postmap !! id = Some k /\ forall j, (keyOf <$> es !! j) <> Some (Some id)).
Proof.
  revert k0 postmap. induction es as [|e es IH]; intros k0 postmap.
  - simpl. split; [intros H; right; split; [done|by intros j]|].
    intros [(_ & H & _)|[H _]]; done.
  - cbn [resolveFrom].
    destruct (resolveEntry e) as [[e' key] out] eqn:He.
    specialize (IH (S k0) (register k0 key postmap)).
    destruct (resolveFrom (S k0) es (register k0 key postmap)) as [[rest' pm'] out'].
    cbn [fst snd] in *. rewrite IH. clear IH.
    assert (Hkey : keyOf e = key) by (unfold keyOf; by rewrite He).
    assert (Hhead : (keyOf <$> (e :: es) !! 0) = Some key) by (by rewrite <- Hkey).
    split.
    + intros [(Hle & Hk & Hlast)|(Hreg & Hnone)].
      * left. split; [lia|]. replace (k - k0) with (S (k - S k0)) by lia.
        split; [done|]. intros [|j] Hj; [lia|]. apply Hlast. lia.
      * destruct key as [id'|]; cbn [register] in Hreg.
        -- destruct (decide (id' = id)) as [->|Hne].
           ++ rewrite lookup_insert_eq in Hreg. injection Hreg as <-.
              left. split; [lia|]. rewrite Nat.sub_diag.
              split; [done|]. intros [|j] Hj; [lia|]. apply Hnone.
           ++ rewrite lookup_insert_ne in Hreg by done. right. split; [done|].
              intros [|j]; [rewrite Hhead; congruence|apply Hnone].
        -- right. split; [done|]. intros [|j]; [by rewrite Hhead|apply Hnone].
    + intros [(Hle & Hk & Hlast)|(Hreg & Hnone)].
      * destruct (decide (k = k0)) as [->|Hne].
        -- right. rewrite Nat.sub_diag in Hk, Hlast. rewrite Hhead in Hk.
           injection Hk as ->. cbn [register]. rewrite lookup_insert_eq. split; [done|].
           intros j. apply (Hlast (S j)). lia.
        -- left. split; [lia|]. replace (k - k0) with (S (k - S k0)) in Hk, Hlast by lia.
           split; [done|]. intros j Hj. apply (Hlast (S j)). lia.
      * right. split.
        -- pose proof (Hnone 0) as H0. rewrite Hhead in H0.
           destruct key as [id'|]; cbn [register]; [|done].
           rewrite lookup_insert_ne; [done|]. congruence.
        -- intros j. apply (Hnone (S j)).
Qed.

(** X12: [postmap] maps a number to the index of the last entry of the
    feed that registers it, and to nothing else: when two entries carry the
    same number after "post-", the later one replaces the earlier. *)
Theorem postmap_last_wins (feed : list Entry.t) (id : N) (k : nat) :
  postmapOf feed !! id = Some k <->
  (keyOf <$> feed !! k) = Some (Some id) /\
  forall j, k < j -> (keyOf <$> feed !! j) <> Some (Some id).
Proof.
  unfold postmapOf, resolveAll. rewrite resolveFrom_lookup, Nat.sub_0_r.
  split.
  - intros [(_ & H1 & H2)|[H _]]; [done|by rewrite lookup_empty in H].
  - intros [H1 H2]. left. split; [lia|done].
Qed.

(** X13: the first loop changes the id, the parent number and the slug of
    an entry and nothing else: putting the three old values back gives the
    entry of the feed.  A template is left as it is. *)
Theorem resolved_frame (e : Entry.t) :
  Entry.with_Slug (Entry.with_Reply (Entry.with_ID (resolved e) (Entry.ID e))
                     (Entry.Reply e)) (Entry.Slug e) = e /\
  (isTemplate (Entry.Tags e) = true -> resolved e = e).
Proof.
  split.
  - destruct (resolved_shape e) as (r & s & ->). by destruct e.
  - intros Ht. unfold resolved, resolveEntry. by rewrite Ht.
Qed.

Lemma omap_cons_eq {A B : Type} (f : A -> option B) (x : A) (l : list A) :
  omap f (x :: l) = match f x with Some y => y :: omap f l | None => omap f l end.
Proof. reflexivity. Qed.

Lemma last_default_cons {A : Type} (d x : A) (l : list A) :
  default d (last (x :: l)) = default x (last l).
Proof. destruct l as [|y l]; [done|]. rewrite last_cons. by destruct (last (y :: l)). Qed.

Lemma resolveLink_fields (e : Entry.t) (l : Reply.t) :
  Entry.Reply (resolveLink e l) = default (Entry.Reply e) (relatedNumber l) /\
  Entry.Slug (resolveLink e l) = default (Entry.Slug e) (repliesSlug l).
Proof.
  unfold resolveLink, relatedNumber, repliesSlug.
  destruct (String.eqb (strings_ToLower (Reply.Rel l)) "related") eqn:Hr.
  { apply String.eqb_eq in Hr. by rewrite Hr. }
  destruct (String.eqb (strings_ToLower (Reply.Rel l)) "alternate") eqn:Ha.
  { apply String.eqb_eq in Ha. by rewrite Ha. }
  by destruct (String.eqb (strings_ToLower (Reply.Rel l)) "replies").
Qed.

(** Of several links of one kind the last one decides. *)
Lemma resolveLinks_last (links : list Reply.t) (e : Entry.t) :
  Entry.Reply (fold_left resolveLink links e)
  = default (Entry.Reply e) (last (omap relatedNumber links)) /\
  Entry.Slug (fold_left resolveLink links e)
  = default (Entry.Slug e) (last (omap repliesSlug links)).
Proof.
  revert e. induction links as [|l links IH]; intros e; [done|].
  cbn [fold_left]. destruct (IH (resolveLink e l)) as [-> ->].
  destruct (resolveLink_fields e l) as [-> ->]. rewrite !omap_cons_eq.
  split.
  - destruct (relatedNumber l); [|done]. by rewrite last_default_cons.
  - destruct (repliesSlug l); [|done]. by rewrite last_default_cons.
Qed.

(** X14: the links of an entry that is no template.  The parent number
    is the one of the last "related" link (the relation compared without
    regard to case): the number [strconv.ParseUint] returns for the last
    path element, which is 0 when that element is no number, since the
    error is dropped.  The slug is the last path element of the last
    "replies" link without its extension.  Without such a link the field
    keeps the value of the feed. *)
Theorem resolved_links (e : Entry.t) :
  isTemplate (Entry.Tags e) = false ->
  Entry.Reply (resolved e) = default (Entry.Reply e) (last (omap relatedNumber (Entry.Links e))) /\
  Entry.Slug (resolved e) = default (Entry.Slug e) (last (omap repliesSlug (Entry.Links e))).
Proof.
  intros Ht. unfold resolved, resolveEntry. rewrite Ht.
  destruct (resolveID e) as [[e1 key] out] eqn:He1. cbn [fst].
  assert (Entry.Reply e1 = Entry.Reply e /\ Entry.Slug e1 = Entry.Slug e) as [Hr Hs].
  { unfold resolveID in He1. destruct (0 <=? _)%Z; [|by injection He1 as <- _ _].
    destruct (strconv_ParseUint _) as [? []]; by injection He1 as <- _ _. }
  rewrite <- Hr, <- Hs. apply resolveLinks_last.
Qed.

Lemma resolved_links_witness :
  Entry.Reply (resolved scenarioComment)
  = default (Entry.Reply scenarioComment)
      (last (omap relatedNumber (Entry.Links scenarioComment))) /\
  Entry.Slug (resolved scenarioComment)
  = default (Entry.Slug scenarioComment)
      (last (omap repliesSlug (Entry.Links scenarioComment))).
Proof. apply (resolved_links scenarioComment). reflexivity. Defined.

Lemma resolveEntry_note (e : Entry.t) :
  (resolveEntry e).2
  = if unparsable e then [Println ("Can't parse " +:+ resolvedID e)] else [].
Proof.
  unfold unparsable, resolveEntry, resolvedID, resolveID.
  destruct (isTemplate (Entry.Tags e)); [done|]. cbn [negb andb].
  destruct (0 <=? strings_LastIndex (Entry.ID e) "post-")%Z; [|done]. cbn [andb].
  by destruct (strconv_ParseUint _) as [id []].
Qed.

(** X19: what the first loop prints.  It prints one line, "Can't parse "
    followed by the text after the last "post-", for each entry that is no
    template and whose id has the marker with no decimal [uint64] after it,
    in the order of the feed, and nothing else. *)
Theorem first_loop_notes (feed : list Entry.t) :
  notesOf feed
  = map (fun e => Println ("Can't parse " +:+ resolvedID e)) (List.filter unparsable feed).
Proof.
  unfold notesOf, resolveAll. generalize 0 (∅ : gmap N nat).
  induction feed as [|e feed IH]; intros k pm; [done|]. cbn [resolveFrom List.filter].
  pose proof (resolveEntry_note e) as Hn.
  destruct (resolveEntry e) as [[e' key] out]. cbn [snd] in Hn.
  specialize (IH (S k) (register k key pm)).
  destruct (resolveFrom (S k) feed (register k key pm)) as [[rest' pm'] out'].
  cbn [snd] in *. rewrite Hn, IH. by destruct (unparsable e).
Qed.

(** ** The second loop *)

(** Indices picked from an ascending range are ascending. *)
Lemma filter_seq_sorted (P : nat -> Prop) `{!forall x, Decision (P x)} (a n : nat) :
  StronglySorted lt (filter P (seq a n)).
Proof.
  revert a. induction n as [|n IH]; intros a; [constructor|].
  cbn [seq]. rewrite filter_cons. destruct (decide (P a)); [|apply IH].
  constructor; [apply IH|]. apply Forall_forall. intros x Hx.
  apply list_elem_of_filter in Hx as [_ Hx]. apply elem_of_seq in Hx. lia.
Qed.

(** X15: the tree the second loop builds over a feed whose entries bring
    no children.  When the loop returns, [k] is a child of [i] exactly when
    entry [k] is a comment with a parent number other than 0 that
    [postmap] maps to [i]; every list of children is in ascending order of
    index, the order of the feed; and the entries are otherwise those the
    first loop left. *)
Theorem build_children (os_OpenFile : string -> bool) (dir : string)
    (feed tbl2 : list Entry.t) (trace2 : list event) :
  Forall (fun e => Entry.Children e = []) feed ->
  build os_OpenFile dir (postmapOf feed) (resolved <$> feed, notesOf feed)
  = Ret (tbl2, trace2) ->
  Forall2 same_fields tbl2 (resolved <$> feed) /\
  (forall i k, child tbl2 i k <->
     exists e, feed !! k = Some e /\
               verdictOf (postmapOf feed) (resolved e) = Attach i) /\
  (forall i, StronglySorted lt (childrenOf tbl2 i)).
Proof.
  intros Hempty Hb.
  destruct (build_returns _ _ _ _ _ Hb) as (Hsf & _ & Hch & _).
  assert (Hch' : forall i, childrenOf tbl2 i
                 = attached (postmapOf feed) (resolved <$> feed) i (seq 0 (length feed))).
  { intros i. rewrite Hch. unfold childrenOf at 1. rewrite list_lookup_fmap.
    destruct (feed !! i) as [e|] eqn:He; simpl; [|done].
    rewrite resolved_Children.
    rewrite Forall_forall in Hempty. rewrite (Hempty e); [done|].
    by eapply list_elem_of_lookup_2. }
  split; [done|]. split.
  - intros i k. unfold child. rewrite Hch'. unfold attached.
    rewrite list_elem_of_filter, list_lookup_fmap, elem_of_seq. split.
    + intros [Hv _]. destruct (feed !! k) as [e|]; [|done]. cbn in Hv.
      injection Hv as Hv. by exists e.
    + intros (e & He & Hv). rewrite He. cbn. split; [by rewrite Hv|].
      apply lookup_lt_Some in He. lia.
  - intros i. rewrite Hch'. apply filter_seq_sorted.
Qed.

Lemma build_children_witness :
  exists tbl2 trace2,
    build alwaysOpen "out" (postmapOf scenarioFeed)
      (resolved <$> scenarioFeed, notesOf scenarioFeed) = Ret (tbl2, trace2) /\
    Forall2 same_fields tbl2 (resolved <$> scenarioFeed) /\
    (forall i k, child tbl2 i k <->
       exists e, scenarioFeed !! k = Some e /\
                 verdictOf (postmapOf scenarioFeed) (resolved e) = Attach i) /\
    (forall i, StronglySorted lt (childrenOf tbl2 i)).
Proof.
  assert (exists tbl2 trace2,
             build alwaysOpen "out" (postmapOf scenarioFeed)
               (resolved <$> scenarioFeed, notesOf scenarioFeed) = Ret (tbl2, trace2))
    as (tbl2 & trace2 & Hb) by (eexists _, _; vm_compute; reflexivity).
  exists tbl2, trace2. split; [exact Hb|].
  apply (build_children alwaysOpen "out" scenarioFeed tbl2 trace2); [|exact Hb].
  by repeat constructor.
Defined.

(** The second loop under two file systems: the same table, or the same
    panic. *)
Lemma build_loop_ignores_errors (os1 os2 : string -> bool) (dir : string)
    (postmap : gmap N nat) (ks : list nat) (tbl : list Entry.t) (tr1 tr2 : list event) :
  match for_each (buildStep os1 dir postmap) ks (tbl, tr1),
        for_each (buildStep os2 dir postmap) ks (tbl, tr2) with
  | Ret (t1, _), Ret (t2, _) => t1 = t2
  | Panic m1, Panic m2 => m1 = m2
  | _, _ => False
  end.
Proof.
  revert tbl tr1 tr2. induction ks as [|k ks IH]; intros tbl tr1 tr2; cbn [for_each]; [done|].
  destruct (tbl !! k) as [e|] eqn:He.
  - rewrite (buildStep_verdict os1 dir postmap tbl tr1 k e He),
            (buildStep_verdict os2 dir postmap tbl tr2 k e He).
    destruct (verdictOf postmap e); cbn [mbind result_bind]; try apply IH.
    exact eq_refl.
  - assert (Hp : forall os tr, buildStep os dir postmap (tbl, tr) k
                               = Panic "index out of range")
      by (intros; unfold buildStep; by rewrite He).
    rewrite !Hp. exact eq_refl.
Qed.

(** X16: the second loop drops the error of [writeComment].  Whether the
    comment files can be opened changes neither the table the loop returns
    nor the panic it ends in; only the trace differs. *)
Theorem build_ignores_write_errors (os1 os2 : string -> bool) (dir : string)
    (postmap : gmap N nat) (tbl : list Entry.t) (tr1 tr2 : list event) :
  (forall tbl' tr1', build os1 dir postmap (tbl, tr1) = Ret (tbl', tr1') ->
     exists tr2', build os2 dir postmap (tbl, tr2) = Ret (tbl', tr2')) /\
  (forall msg, build os1 dir postmap (tbl, tr1) = Panic msg ->
     build os2 dir postmap (tbl, tr2) = Panic msg).
Proof.
  unfold build. cbn [fst].
  pose proof (build_loop_ignores_errors os1 os2 dir postmap (seq 0 (length tbl)) tbl tr1 tr2)
    as H.
  destruct (for_each (buildStep os1 dir postmap) _ _) as [[t1 r1]|m1| |];
    destruct (for_each (buildStep os2 dir postmap) _ _) as [[t2 r2]|m2| |]; try done.
  - split; [|done]. intros tbl' tr1' [= <- <-]. subst. by exists r2.
  - split; [done|]. intros msg [= <-]. by subst.
Qed.

(** ** The third loop and the run *)

Lemma omap_lookup_seq {A : Type} (l1 l2 : list A) :
  omap (fun k => (l1 ++ l2) !! k) (seq (length l1) (length l2)) = l2.
Proof.
  revert l1. induction l2 as [|x l2 IH]; intros l1; [done|].
  cbn [length seq]. rewrite omap_cons_eq, list_lookup_middle by done.
  f_equal. specialize (IH (l1 ++ [x])). rewrite <- app_assoc, length_app in IH.
  cbn in IH. by rewrite Nat.add_1_r in IH.
Qed.

Lemma postsAmong_all (tbl : list Entry.t) :
  postsAmong tbl (seq 0 (length tbl)) = List.filter isPost tbl.
Proof. unfold postsAmong. f_equal. exact (omap_lookup_seq [] tbl). Qed.

Lemma postsAmong_cons (tbl : list Entry.t) (k : nat) (ks : list nat) :
  postsAmong tbl (k :: ks)
  = match tbl !! k with
    | Some e => if isPost e then e :: postsAmong tbl ks else postsAmong tbl ks
    | None => postsAmong tbl ks
    end.
Proof.
  unfold postsAmong. rewrite omap_cons_eq. destruct (tbl !! k) as [e|]; [|done].
  cbn [List.filter]. by destruct (isPost e).
Qed.

(** What the third loop hands to [writeEntry] is, as far as the file goes,
    the entry of the feed with the extra front matter of the flag. *)
Lemma postRecord_file (os_OpenFile : string -> bool) (extra dir : string)
    (entry e0 : Entry.t) (tbl' : list Entry.t) (flat : list nat) :
  same_fields entry e0 ->
  writeEntry os_OpenFile dir (postRecord extra entry tbl' flat)
  = (if os_OpenFile (entryFilename e0 dir) then Some (postEvent extra dir e0) else None) /\
  Entry.Draft (postRecord extra entry tbl' flat) = Entry.Draft e0 /\
  Entry.Title (postRecord extra entry tbl' flat) = Entry.Title e0.
Proof.
  unfold same_fields. destruct entry, e0. cbn.
  intros [= -> -> -> -> -> -> -> -> -> -> -> -> -> ->]. done.
Qed.

Lemma same_tree_fields (tbl' tbl : list Entry.t) :
  same_tree tbl' tbl -> Forall2 same_fields tbl' tbl.
Proof. intros H. eapply Forall2_impl; [exact H|]. by intros e' e [_ ?]. Qed.

Lemma same_fields_trans (tbl1 tbl2 tbl3 : list Entry.t) :
  Forall2 same_fields tbl1 tbl2 -> Forall2 same_fields tbl2 tbl3 ->
  Forall2 same_fields tbl1 tbl3.
Proof.
  intros H12. revert tbl3. induction H12 as [|x y l1 l2 Hxy _ IH]; intros tbl3 H23;
    inversion H23 as [|y' z l2' l3 Hyz Hrest]; subst; constructor; [|by apply IH].
  unfold same_fields in *. by rewrite Hxy.
Qed.

Section PostsLoop.

Variable srt : (nat -> nat -> bool) -> list nat -> list nat.
Hypothesis srt_ok : sort_contract srt.
Variable os_OpenFile : string -> bool.
Variables extra dir : string.
Variable fuel : nat.
Variable tbl0 : list Entry.t.

(** The third loop over the indices [ks], when it returns. *)
Lemma posts_loop_returns (ks : list nat) :
  forall tbl trace c tbl' trace' c',
    Forall2 same_fields tbl tbl0 ->
    for_each (postStep srt os_OpenFile extra dir fuel) ks (tbl, trace, c)
    = Ret (tbl', trace', c') ->
    Forall2 same_fields tbl' tbl0 /\
    trace' = trace ++ map (postEvent extra dir) (postsAmong tbl0 ks) /\
    count c' = count c + length (List.filter isPublished (postsAmong tbl0 ks)) /\
    drafts c' = drafts c + length (List.filter Entry.Draft (postsAmong tbl0 ks)) /\
    Forall (fun e => os_OpenFile (entryFilename e dir) = true) (postsAmong tbl0 ks).
Proof.
  induction ks as [|k ks IH]; intros tbl trace c tbl' trace' c' Hsf; cbn [for_each].
  - intros [= <- <- <-]. unfold postsAmong. cbn. rewrite app_nil_r.
    repeat split; try done; lia.
  - rewrite postsAmong_cons.
    destruct (tbl !! k) as [e|] eqn:He; [|by unfold postStep; rewrite He].
    destruct (Forall2_lookup_l _ _ _ _ _ Hsf He) as (e0 & He0 & Hee0).
    rewrite He0, <- (same_fields_isPost _ _ Hee0).
    destruct (isPost e) eqn:Hp.
    + rewrite (postStep_post _ _ _ _ _ _ _ _ _ _ He Hp).
      destruct (treeSort srt fuel tbl k) as [[t flat]| | |] eqn:Ht;
        cbn [mbind result_bind]; try done.
      destruct (postRecord_file os_OpenFile extra dir e e0 t flat Hee0) as (Hw & Hd & _).
      rewrite Hw, Hd.
      destruct (os_OpenFile (entryFilename e0 dir)) eqn:Hos; [|done].
      intros Hrest.
      assert (Hsf' : Forall2 same_fields t tbl0).
      { eapply same_fields_trans; [|exact Hsf].
        apply same_tree_fields. by destruct (treeSort_returns srt srt_ok tbl _ _ _ _ Ht). }
      destruct (IH _ _ _ _ _ _ Hsf' Hrest) as (H1 & H2 & H3 & H4 & H5).
      split; [done|]. split; [by rewrite H2, <- app_assoc|].
      cbn [List.filter]. change (isPublished e0) with (negb (Entry.Draft e0)).
      destruct (Entry.Draft e0) in H3, H4 |- *; cbn [negb length count drafts] in *;
        (split; [lia|]); (split; [lia|]); by constructor.
    + rewrite (postStep_no_post _ _ _ _ _ _ _ _ _ _ He Hp). cbn. by apply IH.
Qed.

End PostsLoop.

(** Tables that agree up to the lists of children have the same posts,
    files and counts. *)
Lemma postEvent_same_fields (extra dir : string) (tbl tbl0 : list Entry.t) :
  Forall2 same_fields tbl tbl0 ->
  map (postEvent extra dir) (List.filter isPost tbl)
  = map (postEvent extra dir) (List.filter isPost tbl0) /\
  length (List.filter isPublished (List.filter isPost tbl))
  = length (List.filter isPublished (List.filter isPost tbl0)) /\
  length (List.filter Entry.Draft (List.filter isPost tbl))
  = length (List.filter Entry.Draft (List.filter isPost tbl0)).
Proof.
  induction 1 as [|e e0 l l0 He _ IH]; [done|]. cbn [List.filter].
  rewrite (same_fields_isPost _ _ He). destruct IH as (IH1 & IH2 & IH3).
  destruct (isPost e0); [|done]. cbn [map List.filter].
  change (isPublished e) with (negb (Entry.Draft e)).
  change (isPublished e0) with (negb (Entry.Draft e0)).
  assert (Hd : Entry.Draft e = Entry.Draft e0).
  { unfold same_fields in He. by apply (f_equal Entry.Draft) in He. }
  assert (Hf : postEvent extra dir e = postEvent extra dir e0).
  { unfold same_fields in He. destruct e, e0. cbn in He.
    by injection He as -> -> -> -> -> -> -> -> -> -> -> -> -> ->. }
  rewrite Hd, Hf, IH1. split; [done|].
  destruct (Entry.Draft e0); cbn [negb length]; by rewrite IH2, IH3.
Qed.

(** X17: what a run that returns leaves behind, with a sorting routine
    that meets the contract of [sort.Sort].  The trace is, in order: the
    lines the first loop printed; for each entry in feed order what the
    second loop did with it (a line for an orphan, a file for an attached
    comment that could be opened); one file for each post in feed order,
    rendered from the entry as the first loop left it with the text of the
    flag for its extra front matter, whatever the comment tree; and the
    two summary lines, which count the posts that are no drafts and the
    drafts.  Every post file could be opened, and the table differs from
    the feed after the first loop in lists of children only. *)
Theorem main_trace (srt : (nat -> nat -> bool) -> list nat -> list nat)
    (os_OpenFile : string -> bool) (extra dir : string) (fuel : nat)
    (feed tbl : list Entry.t) (trace : list event) :
  sort_contract srt ->
  main srt os_OpenFile extra dir fuel feed = Ret (tbl, trace) ->
  let ps := List.filter isPost (resolved <$> feed) in
  Forall2 same_fields tbl (resolved <$> feed) /\
  Forall (fun e => os_OpenFile (entryFilename e dir) = true) ps /\
  trace
  = notesOf feed
    ++ eventsOf os_OpenFile dir (postmapOf feed) (resolved <$> feed) (seq 0 (length feed))
    ++ map (postEvent extra dir) ps
    ++ [LogPrintf ("Wrote " +:+ strconv_Itoa (length (List.filter isPublished ps))
                   +:+ " published posts to disk.");
        LogPrintf ("Wrote " +:+ strconv_Itoa (length (List.filter Entry.Draft ps))
                   +:+ " drafts to disk.")].
Proof.
  intros Hsrt Hrun ps.
  assert (Hne : feed <> []) by (intros ->; done).
  rewrite (main_passes _ _ _ _ _ _ Hne) in Hrun.
  destruct (build _ _ _ _) as [[tbl2 trace2]| | |] eqn:Hb; cbn [mbind result_bind] in Hrun;
    try done.
  destruct (build_returns _ _ _ _ _ Hb) as (Hsf2 & -> & _ & _).
  unfold posts in Hrun. cbn [fst] in Hrun.
  destruct (for_each _ _ _) as [[[tbl3 trace3] c]| | |] eqn:Hposts;
    cbn [mbind result_bind] in Hrun; try done.
  injection Hrun as <- <-.
  destruct (posts_loop_returns srt Hsrt os_OpenFile extra dir fuel tbl2 _ _ _ _ _ _ _
              (same_fields_refl_table tbl2) Hposts) as (Hsf3 & -> & Hc & Hd & Hw).
  rewrite postsAmong_all in *. cbn [count drafts] in Hc, Hd.
  destruct (postEvent_same_fields extra dir _ _ Hsf2) as (Hf1 & Hf2 & Hf3).
  split; [by eapply same_fields_trans|].
  split.
  { clear -Hw Hsf2. subst ps. revert Hw. induction Hsf2 as [|e e0 l l0 He _ IH]; [done|].
    cbn [List.filter]. rewrite (same_fields_isPost _ _ He).
    destruct (isPost e0); [|done]. intros [Hh Ht]%Forall_cons. constructor; [|by apply IH].
    unfold entryFilename in *. unfold same_fields in He.
    assert (Entry.Published e = Entry.Published e0) as <-
      by (by apply (f_equal Entry.Published) in He).
    assert (Entry.Title e = Entry.Title e0) as <-
      by (by apply (f_equal Entry.Title) in He).
    done. }
  rewrite Hc, Hd, Hf1, Hf2, Hf3. by rewrite <- !app_assoc.
Qed.

Lemma main_trace_witness :
  exists tbl trace,
    main insertionSort alwaysOpen "layout: post" "out" 2 scenarioFeed = Ret (tbl, trace) /\
    let ps := List.filter isPost (resolved <$> scenarioFeed) in
    Forall2 same_fields tbl (resolved <$> scenarioFeed) /\
    Forall (fun e => alwaysOpen (entryFilename e "out") = true) ps /\
    trace
    = notesOf scenarioFeed
      ++ eventsOf alwaysOpen "out" (postmapOf scenarioFeed) (resolved <$> scenarioFeed)
           (seq 0 (length scenarioFeed))
      ++ map (postEvent "layout: post" "out") ps
      ++ [LogPrintf ("Wrote " +:+ strconv_Itoa (length (List.filter isPublished ps))
                     +:+ " published posts to disk.");
          LogPrintf ("Wrote " +:+ strconv_Itoa (length (List.filter Entry.Draft ps))
                     +:+ " drafts to disk.")].
Proof.
  assert (exists tbl trace,
             main insertionSort alwaysOpen "layout: post" "out" 2 scenarioFeed
             = Ret (tbl, trace))
    as (tbl & trace & Hrun) by (eexists _, _; vm_compute; reflexivity).
  exists tbl, trace. split; [exact Hrun|].
  exact (main_trace insertionSort alwaysOpen "layout: post" "out" 2 scenarioFeed tbl trace
           insertionSort_contract Hrun).
Defined.

Lemma same_tree_trans (tbl1 tbl2 tbl3 : list Entry.t) :
  same_tree tbl1 tbl2 -> same_tree tbl2 tbl3 -> same_tree tbl1 tbl3.
Proof.
  intros H12. revert tbl3. induction H12 as [|x y l1 l2 [Hp Hf] _ IH]; intros tbl3 H23;
    inversion H23 as [|y' z l2' l3 [Hp' Hf'] Hrest]; subst; constructor; [|by apply IH].
  split; [by rewrite Hp|by rewrite Hf].
Qed.

Lemma same_tree_child (tbl tbl0 : list Entry.t) (i j : nat) :
  same_tree tbl tbl0 -> child tbl i j <-> child tbl0 i j.
Proof.
  intros Hs. unfold child. pose proof (same_tree_children _ _ i Hs) as Hp.
  split; intros H; [by rewrite <- Hp|by rewrite Hp].
Qed.

Lemma same_tree_valid (tbl tbl0 : list Entry.t) :
  same_tree tbl tbl0 -> valid tbl0 -> valid tbl.
Proof.
  intros Hs Hv i j Hij. rewrite (same_tree_length _ _ Hs).
  apply (Hv i j). by apply (same_tree_child _ _ _ _ Hs).
Qed.

Lemma same_tree_acyclic (tbl tbl0 : list Entry.t) :
  same_tree tbl tbl0 -> acyclic tbl0 -> acyclic tbl.
Proof.
  intros Hs Ha i Hc. apply (Ha i). clear Ha.
  assert (H : forall a b, tc (child tbl) a b -> tc (child tbl0) a b); [|by apply H].
  clear i Hc. intros a b Hab. induction Hab as [x y Hxy|x y z Hxy _ IH].
  - apply tc_once. by apply (same_tree_child _ _ x y Hs).
  - eapply tc_l; [|exact IH]. by apply (same_tree_child _ _ x y Hs).
Qed.

Section PostsOutcome.

Variable srt : (nat -> nat -> bool) -> list nat -> list nat.
Hypothesis srt_ok : sort_contract srt.
Variable os_OpenFile : string -> bool.
Variables extra dir : string.
Variable fuel : nat.
Variables tblT tblR : list Entry.t.
Hypothesis tblT_fields : Forall2 same_fields tblT tblR.
Hypothesis tblT_valid : valid tblT.
Hypothesis tblT_acyclic : acyclic tblT.
Hypothesis fuel_enough : length tblT <= fuel.

(** The third loop over the indices [ks] of a valid, acyclic table: it
    stops at the first post whose file cannot be opened, and returns when
    there is none. *)
Lemma posts_loop_outcome (ks : list nat) :
  forall tbl trace c,
    same_tree tbl tblT ->
    Forall (fun k => k < length tblT) ks ->
    match List.find (unwritable os_OpenFile dir) (omap (fun k => tblR !! k) ks) with
    | Some e =>
        for_each (postStep srt os_OpenFile extra dir fuel) ks (tbl, trace, c)
        = Fatal ("Failed writing post " +:+ strconv_Quote (Entry.Title e) +:+ " to disk:")
    | None =>
        exists tbl' trace' c',
          for_each (postStep srt os_OpenFile extra dir fuel) ks (tbl, trace, c)
          = Ret (tbl', trace', c')
    end.
Proof.
  induction ks as [|k ks IH]; intros tbl trace c Hs Hks; cbn [for_each].
  { cbn. by exists tbl, trace, c. }
  apply Forall_cons in Hks as [Hk Hks]. rewrite omap_cons_eq.
  pose proof (same_tree_length _ _ Hs) as Hlen.
  pose proof (Forall2_length _ _ _ tblT_fields) as HlenR.
  destruct (lookup_lt_is_Some_2 tbl k ltac:(lia)) as [e He].
  assert (Hsf : Forall2 same_fields tbl tblR).
  { eapply same_fields_trans; [by apply same_tree_fields|done]. }
  destruct (Forall2_lookup_l _ _ _ _ _ Hsf He) as (e0 & He0 & Hee0).
  rewrite He0. cbn [List.find]. unfold unwritable at 1.
  rewrite <- (same_fields_isPost _ _ Hee0).
  destruct (isPost e) eqn:Hp; cbn [andb].
  - rewrite (postStep_post _ _ _ _ _ _ _ _ _ _ He Hp).
    destruct (treeSort_terminates srt srt_ok tbl k
                (same_tree_valid _ _ Hs tblT_valid)
                (same_tree_acyclic _ _ Hs tblT_acyclic) ltac:(lia)) as (t & flat & Ht).
    apply (treeSort_fuel_mono srt _ fuel) in Ht; [|lia].
    rewrite Ht. cbn [mbind result_bind].
    destruct (postRecord_file os_OpenFile extra dir e e0 t flat Hee0) as (Hw & _ & Htitle).
    rewrite Hw, Htitle.
    destruct (os_OpenFile (entryFilename e0 dir)); cbn [negb]; [|done].
    cbn [mbind result_bind]. apply IH; [|done].
    eapply same_tree_trans; [|exact Hs].
    by destruct (treeSort_returns srt srt_ok tbl _ _ _ _ Ht).
  - rewrite (postStep_no_post _ _ _ _ _ _ _ _ _ _ He Hp). cbn [mbind result_bind].
    by apply IH.
Qed.

End PostsOutcome.

(** A table in which every child has a greater index than its parent is
    acyclic. *)
Lemma tc_child_increasing (tbl : list Entry.t) :
  (forall i j, child tbl i j -> i < j) -> acyclic tbl.
Proof.
  intros Hinc i Hc.
  assert (H : forall a b, tc (child tbl) a b -> a < b).
  { intros a b Hab. induction Hab as [x y Hxy|x y z Hxy _ IH].
    - by apply Hinc.
    - apply Hinc in Hxy. lia. }
  apply H in Hc. lia.
Qed.

(** X18: how a run ends.  Take a feed that is not empty, whose entries
    bring no children, in which every comment with a parent number other
    than 0 has a registered parent that stands before it, a sorting routine
    that meets the contract of [sort.Sort] and fuel of the length of the
    feed.  Then the run never panics and always ends: if the file of some
    post cannot be opened it is fatal, with the title of the first such
    post in the message, and otherwise the run returns. *)
Theorem main_outcome (srt : (nat -> nat -> bool) -> list nat -> list nat)
    (os_OpenFile : string -> bool) (extra dir : string) (fuel : nat)
    (feed : list Entry.t) :
  sort_contract srt ->
  feed <> [] ->
  Forall (fun e => Entry.Children e = []) feed ->
  no_dangling feed ->
  parents_first feed ->
  length feed <= fuel ->
  match List.find (unwritable os_OpenFile dir) (resolved <$> feed) with
  | Some e =>
      main srt os_OpenFile extra dir fuel feed
      = Fatal ("Failed writing post " +:+ strconv_Quote (Entry.Title e) +:+ " to disk:")
  | None =>
      exists tbl trace, main srt os_OpenFile extra dir fuel feed = Ret (tbl, trace)
  end.
Proof.
  intros Hsrt Hne Hempty Hnd Hpf Hfuel.
  rewrite (main_passes _ _ _ _ _ _ Hne).
  destruct (build_loop_cases os_OpenFile dir (postmapOf feed) (resolved <$> feed)
              (seq 0 (length (resolved <$> feed))) (seq_in_range _)
              (resolved <$> feed) (notesOf feed) (same_fields_refl_table _))
    as [(tbl2 & trace2 & Hb)|(k' & Hk' & Hd & _)].
  2:{ exfalso. rewrite list_lookup_fmap in Hd.
      destruct (feed !! k') as [e|] eqn:He; [|done]. cbn in Hd.
      injection Hd as Hd. by apply (Hnd k' e He). }
  change (build os_OpenFile dir (postmapOf feed) (resolved <$> feed, notesOf feed)
          = Ret (tbl2, trace2)) in Hb.
  rewrite Hb. cbn [mbind result_bind].
  destruct (build_returns _ _ _ _ _ Hb) as (Hsf & _ & Hch & _).
  destruct (build_tree_shape _ _ _ _ _ Hempty Hb) as [Hv _].
  assert (Hlen : length tbl2 = length feed).
  { by rewrite (Forall2_length _ _ _ Hsf), length_fmap. }
  assert (Ha : acyclic tbl2).
  { apply tc_child_increasing. intros i j Hij. unfold child in Hij. rewrite Hch in Hij.
    apply elem_of_app in Hij as [Hij|Hij].
    - unfold childrenOf in Hij. rewrite list_lookup_fmap in Hij.
      destruct (feed !! i) as [e|] eqn:He; cbn in Hij; [|by apply elem_of_nil in Hij].
      rewrite resolved_Children in Hij. rewrite Forall_forall in Hempty.
      rewrite (Hempty e) in Hij; [by apply elem_of_nil in Hij|].
      by eapply list_elem_of_lookup_2.
    - apply list_elem_of_filter in Hij as [Hverd _].
      rewrite list_lookup_fmap in Hverd.
      destruct (feed !! j) as [e|] eqn:He; [|done]. cbn in Hverd.
      injection Hverd as Hverd. by apply (Hpf j e i). }
  pose proof (posts_loop_outcome srt Hsrt os_OpenFile extra dir fuel tbl2 (resolved <$> feed)
                Hsf Hv Ha ltac:(lia) (seq 0 (length tbl2)) tbl2 trace2 (mkCounters 0 0)
                (same_tree_refl _) (seq_in_range _)) as Hloop.
  assert (Hall : omap (fun k => (resolved <$> feed) !! k) (seq 0 (length tbl2))
                 = resolved <$> feed).
  { rewrite Hlen, <- (length_fmap resolved). exact (omap_lookup_seq [] _). }
  rewrite Hall in Hloop. unfold posts. cbn [fst].
  destruct (List.find _ _) as [e|].
  - by rewrite Hloop.
  - destruct Hloop as (tbl3 & trace3 & c & ->). cbn [mbind result_bind]. by eexists _, _.
Qed.

Lemma scenarioFeed_no_dangling : no_dangling scenarioFeed.
Proof.
  intros k e He. destruct k as [|[|k]]; cbn in He; try done; injection He as <-;
    vm_compute; discriminate.
Qed.

Lemma scenarioFeed_parents_first : parents_first scenarioFeed.
Proof.
  intros k e i He. destruct k as [|[|k]]; cbn in He; try done; injection He as <-;
    vm_compute; intros [= <-]; lia.
Qed.

Lemma main_outcome_witness :
  exists tbl trace,
    main insertionSort alwaysOpen "" "out" 2 scenarioFeed = Ret (tbl, trace).
Proof.
  pose proof (main_outcome insertionSort alwaysOpen "" "out" 2 scenarioFeed
                insertionSort_contract ltac:(discriminate)
                ltac:(by repeat constructor)
                scenarioFeed_no_dangling scenarioFeed_parents_first ltac:(cbn; lia)) as H.
  assert (Hf : List.find (unwritable alwaysOpen "out") (resolved <$> scenarioFeed) = None)
    by (vm_compute; reflexivity).
  rewrite Hf in H. exact H.
Defined.
